(** * rspace-online: the community store and the WebSocket relay

    A shallow embedding of [server/community-store.ts] (the Automerge
    revision) and of the relay in [server/index.ts].

    - The three module-level [Map]s of the store ([communities],
      [peerSyncStates], [saveTimers]) are fields of one record, [World],
      together with what the store reaches in its host: the files under
      [STORAGE_DIR], the pending timers of the event loop and the clock.
    - [@automerge/automerge] is an external library: it is an interface
      ([Automerge.Lib]) and every result holds for every implementation.
    - Every handler runs to completion on the state it is given; the
      interleaving of two [async] handlers at an [await] is not modelled,
      but for [websocket.open], whose continuation is a step of its own.
    - A [Map] is a [gmap]: the order in which the source iterates one is
      not kept, and nothing below depends on it. *)

From Stdlib Require Import PrimFloat Ascii String.
From stdpp Require Import gmap strings list fin_maps.

Open Scope string_scope.
Open Scope list_scope.

(** ** Data model *)

(** [Uint8Array] and file contents. *)
Abbreviation bytes := (list Byte.byte).

(** [interface CommunityMeta]. *)
Record CommunityMeta := {
  meta_name : string;
  meta_slug : string;
  meta_createdAt : string;
}.

(** [interface ShapeData]; a JS [number] is an IEEE-754 double. *)
Record ShapeData := {
  shape_type : string;
  shape_id : string;
  shape_x : float;
  shape_y : float;
  shape_width : float;
  shape_height : float;
  shape_rotation : float;
  shape_content : option string;
  shape_sourceId : option string;
  shape_targetId : option string;
}.

(** [interface CommunityDoc] as the mutators see it.  A document made by
    [Automerge.init] has neither field yet, and [updateShape] tests
    [!d.shapes], so both are optional at run time. *)
Record CommunityDoc := {
  meta : option CommunityMeta;
  shapes : option (gmap string ShapeData);
}.

(** A legacy [<slug>.json] record as the cast [as CommunityDoc] types it;
    [jsonToAutomerge] tolerates a missing [shapes] ([data.shapes || {}]). *)
Record LegacyDoc := {
  legacy_meta : CommunityMeta;
  legacy_shapes : option (gmap string ShapeData);
}.

(** Values produced by [JSON.parse] and consumed by [JSON.stringify]. *)
#[warnings="-register-all"]
Inductive Json :=
| JNull
| JBool (b : bool)
| JNum (n : float)
| JStr (s : string)
| JArr (items : list Json)
| JObj (fields : list (string * Json)).

(** ** The merge library *)

Module Automerge.

(** The part of [@automerge/automerge] the store calls.  [load] and
    [receiveSyncMessage] throw on undecodable input: [None]. *)
Class Lib := {
  Doc : Type;
  SyncState : Type;
  Patch : Type;
  init : Doc;
  change : Doc -> string -> (CommunityDoc -> CommunityDoc) -> Doc;
  load : bytes -> option Doc;
  save : Doc -> bytes;
  initSyncState : SyncState;
  receiveSyncMessage :
    Doc -> SyncState -> bytes -> option (Doc * SyncState * option (list Patch));
  generateSyncMessage : Doc -> SyncState -> SyncState * option bytes;
  (** Reading a document as a plain object
      ([JSON.parse(JSON.stringify(doc))] in [getDocumentData]). *)
  toJS : Doc -> CommunityDoc;
}.

End Automerge.

(** ** The host: Bun, the file system, [Date], [JSON] *)

Class Host := {
  (** [process.env.STORAGE_DIR || "./data/communities"] *)
  STORAGE_DIR : string;
  (** [await file.json()] on a legacy record; [None] when it throws. *)
  file_json : bytes -> option LegacyDoc;
  (** [new Date(ms).toISOString()] *)
  toISOString : N -> string;
  (** [JSON.parse(text)]; [None] when it throws. *)
  JSON_parse : string -> option Json;
  (** [JSON.stringify(value)] *)
  JSON_stringify : Json -> string;
  (** [new Uint8Array(items)] and [Array.from(bytes)]. *)
  Uint8Array_of : list Json -> bytes;
  Array_from : bytes -> list Json;
  (** The unchecked casts of the legacy relay messages: [msg.id] used as a
      property key and [msg.data] passed as [ShapeData]. *)
  key_of_json : Json -> string;
  shape_of_json : Json -> ShapeData;
}.

(** ** The store's state *)

Section Store.
Context `{!Automerge.Lib, !Host}.

(** [interface PeerState] *)
Record PeerState := {
  syncState : Automerge.SyncState;
  lastActivity : N;
}.

(** A timer of the event loop.  The only [setTimeout] of the program is the
    one in [saveCommunity]; its callback closes over [slug]. *)
Record Timer := {
  timer_id : nat;
  timer_slug : string;
  timer_due : N;
}.

Record World := {
  (** [const communities = new Map<string, Automerge.Doc<CommunityDoc>>()] *)
  communities : gmap string Automerge.Doc;
  (** [const peerSyncStates = new Map<string, Map<string, PeerState>>()] *)
  peerSyncStates : gmap string (gmap string PeerState);
  (** [const saveTimers = new Map<string, Timer>()] *)
  saveTimers : gmap string nat;
  (** the files under [STORAGE_DIR], by path *)
  disk : gmap string bytes;
  (** every [Bun.write] made so far, oldest first *)
  writeLog : list (string * bytes);
  (** timers armed and neither fired nor cleared, oldest first *)
  pendingTimers : list Timer;
  (** the handle the next [setTimeout] returns *)
  nextTimerId : nat;
  (** [Date.now()], in milliseconds *)
  clock : N;
}.

Definition with_communities (f : gmap string Automerge.Doc -> gmap string Automerge.Doc)
    (w : World) : World :=
  {| communities := f (communities w); peerSyncStates := peerSyncStates w;
     saveTimers := saveTimers w; disk := disk w; writeLog := writeLog w;
     pendingTimers := pendingTimers w; nextTimerId := nextTimerId w;
     clock := clock w |}.

Definition with_peerSyncStates
    (f : gmap string (gmap string PeerState) -> gmap string (gmap string PeerState))
    (w : World) : World :=
  {| communities := communities w; peerSyncStates := f (peerSyncStates w);
     saveTimers := saveTimers w; disk := disk w; writeLog := writeLog w;
     pendingTimers := pendingTimers w; nextTimerId := nextTimerId w;
     clock := clock w |}.

(** The state when the module has just been evaluated: the three maps are
    empty and no timer is armed; the files and the clock are the host's. *)
Definition initial (files : gmap string bytes) (now : N) : World :=
  {| communities := ∅; peerSyncStates := ∅; saveTimers := ∅; disk := files;
     writeLog := []; pendingTimers := []; nextTimerId := 0; clock := now |}.

(** ** Paths *)

Definition binaryPath (slug : string) : string :=
  STORAGE_DIR +:+ "/" +:+ slug +:+ ".automerge".

Definition jsonPath (slug : string) : string :=
  STORAGE_DIR +:+ "/" +:+ slug +:+ ".json".

(** ** Timers and the debounced save *)

(** [clearTimeout(t)]: a handle that is no longer pending clears nothing. *)
Definition clearTimeout (t : nat) (w : World) : World :=
  {| communities := communities w; peerSyncStates := peerSyncStates w;
     saveTimers := saveTimers w; disk := disk w; writeLog := writeLog w;
     pendingTimers := filter (λ p, timer_id p ≠ t) (pendingTimers w);
     nextTimerId := nextTimerId w; clock := clock w |}.

(** [setTimeout(callback, delay)] with the save callback of [slug]. *)
Definition setTimeout (slug : string) (delay : N) (w : World) : nat * World :=
  (nextTimerId w,
   {| communities := communities w; peerSyncStates := peerSyncStates w;
      saveTimers := saveTimers w; disk := disk w; writeLog := writeLog w;
      pendingTimers := pendingTimers w ++
        [{| timer_id := nextTimerId w; timer_slug := slug;
            timer_due := (clock w + delay)%N |}];
      nextTimerId := S (nextTimerId w); clock := clock w |}).

(** [Bun.write(path, data)] *)
Definition Bun_write (path : string) (data : bytes) (w : World) : World :=
  {| communities := communities w; peerSyncStates := peerSyncStates w;
     saveTimers := saveTimers w; disk := <[path := data]> (disk w);
     writeLog := writeLog w ++ [(path, data)];
     pendingTimers := pendingTimers w; nextTimerId := nextTimerId w;
     clock := clock w |}.

(** The callback [saveCommunity] hands to [setTimeout]: it reads the cache
    when it runs. *)
Definition saveCallback (slug : string) (w : World) : World :=
  match communities w !! slug with
  | None => w
  | Some currentDoc => Bun_write (binaryPath slug) (Automerge.save currentDoc) w
  end.

(** The quiet period of the debounce, in milliseconds. *)
Definition SAVE_DELAY : N := 2000.

Definition saveCommunity (w : World) (slug : string) : World :=
  match communities w !! slug with
  | None => w
  | Some _ =>
    let w1 :=
      match saveTimers w !! slug with
      | Some existingTimer => clearTimeout existingTimer w
      | None => w
      end in
    let '(timer, w2) := setTimeout slug SAVE_DELAY w1 in
    {| communities := communities w2; peerSyncStates := peerSyncStates w2;
       saveTimers := <[slug := timer]> (saveTimers w2); disk := disk w2;
       writeLog := writeLog w2; pendingTimers := pendingTimers w2;
       nextTimerId := nextTimerId w2; clock := clock w2 |}
  end.

(** Time passes: the clock moves on by [dt] and the event loop runs the
    callback of every timer that has come due.  Every timer has the same
    delay and the clock never goes back, so [pendingTimers] is in firing
    order. *)
Definition advance (dt : N) (w : World) : World :=
  let now := (clock w + dt)%N in
  let due := filter (λ p, (timer_due p <= now)%N) (pendingTimers w) in
  let later := filter (λ p, ¬ (timer_due p <= now)%N) (pendingTimers w) in
  foldl (λ acc p, saveCallback (timer_slug p) acc)
    {| communities := communities w; peerSyncStates := peerSyncStates w;
       saveTimers := saveTimers w; disk := disk w; writeLog := writeLog w;
       pendingTimers := later; nextTimerId := nextTimerId w; clock := now |}
    due.

(** ** Documents *)

(** The mutator of [jsonToAutomerge]: [d.meta = { ...data.meta }], then
    [d.shapes = {}] filled with a copy of every entry of [data.shapes || {}]. *)
Definition importMutator (data : LegacyDoc) (d : CommunityDoc) : CommunityDoc :=
  {| meta := Some (legacy_meta data);
     shapes := Some (map_fold (λ id shape acc, <[id := shape]> acc) ∅
                       (default ∅ (legacy_shapes data))) |}.

Definition jsonToAutomerge (data : LegacyDoc) : Automerge.Doc :=
  Automerge.change Automerge.init "Import from JSON" (importMutator data).

Definition loadCommunity (w : World) (slug : string) : World * option Automerge.Doc :=
  match communities w !! slug with
  | Some cached => (w, Some cached)
  | None =>
    let fromJson :=
      match disk w !! jsonPath slug with
      | Some text =>
        match file_json text with
        | Some data =>
          let doc := jsonToAutomerge data in
          let w1 := with_communities (insert slug doc) w in
          (saveCommunity w1 slug, Some doc)
        | None => (w, None)
        end
      | None => (w, None)
      end in
    match disk w !! binaryPath slug with
    | Some buffer =>
      match Automerge.load buffer with
      | Some doc => (with_communities (insert slug doc) w, Some doc)
      | None => fromJson
      end
    | None => fromJson
    end
  end.

(** The mutator of [createCommunity]. *)
Definition createMutator (name slug createdAt : string) (d : CommunityDoc) : CommunityDoc :=
  {| meta := Some {| meta_name := name; meta_slug := slug;
                     meta_createdAt := createdAt |};
     shapes := Some ∅ |}.

Definition createCommunity (w : World) (name slug : string) : World * Automerge.Doc :=
  let doc := Automerge.change Automerge.init "Create community"
               (createMutator name slug (toISOString (clock w))) in
  let w1 := with_communities (insert slug doc) w in
  (saveCommunity w1 slug, doc).

Definition communityExists (w : World) (slug : string) : bool :=
  if decide (is_Some (communities w !! slug)) then true
  else bool_decide (is_Some (disk w !! binaryPath slug))
       || bool_decide (is_Some (disk w !! jsonPath slug)).

(** ** Peer sync states *)

Definition getPeerSyncState (w : World) (slug peerId : string) : World * PeerState :=
  let table :=
    if decide (is_Some (peerSyncStates w !! slug)) then peerSyncStates w
    else <[slug := ∅]> (peerSyncStates w) in
  let communityPeers := default ∅ (table !! slug) in
  let communityPeers1 :=
    if decide (is_Some (communityPeers !! peerId)) then communityPeers
    else <[peerId := {| syncState := Automerge.initSyncState;
                        lastActivity := clock w |}]> communityPeers in
  let found := default {| syncState := Automerge.initSyncState;
                          lastActivity := clock w |} (communityPeers1 !! peerId) in
  let peerState := {| syncState := syncState found; lastActivity := clock w |} in
  (with_peerSyncStates (λ _, <[slug := <[peerId := peerState]> communityPeers1]> table) w,
   peerState).

(** [peerState.syncState = s] on the object [getPeerSyncState] returned:
    the object is the one the table holds. *)
Definition setSyncState (slug peerId : string) (s : Automerge.SyncState)
    (w : World) : World :=
  with_peerSyncStates
    (alter (alter (λ ps, {| syncState := s; lastActivity := lastActivity ps |}) peerId) slug)
    w.

Definition removePeerSyncState (w : World) (slug peerId : string) : World :=
  match peerSyncStates w !! slug with
  | Some communityPeers =>
    let communityPeers1 := delete peerId communityPeers in
    if decide (size communityPeers1 = 0)
    then with_peerSyncStates (delete slug) w
    else with_peerSyncStates (insert slug communityPeers1) w
  | None => w
  end.

Definition getCommunityPeers (w : World) (slug : string) : list string :=
  match peerSyncStates w !! slug with
  | Some communityPeers => map fst (map_to_list communityPeers)
  | None => []
  end.

(** ** Reconciliation *)

(** How a call ends: with a value, or with an exception of the library. *)
Inductive completion (A : Type) :=
| Returned (a : A)
| Thrown.
Global Arguments Returned {A} a.
Global Arguments Thrown {A}.

(** The value [receiveSyncMessage] returns. *)
Record SyncResult := {
  response : option bytes;
  broadcastToPeers : gmap string bytes;
}.

(** [patch && patch.patches && patch.patches.length > 0] *)
Definition hasPatches (patch : option (list Automerge.Patch)) : bool :=
  match patch with
  | Some (_ :: _) => true
  | _ => false
  end.

(** One turn of the loop over [communityPeers], on the cursor and on the
    message of [otherPeerId]. *)
Definition catchUpState (newDoc : Automerge.Doc) (peerId otherPeerId : string)
    (otherPeerState : PeerState) : option PeerState :=
  Some (if decide (otherPeerId ≠ peerId)
        then {| syncState :=
                  (Automerge.generateSyncMessage newDoc (syncState otherPeerState)).1;
                lastActivity := lastActivity otherPeerState |}
        else otherPeerState).

Definition catchUpMessage (newDoc : Automerge.Doc) (peerId otherPeerId : string)
    (otherPeerState : PeerState) : option bytes :=
  if decide (otherPeerId ≠ peerId)
  then (Automerge.generateSyncMessage newDoc (syncState otherPeerState)).2
  else None.

Definition receiveSyncMessage (w : World) (slug peerId : string) (message : bytes)
    : World * completion SyncResult :=
  match communities w !! slug with
  | None => (w, Returned {| response := None; broadcastToPeers := ∅ |})
  | Some doc =>
    let '(w1, peerState) := getPeerSyncState w slug peerId in
    match Automerge.receiveSyncMessage doc (syncState peerState) message with
    | None => (w1, Thrown)
    | Some (newDoc, newSyncState, patch) =>
      let w2 := with_communities (insert slug newDoc) w1 in
      let w3 := setSyncState slug peerId newSyncState w2 in
      let w4 := if hasPatches patch then saveCommunity w3 slug else w3 in
      let '(nextSyncState, responseMessage) :=
        Automerge.generateSyncMessage newDoc newSyncState in
      let w5 := setSyncState slug peerId nextSyncState w4 in
      match peerSyncStates w5 !! slug with
      | Some communityPeers =>
        if hasPatches patch
        then
          (with_peerSyncStates
             (insert slug (map_imap (catchUpState newDoc peerId) communityPeers)) w5,
           Returned {| response := responseMessage;
                       broadcastToPeers :=
                         map_imap (catchUpMessage newDoc peerId) communityPeers |})
        else (w5, Returned {| response := responseMessage; broadcastToPeers := ∅ |})
      | None => (w5, Returned {| response := responseMessage; broadcastToPeers := ∅ |})
      end
    end
  end.

Definition generateSyncMessageForPeer (w : World) (slug peerId : string)
    : World * option bytes :=
  match communities w !! slug with
  | None => (w, None)
  | Some doc =>
    let '(w1, peerState) := getPeerSyncState w slug peerId in
    let '(newSyncState, message) :=
      Automerge.generateSyncMessage doc (syncState peerState) in
    (setSyncState slug peerId newSyncState w1, message)
  end.

Definition getDocumentData (w : World) (slug : string) : option CommunityDoc :=
  match communities w !! slug with
  | None => None
  | Some doc => Some (Automerge.toJS doc)
  end.

(** ** Legacy mutations *)

(** [if (!d.shapes) d.shapes = {}; d.shapes[shapeId] = data] *)
Definition updateMutator (shapeId : string) (data : ShapeData) (d : CommunityDoc)
    : CommunityDoc :=
  {| meta := meta d;
     shapes := Some (<[shapeId := data]> (default ∅ (shapes d))) |}.

(** [if (d.shapes && d.shapes[shapeId]) delete d.shapes[shapeId]] *)
Definition deleteMutator (shapeId : string) (d : CommunityDoc) : CommunityDoc :=
  match shapes d with
  | Some entries =>
    match entries !! shapeId with
    | Some _ => {| meta := meta d; shapes := Some (delete shapeId entries) |}
    | None => d
    end
  | None => d
  end.

Definition updateShape (w : World) (slug shapeId : string) (data : ShapeData) : World :=
  match communities w !! slug with
  | Some doc =>
    let newDoc := Automerge.change doc ("Update shape " +:+ shapeId)
                    (updateMutator shapeId data) in
    saveCommunity (with_communities (insert slug newDoc) w) slug
  | None => w
  end.

Definition deleteShape (w : World) (slug shapeId : string) : World :=
  match communities w !! slug with
  | Some doc =>
    let newDoc := Automerge.change doc ("Delete shape " +:+ shapeId)
                    (deleteMutator shapeId) in
    saveCommunity (with_communities (insert slug newDoc) w) slug
  | None => w
  end.

End Store.

(** ** The relay: connections and messages *)

Section Relay.
Context `{!Automerge.Lib, !Host}.

(** [ws.readyState] *)
Inductive ReadyState := CONNECTING | OPEN | CLOSING | CLOSED.

Global Instance ReadyState_eq_dec : EqDecision ReadyState.
Proof. solve_decision. Defined.

(** [interface WSData] *)
Record WSData := {
  communitySlug : string;
  peerId : string;
}.

(** A [ServerWebSocket<WSData>] as the handlers use it. *)
Record ServerWebSocket := {
  data : WSData;
  readyState : ReadyState;
}.

Record Server := {
  world : World;
  (** [const communityClients = new Map<string, Map<string, ServerWebSocket>>()] *)
  communityClients : gmap string (gmap string ServerWebSocket);
  (** every [send] made so far, oldest first: the connection and the text *)
  sent : list (WSData * string);
}.

(** [target.send(text)] *)
Definition send (target : ServerWebSocket) (text : string) (sv : Server) : Server :=
  {| world := world sv; communityClients := communityClients sv;
     sent := sent sv ++ [(data target, text)] |}.

Definition with_world (w : World) (sv : Server) : Server :=
  {| world := w; communityClients := communityClients sv; sent := sent sv |}.

(** [communityClients.get(slug)?.get(peerId)] *)
Definition getClient (sv : Server) (slug peer : string) : option ServerWebSocket :=
  match communityClients sv !! slug with
  | Some clients => clients !! peer
  | None => None
  end.

(** [msg.key] on a parsed message; [None] is [undefined]. *)
Fixpoint lookupField (key : string) (fields : list (string * Json)) : option Json :=
  match fields with
  | [] => None
  | (k, v) :: rest => if decide (k = key) then Some v else lookupField key rest
  end.

Definition prop (msg : Json) (key : string) : option Json :=
  match msg with
  | JObj fields => lookupField key fields
  | _ => None
  end.

(** Truthiness of a property. *)
Definition truthy (v : option Json) : bool :=
  match v with
  | None | Some JNull => false
  | Some (JBool b) => b
  | Some (JNum n) => negb (PrimFloat.is_zero n || PrimFloat.is_nan n)
  | Some (JStr s) => negb (bool_decide (s = ""))
  | Some (JArr _) | Some (JObj _) => true
  end.

(** [obj[key] = v]: an existing key keeps its place. *)
Fixpoint setField (key : string) (v : Json) (fields : list (string * Json))
    : list (string * Json) :=
  match fields with
  | [] => [(key, v)]
  | (k, old) :: rest =>
    if decide (k = key) then (k, v) :: rest else (k, old) :: setField key v rest
  end.

(** [{ type: "presence", peerId, ...msg }]: the properties of [msg] are
    written over the two first ones, in their order (keys that are array
    indices, which JavaScript lists first, are not treated apart). *)
Definition presenceObject (peer : string) (msg : Json) : Json :=
  JObj (foldl (λ acc kv, setField kv.1 kv.2 acc)
          [("type", JStr "presence"); ("peerId", JStr peer)]
          (match msg with JObj fields => fields | _ => [] end)).

(** [{ type: "pong", timestamp: msg.timestamp }]; [JSON.stringify] leaves
    an [undefined] property out. *)
Definition pongObject (msg : Json) : Json :=
  JObj (("type", JStr "pong") ::
        match prop msg "timestamp" with
        | Some t => [("timestamp", t)]
        | None => []
        end).

(** [{ type: "sync", data: Array.from(bytes) }] *)
Definition syncObject (payload : bytes) : Json :=
  JObj [("type", JStr "sync"); ("data", JArr (Array_from payload))].

(** The loop [for (const [clientPeerId, client] of clients)] that sends
    [text] to every open client but the sender. *)
Definition broadcastOthers (clients : gmap string ServerWebSocket) (sender text : string)
    (sv : Server) : Server :=
  foldl (λ acc entry,
           if decide (entry.1 ≠ sender ∧ readyState entry.2 = OPEN)
           then send entry.2 text acc else acc)
    sv (map_to_list clients).

(** The loop over [result.broadcastToPeers]. *)
Definition deliverSync (slug : string) (targets : gmap string bytes) (sv : Server)
    : Server :=
  foldl (λ acc entry,
           match getClient acc slug entry.1 with
           | Some targetClient =>
             if decide (readyState targetClient = OPEN)
             then send targetClient (JSON_stringify (syncObject entry.2)) acc
             else acc
           | None => acc
           end)
    sv (map_to_list targets).

(** [msg.type === t] *)
Definition typeIs (msg : Json) (t : string) : bool :=
  match prop msg "type" with
  | Some (JStr s) => bool_decide (s = t)
  | _ => false
  end.

(** [Array.isArray(v)] and the elements of [v]. *)
Definition isArray (v : option Json) : bool :=
  match v with
  | Some (JArr _) => true
  | _ => false
  end.

Definition arrayItems (v : option Json) : list Json :=
  match v with
  | Some (JArr items) => items
  | _ => []
  end.

(** [websocket.message(ws, message)].  Whatever is thrown inside
    ([JSON.parse] on bad text, [msg.type] on [null], the library on a bad
    delta) is caught and logged: the handler returns with what it had done
    so far. *)
Definition message (sv : Server) (ws : ServerWebSocket) (text : string) : Server :=
  let slug := communitySlug (data ws) in
  let peer := peerId (data ws) in
  match JSON_parse text with
  | None => sv
  | Some msg =>
    if typeIs msg "sync" && isArray (prop msg "data") then
      let syncMessage := Uint8Array_of (arrayItems (prop msg "data")) in
      match receiveSyncMessage (world sv) slug peer syncMessage with
      | (w1, Thrown) => with_world w1 sv
      | (w1, Returned result) =>
        let sv1 := with_world w1 sv in
        let sv2 :=
          match response result with
          | Some reply => send ws (JSON_stringify (syncObject reply)) sv1
          | None => sv1
          end in
        deliverSync slug (broadcastToPeers result) sv2
      end
    else if typeIs msg "ping" then
      send ws (JSON_stringify (pongObject msg)) sv
    else if typeIs msg "presence" then
      match communityClients sv !! slug with
      | Some clients =>
        broadcastOthers clients peer (JSON_stringify (presenceObject peer msg)) sv
      | None => sv
      end
    else if typeIs msg "update" && truthy (prop msg "id") && truthy (prop msg "data") then
      let w1 := updateShape (world sv) slug
                  (key_of_json (default JNull (prop msg "id")))
                  (shape_of_json (default JNull (prop msg "data"))) in
      match communityClients sv !! slug with
      | Some clients =>
        broadcastOthers clients peer (JSON_stringify msg) (with_world w1 sv)
      | None => with_world w1 sv
      end
    else if typeIs msg "delete" && truthy (prop msg "id") then
      let w1 := deleteShape (world sv) slug
                  (key_of_json (default JNull (prop msg "id"))) in
      match communityClients sv !! slug with
      | Some clients =>
        broadcastOthers clients peer (JSON_stringify msg) (with_world w1 sv)
      | None => with_world w1 sv
      end
    else sv
  end.

(** [websocket.open(ws)], up to its return: the connection is registered
    and [loadCommunity] is started.  What is chained on the load with
    [.then] is [opened]. *)
Definition open (sv : Server) (ws : ServerWebSocket) : Server :=
  let slug := communitySlug (data ws) in
  let peer := peerId (data ws) in
  let clients := default ∅ (communityClients sv !! slug) in
  {| world := world sv;
     communityClients := <[slug := <[peer := ws]> clients]> (communityClients sv);
     sent := sent sv |}.

(** The continuation [.then((doc) => ...)] of [open].  It runs when
    [loadCommunity] resolves, on the state the server is in by then: other
    handlers, the [close] of the same connection among them, may have run
    since [open] returned.  [loadCommunity] is one step, as everywhere
    here; it is the step that ends where the continuation starts.  (When
    the document is already cached the load resolves at once and the
    continuation runs before any other handler; a run may still delay
    it.) *)
Definition opened (sv : Server) (ws : ServerWebSocket) : Server :=
  let slug := communitySlug (data ws) in
  let peer := peerId (data ws) in
  match loadCommunity (world sv) slug with
  | (w1, Some _) =>
    match generateSyncMessageForPeer w1 slug peer with
    | (w2, Some syncMessage) =>
      send ws (JSON_stringify (syncObject syncMessage)) (with_world w2 sv)
    | (w2, None) => with_world w2 sv
    end
  | (w1, None) => with_world w1 sv
  end.

(** [websocket.close(ws)] *)
Definition close (sv : Server) (ws : ServerWebSocket) : Server :=
  let slug := communitySlug (data ws) in
  let peer := peerId (data ws) in
  let registry :=
    match communityClients sv !! slug with
    | Some clients =>
      if decide (size (delete peer clients) = 0)
      then delete slug (communityClients sv)
      else <[slug := delete peer clients]> (communityClients sv)
    | None => communityClients sv
    end in
  {| world := removePeerSyncState (world sv) slug peer;
     communityClients := registry; sent := sent sv |}.

(** ** The HTTP API *)

(** The body of a creation request after [req.json()]:
    [{ name?: string; slug?: string }]. *)
Record CreateBody := {
  body_name : option string;
  body_slug : option string;
}.

(** What [handleAPI] reads of a [Request] and its [URL]; [req_json] is
    [None] when [req.json()] rejects, and when it yields [null], which
    [const { name, slug } = body] cannot read: both end in the [catch]. *)
Record Request := {
  req_method : string;
  req_pathname : string;
  req_json : option CreateBody;
}.

(** A [Response]: its status, its headers and the value of its JSON body. *)
Record Response := {
  status : nat;
  headers : list (string * string);
  body : Json;
}.

Definition corsHeaders : list (string * string) :=
  [("Access-Control-Allow-Origin", "*");
   ("Access-Control-Allow-Methods", "GET, POST, OPTIONS");
   ("Access-Control-Allow-Headers", "Content-Type")].

(** [Response.json(value, { status, headers: corsHeaders })] *)
Definition Response_json (value : Json) (code : nat) : Response :=
  {| status := code; headers := corsHeaders; body := value |}.

Definition errorBody (text : string) : Json := JObj [("error", JStr text)].

(** One character of the class [[a-z0-9-]]. *)
Definition slugChar (c : ascii) : bool :=
  let n := nat_of_ascii c in
  (Nat.leb 97 n && Nat.leb n 122) || (Nat.leb 48 n && Nat.leb n 57) || Nat.eqb n 45.

Fixpoint allSlugChars (s : string) : bool :=
  match s with
  | EmptyString => true
  | String c rest => slugChar c && allSlugChars rest
  end.

(** [/^[a-z0-9-]+$/.test(slug)] *)
Definition slugPattern (slug : string) : bool :=
  negb (bool_decide (slug = "")) && allSlugChars slug.

(** [!v] on an optional string: [undefined] and the empty string. *)
Definition falsy (v : option string) : bool :=
  match v with
  | None | Some "" => true
  | Some _ => false
  end.

(** [pathname.split("/")] *)
Fixpoint splitSlash (current s : string) : list string :=
  match s with
  | EmptyString => [current]
  | String c rest =>
    if decide (c = "/"%char) then current :: splitSlash "" rest
    else splitSlash (current +:+ String c "") rest
  end.

Definition metaJson (m : CommunityMeta) : Json :=
  JObj [("name", JStr (meta_name m)); ("slug", JStr (meta_slug m));
        ("createdAt", JStr (meta_createdAt m))].

(** [{ meta: data.meta }] *)
Definition metaBody (d : CommunityDoc) : Json :=
  JObj (match meta d with
        | Some m => [("meta", metaJson m)]
        | None => []
        end).

Definition createdBody (name slug : string) : Json :=
  JObj [("url", JStr ("https://" +:+ slug +:+ ".rspace.online"));
        ("slug", JStr slug); ("name", JStr name)].

Definition handleAPI (w : World) (req : Request) : World * Response :=
  if decide (req_method req = "OPTIONS") then
    (w, {| status := 200; headers := corsHeaders; body := JNull |})
  else if decide (req_pathname req = "/api/communities" ∧ req_method req = "POST") then
    match req_json req with
    | None => (w, Response_json (errorBody "Failed to create community") 500)
    | Some fields =>
      if falsy (body_name fields) || falsy (body_slug fields) then
        (w, Response_json (errorBody "Name and slug are required") 400)
      else
        let name := default "" (body_name fields) in
        let slug := default "" (body_slug fields) in
        if negb (slugPattern slug) then
          (w, Response_json
                (errorBody "Slug must contain only lowercase letters, numbers, and hyphens")
                400)
        else if communityExists w slug then
          (w, Response_json (errorBody "Community already exists") 409)
        else
          let '(w1, _) := createCommunity w name slug in
          (w1, Response_json (createdBody name slug) 200)
    end
  else if String.prefix "/api/communities/" (req_pathname req)
          && bool_decide (req_method req = "GET") then
    let slug := default "" (splitSlash "" (req_pathname req) !! 3) in
    match getDocumentData w slug with
    | Some found => (w, Response_json (metaBody found) 200)
    | None =>
      let '(w1, _) := loadCommunity w slug in
      match getDocumentData w1 slug with
      | None => (w1, Response_json (errorBody "Community not found") 404)
      | Some loadedData => (w1, Response_json (metaBody loadedData) 200)
      end
    end
  else (w, Response_json (errorBody "Not found") 404).

End Relay.

(** ** Runs of the store *)

Section Runs.
Context `{!Automerge.Lib, !Host}.

(** One call of an exported function of the store, or time passing. *)
Inductive step : World -> World -> Prop :=
| step_loadCommunity w slug : step w (loadCommunity w slug).1
| step_saveCommunity w slug : step w (saveCommunity w slug)
| step_createCommunity w name slug : step w (createCommunity w name slug).1
| step_getPeerSyncState w slug peer : step w (getPeerSyncState w slug peer).1
| step_removePeerSyncState w slug peer : step w (removePeerSyncState w slug peer)
| step_receiveSyncMessage w slug peer delta :
    step w (receiveSyncMessage w slug peer delta).1
| step_generateSyncMessageForPeer w slug peer :
    step w (generateSyncMessageForPeer w slug peer).1
| step_updateShape w slug shapeId shape : step w (updateShape w slug shapeId shape)
| step_deleteShape w slug shapeId : step w (deleteShape w slug shapeId)
| step_advance w dt : step w (advance dt w).

(** The states the store can be in. *)
Inductive reachable : World -> Prop :=
| reachable_initial files now : reachable (initial files now)
| reachable_step w w' : reachable w -> step w w' -> reachable w'.

(** The pending timers of one document. *)
Definition timersOf (slug : string) (w : World) : list Timer :=
  filter (λ p, timer_slug p = slug) (pendingTimers w).

(** The writes made to the canonical record of one document. *)
Definition writesTo (slug : string) (w : World) : list (string * bytes) :=
  filter (λ entry, entry.1 = binaryPath slug) (writeLog w).

(** Every pending timer is the one [saveTimers] holds for its document, and
    handles are not reused. *)
Definition timers_tracked (w : World) : Prop :=
  (∀ p, p ∈ pendingTimers w ->
        saveTimers w !! timer_slug p = Some (timer_id p)
        ∧ timer_id p < nextTimerId w)
  ∧ NoDup (timer_id <$> pendingTimers w).

(** The sync state the table holds for a peer of a document, if any. *)
Definition peerEntry (w : World) (slug peer : string) : option PeerState :=
  peerSyncStates w !! slug ≫= (λ communityPeers, communityPeers !! peer).

(** The cursor [getPeerSyncState] hands out for a peer: the one the table
    holds, or a fresh one. *)
Definition cursorOf (w : World) (slug peer : string) : Automerge.SyncState :=
  match peerEntry w slug peer with
  | Some ps => syncState ps
  | None => Automerge.initSyncState
  end.

(** No per-document collection of the peer table is empty. *)
Definition peers_nonempty (w : World) : Prop :=
  ∀ slug peers, peerSyncStates w !! slug = Some peers -> peers ≠ ∅.

(** A save of [slug] is scheduled: [saveTimers] holds [handle] for it and
    the timer with that handle is pending, due at [due]. *)
Definition armedAt (slug : string) (handle : nat) (due : N) (w : World) : Prop :=
  saveTimers w !! slug = Some handle
  ∧ {| timer_id := handle; timer_slug := slug; timer_due := due |} ∈ pendingTimers w.

(** What every reachable state satisfies. *)
Definition store_inv (w : World) : Prop := timers_tracked w ∧ peers_nonempty w.








End Runs.

(** ** A small implementation of the two interfaces

    Used to run the model on concrete inputs.  A document is its current
    value with the number of changes made to it; a cursor is the number of
    changes the peer is known to have; a delta of [n] bytes brings a
    document to [n] changes. *)

Module Sample.

Definition emptyDoc : CommunityDoc := {| meta := None; shapes := None |}.

Definition lib : Automerge.Lib := {|
  Automerge.Doc := CommunityDoc * nat;
  Automerge.SyncState := nat;
  Automerge.Patch := unit;
  Automerge.init := (emptyDoc, 0);
  Automerge.change := λ d _ f, (f d.1, S d.2);
  Automerge.load := λ buffer,
    match buffer with
    | [] => None
    | _ => Some (emptyDoc, length buffer)
    end;
  Automerge.save := λ d, replicate (S d.2) Byte.x01;
  Automerge.initSyncState := 0;
  Automerge.receiveSyncMessage := λ d cursor delta,
    match delta with
    | [] => None
    | _ =>
      if Nat.ltb d.2 (length delta)
      then Some ((d.1, length delta), length delta, Some [tt])
      else Some (d, Nat.max cursor (length delta), Some [])
    end;
  Automerge.generateSyncMessage := λ d cursor,
    if Nat.ltb cursor d.2 then (d.2, Some (replicate d.2 Byte.x01)) else (cursor, None);
  Automerge.toJS := λ d, d.1;
|}.

Definition gardenMeta : CommunityMeta :=
  {| meta_name := "Garden"; meta_slug := "garden";
     meta_createdAt := "2024-01-01T00:00:00.000Z" |}.

Definition rectangle : ShapeData :=
  {| shape_type := "rectangle"; shape_id := "s1"; shape_x := 0%float;
     shape_y := 0%float; shape_width := 10%float; shape_height := 10%float;
     shape_rotation := 0%float;
     shape_content := None; shape_sourceId := None; shape_targetId := None |}.

Definition pingMessage : Json :=
  JObj [("type", JStr "ping"); ("timestamp", JNum 42%float)].

Definition presenceMessage : Json :=
  JObj [("type", JStr "presence"); ("cursor", JNum 7%float)].

Definition host : Host := {|
  STORAGE_DIR := "./data/communities";
  file_json := λ text,
    match text with
    | [] => None
    | _ => Some {| legacy_meta := gardenMeta; legacy_shapes := None |}
    end;
  toISOString := λ _, "2024-01-01T00:00:00.000Z";
  JSON_parse := λ text,
    if decide (text = "ping") then Some pingMessage
    else if decide (text = "presence") then Some presenceMessage
    else None;
  JSON_stringify := λ value,
    match value with
    | JObj ((_, JStr tag) :: _) => tag
    | _ => ""
    end;
  Uint8Array_of := λ items, replicate (length items) Byte.x01;
  Array_from := λ payload, (λ _, JNum 1%float) <$> payload;
  key_of_json := λ v, match v with JStr s => s | _ => "" end;
  shape_of_json := λ _, rectangle;
|}.

#[local] Existing Instance lib.
#[local] Existing Instance host.

(** Nothing cached, nothing on disk. *)
Definition emptyWorld : World := initial ∅ 0.

(** "garden" has just been created at time 1000. *)
Definition gardenWorld : World :=
  (createCommunity (initial ∅ 1000) "Garden" "garden").1.

Definition gardenDoc : Automerge.Doc :=
  (createMutator "Garden" "garden" "2024-01-01T00:00:00.000Z" emptyDoc, 1).

(** "garden" with one tracked peer. *)
Definition peersWorld : World :=
  (getPeerSyncState gardenWorld "garden" "peer-a").1.

(** Only a legacy record of "garden" on disk. *)
Definition legacyWorld : World :=
  initial {[ "./data/communities/garden.json" := [Byte.x01] ]} 0.

Definition importedDoc : Automerge.Doc :=
  jsonToAutomerge {| legacy_meta := gardenMeta; legacy_shapes := None |}.

Definition createRequest (name slug : string) : Request :=
  {| req_method := "POST"; req_pathname := "/api/communities";
     req_json := Some {| body_name := Some name; body_slug := Some slug |} |}.

Definition peerA : ServerWebSocket :=
  {| data := {| communitySlug := "garden"; peerId := "peer-a" |}; readyState := OPEN |}.

Definition peerB : ServerWebSocket :=
  {| data := {| communitySlug := "garden"; peerId := "peer-b" |}; readyState := OPEN |}.

Definition peerC : ServerWebSocket :=
  {| data := {| communitySlug := "garden"; peerId := "peer-c" |};
     readyState := CLOSING |}.

(** "garden" with three registered connections, one of them closing. *)
Definition gardenServer : Server :=
  {| world := gardenWorld;
     communityClients :=
       {[ "garden" := {[ "peer-a" := peerA; "peer-b" := peerB; "peer-c" := peerC ]} ]};
     sent := [] |}.

End Sample.

(** ** Further definitions *)

Section MoreDefs.
Context `{!Automerge.Lib, !Host}.

(** The last character of a string. *)
Fixpoint lastChar (s : string) : option ascii :=
  match s with
  | EmptyString => None
  | String c EmptyString => Some c
  | String _ rest => lastChar rest
  end.

(** Every pending timer is due after now and at most [SAVE_DELAY] from now,
    and is the timer of a cached document. *)
Definition timers_window (w : World) : Prop :=
  ∀ p, p ∈ pendingTimers w ->
       (clock w < timer_due p)%N ∧ (timer_due p <= clock w + SAVE_DELAY)%N
       ∧ is_Some (communities w !! timer_slug p).

(** The handles [saveTimers] holds were all handed out, each to one
    document. *)
Definition handles_distinct (w : World) : Prop :=
  (∀ s i, saveTimers w !! s = Some i -> i < nextTimerId w)
  ∧ (∀ s1 s2 i, saveTimers w !! s1 = Some i -> saveTimers w !! s2 = Some i -> s1 = s2).

(** One call of an exported function of the store: a [step] that is not
    the passing of time. *)
Inductive call : World -> World -> Prop :=
| call_loadCommunity w slug : call w (loadCommunity w slug).1
| call_saveCommunity w slug : call w (saveCommunity w slug)
| call_createCommunity w name slug : call w (createCommunity w name slug).1
| call_getPeerSyncState w slug peer : call w (getPeerSyncState w slug peer).1
| call_removePeerSyncState w slug peer : call w (removePeerSyncState w slug peer)
| call_receiveSyncMessage w slug peer delta :
    call w (receiveSyncMessage w slug peer delta).1
| call_generateSyncMessageForPeer w slug peer :
    call w (generateSyncMessageForPeer w slug peer).1
| call_updateShape w slug shapeId shape : call w (updateShape w slug shapeId shape)
| call_deleteShape w slug shapeId : call w (deleteShape w slug shapeId).

(** ** Strings *)

(** [s.endsWith(suffix)]: [s] or one of its tails is [suffix]. *)
Fixpoint endsWith (s suffix : string) : bool :=
  bool_decide (s = suffix)
  || match s with
     | EmptyString => false
     | String _ rest => endsWith rest suffix
     end.

(** [s] without its first [n] characters. *)
Fixpoint dropChars (n : nat) (s : string) : string :=
  match n, s with
  | S m, String _ rest => dropChars m rest
  | _, _ => s
  end.

(** [s.replace(pattern, replacement)] for a string pattern: the first
    occurrence is replaced.  (No [$] pattern is interpreted in the
    replacement; the source replaces by the empty string.) *)
Fixpoint replaceFirst (pattern replacement s : string) : string :=
  if String.prefix pattern s
  then replacement +:+ dropChars (String.length pattern) s
  else match s with
       | EmptyString => EmptyString
       | String c rest => String c (replaceFirst pattern replacement rest)
       end.

(** How many times a character occurs. *)
Fixpoint countChar (c : ascii) (s : string) : nat :=
  match s with
  | EmptyString => 0
  | String x rest => (if decide (x = c) then 1 else 0) + countChar c rest
  end.

(** An extension: a dot, then no dot. *)
Definition isExtension (ext : string) : Prop :=
  ∃ rest, ext = String "." rest ∧ countChar "." rest = 0.

(** ** Listing the documents on disk *)

(** [slugs.add(x)], the [Set] being kept in insertion order. *)
Definition setAdd (x : string) (slugs : list string) : list string :=
  if decide (x ∈ slugs) then slugs else slugs ++ [x].

(** The slug a file name stands for, if it is a record. *)
Definition slugOfFile (f : string) : option string :=
  if endsWith f ".automerge" then Some (replaceFirst ".automerge" "" f)
  else if endsWith f ".json" then Some (replaceFirst ".json" "" f)
  else None.

(** [listCommunities()], from what [readdir(STORAGE_DIR)] answers: the
    names in the directory, or [None] when it throws. *)
Definition listCommunities (files : option (list string)) : list string :=
  match files with
  | Some names =>
    foldl (λ slugs f,
             match slugOfFile f with
             | Some slug => setAdd slug slugs
             | None => slugs
             end) [] names
  | None => []
  end.

(** ** Host names *)

(** [s.split(sep)] for a separator of one character; [current] is the part
    being read. *)
Fixpoint splitOn (sep : ascii) (current s : string) : list string :=
  match s with
  | EmptyString => [current]
  | String c rest =>
    if decide (c = sep) then current :: splitOn sep "" rest
    else splitOn sep (current +:+ String c "") rest
  end.

(** [parts.join(sep)] *)
Fixpoint join (sep : string) (parts : list string) : string :=
  match parts with
  | [] => ""
  | [part] => part
  | part :: rest => part +:+ sep +:+ join sep rest
  end.

(** [s.includes(sub)]: [sub] starts [s] or one of its tails. *)
Fixpoint includes (sub s : string) : bool :=
  String.prefix sub s
  || match s with
     | EmptyString => false
     | String _ rest => includes sub rest
     end.

(** [getSubdomain(host)]; [None] is [null]. *)
Definition getSubdomain (host : option string) : option string :=
  match host with
  | None => None
  | Some h =>
    if bool_decide (h = "") then None
    else if includes "localhost" h || includes "127.0.0.1" h then None
    else
      let parts := splitOn "." "" h in
      if Nat.leb 3 (length parts)
         && bool_decide (join "." (drop (length parts - 2) parts) = "rspace.online")
      then
        let subdomain := default "" (head parts) in
        if negb (bool_decide (subdomain = "www"))
           && negb (bool_decide (subdomain = "rspace"))
        then Some subdomain
        else None
      else None
  end.

(** ** Events of the server *)

(** Every connection of the registry is filed under the community and the
    peer id it carries, and no community of the registry is without
    connection. *)
Definition registry_ok (sv : Server) : Prop :=
  ∀ slug clients, communityClients sv !! slug = Some clients ->
    clients ≠ ∅
    ∧ ∀ peer client, clients !! peer = Some client ->
        data client = {| communitySlug := slug; peerId := peer |}.

(** The server when the module has just been evaluated. *)
Definition started (files : gmap string bytes) (now : N) : Server :=
  {| world := initial files now; communityClients := ∅; sent := [] |}.

(** A server in a run: its state, and the connections whose [open] has
    returned and whose continuation has not run yet, oldest first. *)
Definition Run : Type := Server * list ServerWebSocket.

(** What happens to a server: a connection opens; the continuation of an
    [open] runs; a registered connection sends a text; a connection
    closes; a request of the API is answered; a page is asked for under
    the host name of a community, which [fetch] then loads; time passes. *)
Inductive Event :=
| Opens (ws : ServerWebSocket)
| Loads (ws : ServerWebSocket)
| Says (ws : ServerWebSocket) (text : string)
| Closes (ws : ServerWebSocket)
| Asks (req : Request)
| Visits (host : option string) (subdomain : string)
| Waits (dt : N).

Inductive occurs : Event -> Run -> Run -> Prop :=
| occurs_open sv pending ws :
    occurs (Opens ws) (sv, pending) (open sv ws, pending ++ [ws])
| occurs_opened sv before after ws :
    occurs (Loads ws) (sv, before ++ ws :: after) (opened sv ws, before ++ after)
| occurs_message sv pending ws text :
    is_Some (getClient sv (communitySlug (data ws)) (peerId (data ws))) ->
    occurs (Says ws text) (sv, pending) (message sv ws text, pending)
| occurs_close sv pending ws :
    occurs (Closes ws) (sv, pending) (close sv ws, pending)
| occurs_api sv pending req :
    occurs (Asks req) (sv, pending) (with_world (handleAPI (world sv) req).1 sv, pending)
| occurs_page sv pending host subdomain :
    getSubdomain host = Some subdomain -> subdomain ≠ "" ->
    occurs (Visits host subdomain) (sv, pending)
      (with_world (loadCommunity (world sv) subdomain).1 sv, pending)
| occurs_time sv pending dt :
    occurs (Waits dt) (sv, pending) (with_world (advance dt (world sv)) sv, pending).

(** The states the server can be in. *)
Inductive serving : Run -> Prop :=
| serving_started files now : serving (started files now, [])
| serving_event e r r' : serving r -> occurs e r r' -> serving r'.

(** The event does not close a connection while a continuation is pending
    for its community and peer id. *)
Definition inTime (e : Event) (r : Run) : Prop :=
  match e with
  | Closes ws => ∀ other, other ∈ r.2 -> data other ≠ data ws
  | _ => True
  end.

(** The states of the runs in which every [close] comes in time. *)
Inductive patient : Run -> Prop :=
| patient_started files now : patient (started files now, [])
| patient_event e r r' : patient r -> occurs e r r' -> inTime e r -> patient r'.

(** What [deliverSync] sends for one entry of [broadcastToPeers]. *)
Definition syncDelivery (sv : Server) (slug : string) (entry : string * bytes)
    : option (WSData * string) :=
  match getClient sv slug entry.1 with
  | Some targetClient =>
    if decide (readyState targetClient = OPEN)
    then Some (data targetClient, JSON_stringify (syncObject entry.2))
    else None
  | None => None
  end.

(** What [broadcastOthers] sends for one entry of the registry. *)
Definition broadcastDelivery (sender text : string) (entry : string * ServerWebSocket)
    : option (WSData * string) :=
  if decide (entry.1 ≠ sender ∧ readyState entry.2 = OPEN)
  then Some (data entry.2, text) else None.

(** Texts relayed on behalf of [ws]: each goes to an open connection
    registered in the community of [ws] under another peer id, and no
    connection gets two. *)
Definition relayed (sv : Server) (ws : ServerWebSocket)
    (others : list (WSData * string)) : Prop :=
  NoDup others.*1
  ∧ ∀ target payload, (target, payload) ∈ others ->
      communitySlug target = communitySlug (data ws)
      ∧ peerId target ≠ peerId (data ws)
      ∧ ∃ client, getClient sv (communitySlug target) (peerId target) = Some client
                  ∧ readyState client = OPEN ∧ data client = target.

End MoreDefs.

(** ** A second implementation of the merge library *)

Module Replay.

(** A second implementation of the merge library, one whose [load] reads
    back what [save] wrote: a document is the number of changes made. *)
Definition lib : Automerge.Lib := {|
  Automerge.Doc := nat;
  Automerge.SyncState := nat;
  Automerge.Patch := unit;
  Automerge.init := 0;
  Automerge.change := λ d _ _, S d;
  Automerge.load := λ buffer,
    match buffer with
    | [] => None
    | _ :: rest => Some (length rest)
    end;
  Automerge.save := λ d, replicate (S d) Byte.x01;
  Automerge.initSyncState := 0;
  Automerge.receiveSyncMessage := λ d cursor delta,
    match delta with
    | [] => None
    | _ =>
      if Nat.ltb d (length delta)
      then Some (length delta, length delta, Some [tt])
      else Some (d, Nat.max cursor (length delta), Some [])
    end;
  Automerge.generateSyncMessage := λ d cursor,
    if Nat.ltb cursor d then (d, Some (replicate d Byte.x01)) else (cursor, None);
  Automerge.toJS := λ _, Sample.emptyDoc;
|}.

(** The document after one change. *)
Definition changedOnce : @Automerge.Doc lib := 1%nat.

#[local] Existing Instance lib.
#[local] Existing Instance Sample.host.

(** "garden" has just been created at time 1000. *)
Definition created : World :=
  (createCommunity (initial ∅ 1000) "Garden" "garden").1.

End Replay.

(** ** A host that reads sync and legacy messages *)

Module Wire.

Definition syncMessage : Json :=
  JObj [("type", JStr "sync"); ("data", JArr [JNum 1%float; JNum 1%float])].

Definition updateMessage : Json :=
  JObj [("type", JStr "update"); ("id", JStr "s1"); ("data", JObj [])].

Definition deleteMessage : Json :=
  JObj [("type", JStr "delete"); ("id", JStr "s1")].

(** [Sample.host] with a [JSON.parse] that knows three more texts. *)
Definition host : Host := {|
  STORAGE_DIR := "./data/communities";
  file_json := @file_json Sample.host;
  toISOString := @toISOString Sample.host;
  JSON_parse := λ text,
    if decide (text = "sync") then Some syncMessage
    else if decide (text = "update") then Some updateMessage
    else if decide (text = "delete") then Some deleteMessage
    else @JSON_parse Sample.host text;
  JSON_stringify := @JSON_stringify Sample.host;
  Uint8Array_of := @Uint8Array_of Sample.host;
  Array_from := @Array_from Sample.host;
  key_of_json := @key_of_json Sample.host;
  shape_of_json := @shape_of_json Sample.host;
|}.

#[local] Existing Instance Sample.lib.
#[local] Existing Instance host.

(** "garden" is created through the API, then two peers connect, each
    continuation running before the next event. *)
Definition created : Server :=
  with_world (handleAPI (world (started ∅ 1000))
                (Sample.createRequest "Garden" "garden")).1
    (started ∅ 1000).

Definition served : Server :=
  opened (open (opened (open created Sample.peerA) Sample.peerA) Sample.peerB)
    Sample.peerB.

(** A third peer connects to "garden" and closes before the continuation
    of its [open] has run. *)
Definition hasty : Server :=
  opened (close (open served Sample.peerC) Sample.peerC) Sample.peerC.

End Wire.

(** * Properties of the store *)

Section StoreFacts.
Context `{!Automerge.Lib, !Host}.

(** ** What [saveCommunity] changes *)

Lemma saveCommunity_absent (w : World) (slug : string) :
  communities w !! slug = None -> saveCommunity w slug = w.
Proof. intros Habsent. unfold saveCommunity. by rewrite Habsent. Qed.

Lemma saveCommunity_frame (w : World) (slug : string) :
  communities (saveCommunity w slug) = communities w
  ∧ peerSyncStates (saveCommunity w slug) = peerSyncStates w
  ∧ disk (saveCommunity w slug) = disk w
  ∧ writeLog (saveCommunity w slug) = writeLog w
  ∧ clock (saveCommunity w slug) = clock w.
Proof.
  unfold saveCommunity.
  destruct (communities w !! slug); [| done].
  by destruct (saveTimers w !! slug).
Qed.

Lemma saveCommunity_armed (w : World) (slug : string) :
  is_Some (communities w !! slug) ->
  armedAt slug (nextTimerId w) (clock w + SAVE_DELAY) (saveCommunity w slug).
Proof.
  intros [doc Hdoc]. unfold saveCommunity, armedAt. rewrite Hdoc.
  destruct (saveTimers w !! slug); simpl.
  all: split; [apply lookup_insert_eq | set_solver].
Qed.

(** ** What a firing timer and the passing of time change *)

Lemma saveCallback_frame (slug : string) (w : World) :
  communities (saveCallback slug w) = communities w
  ∧ peerSyncStates (saveCallback slug w) = peerSyncStates w
  ∧ saveTimers (saveCallback slug w) = saveTimers w
  ∧ pendingTimers (saveCallback slug w) = pendingTimers w
  ∧ nextTimerId (saveCallback slug w) = nextTimerId w
  ∧ clock (saveCallback slug w) = clock w.
Proof. unfold saveCallback. by destruct (communities w !! slug). Qed.

Lemma fire_frame (due : list Timer) (w : World) :
  let w' := foldl (λ acc p, saveCallback (timer_slug p) acc) w due in
  communities w' = communities w
  ∧ peerSyncStates w' = peerSyncStates w
  ∧ saveTimers w' = saveTimers w
  ∧ pendingTimers w' = pendingTimers w
  ∧ nextTimerId w' = nextTimerId w
  ∧ clock w' = clock w.
Proof.
  revert w. induction due as [| p due IH]; intros w; simpl; [done |].
  destruct (IH (saveCallback (timer_slug p) w)) as (-> & -> & -> & -> & -> & ->).
  apply saveCallback_frame.
Qed.

Lemma advance_frame (dt : N) (w : World) :
  communities (advance dt w) = communities w
  ∧ peerSyncStates (advance dt w) = peerSyncStates w
  ∧ saveTimers (advance dt w) = saveTimers w
  ∧ pendingTimers (advance dt w)
      = filter (λ p, ¬ (timer_due p <= clock w + dt)%N) (pendingTimers w)
  ∧ nextTimerId (advance dt w) = nextTimerId w
  ∧ clock (advance dt w) = (clock w + dt)%N.
Proof.
  unfold advance.
  match goal with
  | |- context [foldl ?f ?w0 ?l] => exact (fire_frame l w0)
  end.
Qed.

(** ** The peer table *)

Lemma with_peerSyncStates_same (w : World) (table : gmap string (gmap string PeerState)) :
  table = peerSyncStates w -> with_peerSyncStates (λ _, table) w = w.
Proof. intros ->. by destruct w. Qed.

Lemma peers_nonempty_same (w w' : World) :
  peerSyncStates w' = peerSyncStates w -> peers_nonempty w -> peers_nonempty w'.
Proof. unfold peers_nonempty. by intros ->. Qed.

Lemma getPeerSyncState_table (w : World) (slug peer : string) :
  ∃ communityPeers,
    peerSyncStates (getPeerSyncState w slug peer).1
      = <[slug := <[peer := (getPeerSyncState w slug peer).2]> communityPeers]>
          (peerSyncStates w)
    ∧ communityPeers = default ∅ (peerSyncStates w !! slug).
Proof.
  unfold getPeerSyncState. cbn [fst snd with_peerSyncStates peerSyncStates].
  destruct (decide (is_Some (peerSyncStates w !! slug))) as [[found Hslug] | Hslug].
  - rewrite Hslug. unfold default; cbn [from_option id].
    exists found. split; [| done].
    destruct (decide (is_Some (found !! peer))) as [[ps Hpeer] | Hpeer]; [done |].
    by rewrite lookup_insert_eq, insert_insert_eq.
  - apply eq_None_not_Some in Hslug. rewrite Hslug, lookup_insert_eq.
    unfold default; cbn [from_option id]. rewrite lookup_empty.
    destruct (decide (is_Some (@None PeerState))) as [[? ?] |]; [done |].
    exists ∅. split; [| done].
    by rewrite lookup_insert_eq, !insert_insert_eq.
Qed.

Lemma getPeerSyncState_returns (w : World) (slug peer : string) :
  (getPeerSyncState w slug peer).2
    = {| syncState := match peerEntry w slug peer with
                      | Some ps => syncState ps
                      | None => Automerge.initSyncState
                      end;
         lastActivity := clock w |}.
Proof.
  unfold getPeerSyncState, peerEntry. cbn [fst snd].
  destruct (decide (is_Some (peerSyncStates w !! slug))) as [[found Hslug] | Hslug].
  - rewrite Hslug. unfold default; cbn [from_option id mbind option_bind].
    destruct (decide (is_Some (found !! peer))) as [[ps Hpeer] | Hpeer].
    + by rewrite Hpeer.
    + apply eq_None_not_Some in Hpeer. by rewrite lookup_insert_eq, Hpeer.
  - apply eq_None_not_Some in Hslug. rewrite Hslug, lookup_insert_eq.
    unfold default; cbn [from_option id mbind option_bind]. rewrite lookup_empty.
    destruct (decide (is_Some (@None PeerState))) as [[? ?] |]; [done |].
    by rewrite lookup_insert_eq.
Qed.

Lemma getPeerSyncState_frame (w : World) (slug peer : string) :
  communities (getPeerSyncState w slug peer).1 = communities w
  ∧ saveTimers (getPeerSyncState w slug peer).1 = saveTimers w
  ∧ pendingTimers (getPeerSyncState w slug peer).1 = pendingTimers w
  ∧ nextTimerId (getPeerSyncState w slug peer).1 = nextTimerId w
  ∧ disk (getPeerSyncState w slug peer).1 = disk w
  ∧ writeLog (getPeerSyncState w slug peer).1 = writeLog w
  ∧ clock (getPeerSyncState w slug peer).1 = clock w.
Proof. done. Qed.

Lemma peerEntry_removePeerSyncState (w : World) (slug peer s p : string) :
  peerEntry (removePeerSyncState w slug peer) s p
    = if decide (s = slug ∧ p = peer) then None else peerEntry w s p.
Proof.
  unfold removePeerSyncState, peerEntry.
  destruct (peerSyncStates w !! slug) as [found |] eqn:Hslug.
  - destruct (decide (size (delete peer found) = 0)) as [Hsize | Hsize]; simpl.
    + apply map_size_empty_iff in Hsize.
      destruct (decide (s = slug)) as [-> | Hs].
      * rewrite lookup_delete_eq, Hslug; simpl.
        destruct (decide (p = peer)) as [-> | Hp].
        -- by rewrite decide_True.
        -- rewrite decide_False by (intros [? ?]; done).
           by rewrite <- (lookup_delete_ne found peer p), Hsize, lookup_empty.
      * rewrite lookup_delete_ne by done. rewrite decide_False by (intros [? ?]; done). done.
    + destruct (decide (s = slug)) as [-> | Hs].
      * rewrite lookup_insert_eq, Hslug; simpl.
        destruct (decide (p = peer)) as [-> | Hp].
        -- rewrite decide_True by done. apply lookup_delete_eq.
        -- rewrite decide_False by (intros [? ?]; done). by apply lookup_delete_ne.
      * rewrite lookup_insert_ne by done. rewrite decide_False by (intros [? ?]; done). done.
  - case_decide as Hsp; [| done].
    destruct Hsp as [-> ->]. by rewrite Hslug.
Qed.

Lemma removePeerSyncState_nonempty (w : World) (slug peer : string) :
  (∀ peers, peerSyncStates (removePeerSyncState w slug peer) !! slug = Some peers ->
            peers ≠ ∅)
  ∧ (peers_nonempty w -> peers_nonempty (removePeerSyncState w slug peer)).
Proof.
  unfold removePeerSyncState, peers_nonempty.
  destruct (peerSyncStates w !! slug) as [found |] eqn:Hslug.
  - destruct (decide (size (delete peer found) = 0)) as [Hsize | Hsize]; simpl.
    + split.
      * intros peers. by rewrite lookup_delete_eq.
      * intros Hw s peers [_ Hs]%lookup_delete_Some. by eapply Hw.
    + rewrite map_size_empty_iff in Hsize. split.
      * intros peers. rewrite lookup_insert_eq. by intros [= <-].
      * intros Hw s peers [[_ <-] | [_ Hs]]%lookup_insert_Some; [done |].
        by eapply Hw.
  - split; [| done]. intros peers. by rewrite Hslug.
Qed.

Lemma setSyncState_nonempty (slug peer : string) (s : Automerge.SyncState) (w : World) :
  peers_nonempty w -> peers_nonempty (setSyncState slug peer s w).
Proof.
  unfold peers_nonempty, setSyncState; simpl.
  intros Hw s' peers Hlook.
  apply lookup_alter_Some in Hlook as [(_ & found & Hfound & ->) | [_ Hfound]].
  - intros Hempty. apply (Hw _ _ Hfound).
    apply map_empty. intros i.
    apply (f_equal (λ m, m !! i)) in Hempty.
    rewrite lookup_empty in Hempty.
    by apply lookup_alter_None in Hempty.
  - by eapply Hw.
Qed.

Lemma getPeerSyncState_nonempty (w : World) (slug peer : string) :
  peers_nonempty w -> peers_nonempty (getPeerSyncState w slug peer).1.
Proof.
  destruct (getPeerSyncState_table w slug peer) as (cp & Htable & _).
  unfold peers_nonempty. rewrite Htable.
  intros Hw s peers [[_ <-] | [_ Hs]]%lookup_insert_Some.
  - apply insert_non_empty.
  - by eapply Hw.
Qed.
(** ** Invariants of the reachable states *)

Lemma NoDup_fmap_filter {A B} (f : A -> B) (P : A -> Prop) `{!∀ x, Decision (P x)}
    (l : list A) :
  NoDup (f <$> l) -> NoDup (f <$> filter P l).
Proof.
  induction l as [| x l IH]; [done |].
  rewrite fmap_cons, NoDup_cons. intros [Hx Hl].
  rewrite filter_cons. case_decide; [| by apply IH].
  rewrite fmap_cons, NoDup_cons. split; [| by apply IH].
  intros (y & Hy & Hin)%list_elem_of_fmap.
  apply list_elem_of_filter in Hin as [_ Hin].
  apply Hx, list_elem_of_fmap. eauto.
Qed.

Lemma saveCommunity_timers (w : World) (slug : string) :
  is_Some (communities w !! slug) ->
  pendingTimers (saveCommunity w slug)
    = match saveTimers w !! slug with
      | Some existingTimer => filter (λ p, timer_id p ≠ existingTimer) (pendingTimers w)
      | None => pendingTimers w
      end ++ [{| timer_id := nextTimerId w; timer_slug := slug;
                 timer_due := (clock w + SAVE_DELAY)%N |}]
  ∧ saveTimers (saveCommunity w slug) = <[slug := nextTimerId w]> (saveTimers w)
  ∧ nextTimerId (saveCommunity w slug) = S (nextTimerId w).
Proof.
  intros [doc Hdoc]. unfold saveCommunity. rewrite Hdoc.
  by destruct (saveTimers w !! slug).
Qed.

Lemma saveCommunity_tracked (w : World) (slug : string) :
  timers_tracked w -> timers_tracked (saveCommunity w slug).
Proof.
  intros [Hheld Hdup].
  destruct (communities w !! slug) as [doc |] eqn:Hdoc;
    [| by rewrite saveCommunity_absent].
  destruct (saveCommunity_timers w slug) as (Hp & Hs & Hn); [by eexists |].
  unfold timers_tracked. rewrite Hp, Hs, Hn. clear Hp Hs Hn.
  set (kept := match saveTimers w !! slug with
               | Some existingTimer =>
                 filter (λ p, timer_id p ≠ existingTimer) (pendingTimers w)
               | None => pendingTimers w
               end).
  assert (∀ p, p ∈ kept -> p ∈ pendingTimers w ∧ timer_slug p ≠ slug) as Hkept.
  { intros p Hin. subst kept.
    destruct (saveTimers w !! slug) as [old |] eqn:Hold.
    - apply list_elem_of_filter in Hin as [Hid Hin]. split; [done |].
      intros Hslug. destruct (Hheld p Hin) as [Hp _].
      rewrite Hslug, Hold in Hp. by injection Hp as ->.
    - split; [done |]. intros Hslug. destruct (Hheld p Hin) as [Hp _].
      by rewrite Hslug, Hold in Hp. }
  assert (NoDup (timer_id <$> kept)) as Hdup1.
  { subst kept. destruct (saveTimers w !! slug); [by apply NoDup_fmap_filter | done]. }
  split.
  - intros p [Hin | ->%list_elem_of_singleton]%elem_of_app; simpl.
    + destruct (Hkept p Hin) as [Hold Hother].
      destruct (Hheld p Hold) as [Hp Hlt].
      rewrite lookup_insert_ne by done. split; [done | lia].
    + rewrite lookup_insert_eq. split; [done | lia].
  - rewrite fmap_app. apply NoDup_app. split; [done |]. split; [| apply NoDup_singleton].
    intros i (p & -> & Hin)%list_elem_of_fmap. simpl.
    intros Heq%list_elem_of_singleton.
    destruct (Hkept p Hin) as [Hold _]. destruct (Hheld p Hold) as [_ Hlt]. lia.
Qed.


Lemma advance_tracked (dt : N) (w : World) :
  timers_tracked w -> timers_tracked (advance dt w).
Proof.
  destruct (advance_frame dt w) as (_ & _ & Hs & Hp & Hn & _).
  unfold timers_tracked. rewrite Hs, Hp, Hn. intros [Hheld Hdup]. split.
  - intros p [_ Hin]%list_elem_of_filter. by apply Hheld.
  - by apply NoDup_fmap_filter.
Qed.



Lemma inv_with_communities f (w : World) :
  store_inv w -> store_inv (with_communities f w).
Proof. done. Qed.

Lemma inv_setSyncState (slug peer : string) (s : Automerge.SyncState) (w : World) :
  store_inv w -> store_inv (setSyncState slug peer s w).
Proof. intros [Ht Hp]. split; [done | by apply setSyncState_nonempty]. Qed.

Lemma inv_saveCommunity (w : World) (slug : string) :
  store_inv w -> store_inv (saveCommunity w slug).
Proof.
  intros [Ht Hp]. split; [by apply saveCommunity_tracked |].
  destruct (saveCommunity_frame w slug) as (_ & Hpeers & _).
  by apply (peers_nonempty_same w).
Qed.

Lemma inv_getPeerSyncState (w : World) (slug peer : string) :
  store_inv w -> store_inv (getPeerSyncState w slug peer).1.
Proof. intros [Ht Hp]. split; [done | by apply getPeerSyncState_nonempty]. Qed.

Lemma inv_removePeerSyncState (w : World) (slug peer : string) :
  store_inv w -> store_inv (removePeerSyncState w slug peer).
Proof.
  intros [Ht Hp]. split; [| by apply removePeerSyncState_nonempty].
  unfold removePeerSyncState. destruct (peerSyncStates w !! slug); [| done].
  by case_decide.
Qed.

Lemma inv_advance (dt : N) (w : World) :
  store_inv w -> store_inv (advance dt w).
Proof.
  intros [Ht Hp]. split; [by apply advance_tracked |].
  destruct (advance_frame dt w) as (_ & Hpeers & _).
  by apply (peers_nonempty_same w).
Qed.

Lemma inv_catchUp (w : World) (slug peer : string) (newDoc : Automerge.Doc)
    (communityPeers : gmap string PeerState) :
  store_inv w -> peerSyncStates w !! slug = Some communityPeers ->
  store_inv (with_peerSyncStates
               (insert slug (map_imap (catchUpState newDoc peer) communityPeers)) w).
Proof.
  intros [Ht Hp] Hslug. split; [done |].
  intros s peers. cbn [with_peerSyncStates peerSyncStates].
  intros [[_ <-] | [_ Hs]]%lookup_insert_Some; [| by eapply Hp].
  destruct (map_choose communityPeers (Hp _ _ Hslug)) as (i & ps & Hi).
  intros Hempty. apply (f_equal (λ m, m !! i)) in Hempty.
  by rewrite map_lookup_imap, Hi, lookup_empty in Hempty.
Qed.

Lemma inv_loadCommunity (w : World) (slug : string) :
  store_inv w -> store_inv (loadCommunity w slug).1.
Proof.
  intros Hw. unfold loadCommunity.
  repeat match goal with
         | |- context [match ?x with _ => _ end] => destruct x; try done
         end.
  all: by apply inv_saveCommunity.
Qed.

Lemma inv_receiveSyncMessage (w : World) (slug peer : string) (delta : bytes) :
  store_inv w -> store_inv (receiveSyncMessage w slug peer delta).1.
Proof.
  intros Hw. unfold receiveSyncMessage.
  destruct (communities w !! slug) as [doc |]; [| done].
  pose proof (inv_getPeerSyncState w slug peer Hw) as Hw1.
  destruct (getPeerSyncState w slug peer) as [w1 ps]; simpl in Hw1.
  destruct (Automerge.receiveSyncMessage doc (syncState ps) delta)
    as [[[newDoc newSyncState] patch] |]; [| done].
  destruct (Automerge.generateSyncMessage newDoc newSyncState) as [next reply].
  match goal with
  | |- context [peerSyncStates ?w5 !! slug] => assert (store_inv w5) as Hw5
  end.
  { apply inv_setSyncState. destruct (hasPatches patch).
    - by apply inv_saveCommunity, inv_setSyncState.
    - by apply inv_setSyncState. }
  match goal with
  | |- context [peerSyncStates ?w5 !! slug] =>
    destruct (peerSyncStates w5 !! slug) eqn:Hslug; [| done]
  end.
  destruct (hasPatches patch); [| done].
  by apply inv_catchUp.
Qed.

Lemma inv_generateSyncMessageForPeer (w : World) (slug peer : string) :
  store_inv w -> store_inv (generateSyncMessageForPeer w slug peer).1.
Proof.
  intros Hw. unfold generateSyncMessageForPeer.
  destruct (communities w !! slug) as [doc |]; [| done].
  pose proof (inv_getPeerSyncState w slug peer Hw) as Hw1.
  destruct (getPeerSyncState w slug peer) as [w1 ps]; simpl in Hw1.
  destruct (Automerge.generateSyncMessage doc (syncState ps)) as [next reply].
  by apply inv_setSyncState.
Qed.

Lemma inv_step (w w' : World) : step w w' -> store_inv w -> store_inv w'.
Proof.
  intros Hstep Hw. destruct Hstep.
  - by apply inv_loadCommunity.
  - by apply inv_saveCommunity.
  - by apply inv_saveCommunity.
  - by apply inv_getPeerSyncState.
  - by apply inv_removePeerSyncState.
  - by apply inv_receiveSyncMessage.
  - by apply inv_generateSyncMessageForPeer.
  - unfold updateShape. destruct (communities w !! slug); [| done].
    by apply inv_saveCommunity.
  - unfold deleteShape. destruct (communities w !! slug); [| done].
    by apply inv_saveCommunity.
  - by apply inv_advance.
Qed.

Lemma reachable_inv (w : World) : reachable w -> store_inv w.
Proof.
  induction 1 as [files now | w w' _ IH Hstep].
  - split; [split |].
    + intros p Hin. by apply elem_of_nil in Hin.
    + apply NoDup_nil_2.
    + intros slug peers. cbn [initial peerSyncStates]. by rewrite lookup_empty.
  - by apply (inv_step w).
Qed.

Lemma with_peerSyncStates_insert_id (w : World) (slug : string)
    (communityPeers : gmap string PeerState) :
  peerSyncStates w !! slug = Some communityPeers ->
  with_peerSyncStates (insert slug communityPeers) w = w.
Proof.
  intros Hslug. destruct w; unfold with_peerSyncStates; simpl in *.
  f_equal. by apply insert_id.
Qed.

Lemma removePeerSyncState_absent (w : World) (slug peer : string) :
  peers_nonempty w -> peerEntry w slug peer = None ->
  removePeerSyncState w slug peer = w.
Proof.
  intros Hw. unfold peerEntry, removePeerSyncState.
  destruct (peerSyncStates w !! slug) as [found |] eqn:Hslug; [| done].
  simpl. intros Hpeer. rewrite (delete_id _ _ Hpeer).
  rewrite decide_False.
  - by apply with_peerSyncStates_insert_id.
  - intros Hsize%map_size_empty_iff. by apply (Hw slug found).
Qed.

Lemma removePeerSyncState_twice (w : World) (slug peer : string) :
  removePeerSyncState (removePeerSyncState w slug peer) slug peer
    = removePeerSyncState w slug peer.
Proof.
  destruct (peerSyncStates w !! slug) as [found |] eqn:Hslug.
  - assert (removePeerSyncState w slug peer
            = if decide (size (delete peer found) = 0)
              then with_peerSyncStates (delete slug) w
              else with_peerSyncStates (insert slug (delete peer found)) w) as ->.
    { unfold removePeerSyncState. by rewrite Hslug. }
    case_decide as Hsize.
    + unfold removePeerSyncState. cbn [with_peerSyncStates peerSyncStates].
      by rewrite lookup_delete_eq.
    + unfold removePeerSyncState. cbn [with_peerSyncStates peerSyncStates].
      rewrite lookup_insert_eq, delete_delete_eq.
      rewrite decide_False by done.
      unfold with_peerSyncStates; simpl. by rewrite insert_insert_eq.
  - assert (removePeerSyncState w slug peer = w) as ->.
    { unfold removePeerSyncState. by rewrite Hslug. }
    unfold removePeerSyncState. by rewrite Hslug.
Qed.

(** C10.  [removePeerSyncState] on a peer the table has no entry for, be
    it in a document with other peers or in one with none, returns the
    state it was given; and to call it twice is to call it once.  The first
    part holds of the states the store can reach, where no per-document
    collection is empty; for a document the table has no collection for it
    holds of every state. *)
Theorem removePeerSyncState_idempotent (w : World) (slug peer : string) :
  (reachable w -> peerEntry w slug peer = None -> removePeerSyncState w slug peer = w)
  ∧ (peerSyncStates w !! slug = None -> removePeerSyncState w slug peer = w)
  ∧ removePeerSyncState (removePeerSyncState w slug peer) slug peer
      = removePeerSyncState w slug peer.
Proof.
  split; [| split; [| apply removePeerSyncState_twice]].
  - intros [_ Hw]%reachable_inv. by apply removePeerSyncState_absent.
  - intros Hnone. unfold removePeerSyncState. by rewrite Hnone.
Qed.

Lemma generateSyncMessageForPeer_message (w : World) (slug peer : string)
    (doc : Automerge.Doc) :
  communities w !! slug = Some doc ->
  (generateSyncMessageForPeer w slug peer).2
    = (Automerge.generateSyncMessage doc
         (match peerEntry w slug peer with
          | Some ps => syncState ps
          | None => Automerge.initSyncState
          end)).2.
Proof.
  intros Hdoc. unfold generateSyncMessageForPeer. rewrite Hdoc.
  pose proof (getPeerSyncState_returns w slug peer) as Hps.
  destruct (getPeerSyncState w slug peer) as [w1 ps]. simpl in Hps. subst ps.
  cbn [syncState].
  by destruct (Automerge.generateSyncMessage _ _).
Qed.

Lemma removePeerSyncState_frame (w : World) (slug peer : string) :
  communities (removePeerSyncState w slug peer) = communities w
  ∧ saveTimers (removePeerSyncState w slug peer) = saveTimers w
  ∧ pendingTimers (removePeerSyncState w slug peer) = pendingTimers w
  ∧ disk (removePeerSyncState w slug peer) = disk w
  ∧ clock (removePeerSyncState w slug peer) = clock w.
Proof.
  unfold removePeerSyncState. destruct (peerSyncStates w !! slug); [| done].
  by case_decide.
Qed.

(** C4.  After [removePeerSyncState] the entry of that peer is gone and
    every other entry is as it was; when no other peer of the document had
    an entry the collection of the document is gone too; the collection of
    the document, when still there, is not empty, and in a reachable state
    no collection is.  [getPeerSyncState] on a peer of that document with no
    entry then returns the initial cursor, and the sync message made for the
    removed peer is the one made from the initial cursor. *)
Theorem removePeerSyncState_cleanup (w : World) (slug peer : string) :
  peerEntry (removePeerSyncState w slug peer) slug peer = None
  ∧ (∀ s p, ¬ (s = slug ∧ p = peer) ->
       peerEntry (removePeerSyncState w slug peer) s p = peerEntry w s p)
  ∧ ((∀ p, p ≠ peer -> peerEntry w slug p = None) ->
       peerSyncStates (removePeerSyncState w slug peer) !! slug = None)
  ∧ (∀ peers, peerSyncStates (removePeerSyncState w slug peer) !! slug = Some peers ->
       peers ≠ ∅)
  ∧ (reachable w -> peers_nonempty (removePeerSyncState w slug peer))
  ∧ (∀ p, peerEntry (removePeerSyncState w slug peer) slug p = None ->
       syncState (getPeerSyncState (removePeerSyncState w slug peer) slug p).2
         = Automerge.initSyncState)
  ∧ (∀ doc, communities w !! slug = Some doc ->
       (generateSyncMessageForPeer (removePeerSyncState w slug peer) slug peer).2
         = (Automerge.generateSyncMessage doc Automerge.initSyncState).2).
Proof.
  assert (peerEntry (removePeerSyncState w slug peer) slug peer = None) as Hgone.
  { rewrite peerEntry_removePeerSyncState. by rewrite decide_True. }
  split; [done |]. split; [| split; [| split; [| split; [| split]]]].
  - intros s p Hother. rewrite peerEntry_removePeerSyncState.
    by rewrite decide_False.
  - intros Hlast. unfold removePeerSyncState.
    destruct (peerSyncStates w !! slug) as [found |] eqn:Hslug; [| done].
    rewrite decide_True; [apply lookup_delete_eq |].
    apply map_size_empty_iff, map_empty. intros p.
    destruct (decide (p = peer)) as [-> | Hp]; [apply lookup_delete_eq |].
    rewrite lookup_delete_ne by done.
    specialize (Hlast p Hp). unfold peerEntry in Hlast. by rewrite Hslug in Hlast.
  - exact (proj1 (removePeerSyncState_nonempty w slug peer)).
  - intros [_ Hw]%reachable_inv.
    by apply (proj2 (removePeerSyncState_nonempty w slug peer)).
  - intros p Hp. rewrite getPeerSyncState_returns. by rewrite Hp.
  - intros doc Hdoc.
    rewrite (generateSyncMessageForPeer_message _ _ _ doc).
    + by rewrite Hgone.
    + destruct (removePeerSyncState_frame w slug peer) as (-> & _). done.
Qed.

(** ** Entries of the peer table through the operations *)

Lemma peerEntry_getPeerSyncState (w : World) (slug peer s p : string) :
  peerEntry (getPeerSyncState w slug peer).1 s p
    = if decide (s = slug ∧ p = peer) then Some (getPeerSyncState w slug peer).2
      else peerEntry w s p.
Proof.
  destruct (getPeerSyncState_table w slug peer) as (cp & Htable & ->).
  unfold peerEntry. rewrite Htable. clear Htable.
  generalize (getPeerSyncState w slug peer).2. intros ps.
  destruct (decide (s = slug)) as [-> | Hs].
  - rewrite lookup_insert_eq; simpl.
    destruct (decide (p = peer)) as [-> | Hp].
    + rewrite decide_True by (intuition congruence). apply lookup_insert_eq.
    + rewrite decide_False by (intuition congruence).
      rewrite lookup_insert_ne by done.
      destruct (peerSyncStates w !! slug); [done | apply lookup_empty].
  - rewrite lookup_insert_ne by done. by rewrite decide_False by (intuition congruence).
Qed.

Lemma peerEntry_setSyncState (slug peer s p : string) (cursor : Automerge.SyncState)
    (w : World) :
  peerEntry (setSyncState slug peer cursor w) s p
    = if decide (s = slug ∧ p = peer)
      then (λ ps, {| syncState := cursor; lastActivity := lastActivity ps |})
             <$> peerEntry w s p
      else peerEntry w s p.
Proof.
  unfold peerEntry, setSyncState. cbn [with_peerSyncStates peerSyncStates].
  destruct (decide (s = slug)) as [-> | Hs].
  - rewrite lookup_alter_eq.
    destruct (peerSyncStates w !! slug) as [found |]; simpl.
    + destruct (decide (p = peer)) as [-> | Hp].
      * rewrite decide_True by (intuition congruence). apply lookup_alter_eq.
      * rewrite decide_False by (intuition congruence). by apply lookup_alter_ne.
    + by case_decide.
  - rewrite lookup_alter_ne by done. by rewrite decide_False by (intuition congruence).
Qed.

Lemma peerEntry_same (w w' : World) (s p : string) :
  peerSyncStates w' = peerSyncStates w -> peerEntry w' s p = peerEntry w s p.
Proof. unfold peerEntry. by intros ->. Qed.

Lemma peerEntry_catchUp (w : World) (slug peer s p : string) (newDoc : Automerge.Doc)
    (communityPeers : gmap string PeerState) :
  peerSyncStates w !! slug = Some communityPeers ->
  peerEntry (with_peerSyncStates
               (insert slug (map_imap (catchUpState newDoc peer) communityPeers)) w) s p
    = if decide (s = slug) then peerEntry w s p ≫= catchUpState newDoc peer p
      else peerEntry w s p.
Proof.
  intros Hslug. unfold peerEntry. cbn [with_peerSyncStates peerSyncStates].
  case_decide as Hs.
  - subst s. rewrite lookup_insert_eq, Hslug; simpl. apply map_lookup_imap.
  - by rewrite lookup_insert_ne.
Qed.

Lemma peerEntry_with_communities f (w : World) (s p : string) :
  peerEntry (with_communities f w) s p = peerEntry w s p.
Proof. done. Qed.

Lemma peerEntry_saveCommunity (w : World) (slug s p : string) :
  peerEntry (saveCommunity w slug) s p = peerEntry w s p.
Proof. apply peerEntry_same, saveCommunity_frame. Qed.

Lemma receiveSyncMessage_resident (w : World) (slug peer : string) (delta : bytes)
    (doc newDoc : Automerge.Doc) (newSyncState : Automerge.SyncState)
    (patch : option (list Automerge.Patch)) :
  communities w !! slug = Some doc ->
  Automerge.receiveSyncMessage doc (syncState (getPeerSyncState w slug peer).2) delta
    = Some (newDoc, newSyncState, patch) ->
  ∃ w5 communityPeers,
    w5 = setSyncState slug peer (Automerge.generateSyncMessage newDoc newSyncState).1
           (let w3 := setSyncState slug peer newSyncState
                        (with_communities (insert slug newDoc)
                           (getPeerSyncState w slug peer).1) in
            if hasPatches patch then saveCommunity w3 slug else w3)
    ∧ peerSyncStates w5 !! slug = Some communityPeers
    ∧ receiveSyncMessage w slug peer delta
      = if hasPatches patch
        then (with_peerSyncStates
                (insert slug (map_imap (catchUpState newDoc peer) communityPeers)) w5,
              Returned {| response := (Automerge.generateSyncMessage newDoc newSyncState).2;
                          broadcastToPeers :=
                            map_imap (catchUpMessage newDoc peer) communityPeers |})
        else (w5, Returned {| response := (Automerge.generateSyncMessage newDoc newSyncState).2;
                              broadcastToPeers := ∅ |}).
Proof.
  intros Hdoc Hmerge.
  eexists.
  assert (∀ w5, w5 = setSyncState slug peer (Automerge.generateSyncMessage newDoc newSyncState).1
           (let w3 := setSyncState slug peer newSyncState
                        (with_communities (insert slug newDoc)
                           (getPeerSyncState w slug peer).1) in
            if hasPatches patch then saveCommunity w3 slug else w3) ->
          is_Some (peerSyncStates w5 !! slug)) as Hsome.
  { intros w5 ->.
    assert (is_Some (peerEntry
      (setSyncState slug peer (Automerge.generateSyncMessage newDoc newSyncState).1
           (let w3 := setSyncState slug peer newSyncState
                        (with_communities (insert slug newDoc)
                           (getPeerSyncState w slug peer).1) in
            if hasPatches patch then saveCommunity w3 slug else w3)) slug peer)) as [ps Hps].
    { cbn zeta. destruct (hasPatches patch).
      all: rewrite ?peerEntry_setSyncState, ?peerEntry_saveCommunity,
             ?peerEntry_setSyncState, ?peerEntry_with_communities,
             ?peerEntry_getPeerSyncState.
      all: rewrite !decide_True by (intuition congruence).
      all: by eexists. }
    unfold peerEntry in Hps.
    destruct (peerSyncStates _ !! slug); [by eexists | done]. }
  destruct (Hsome _ eq_refl) as [communityPeers Hpeers].
  exists communityPeers. split; [reflexivity |]. split; [exact Hpeers |].
  unfold receiveSyncMessage. rewrite Hdoc.
  destruct (getPeerSyncState w slug peer) as [w1 ps] eqn:Hget.
  cbn [fst snd] in *. rewrite Hmerge.
  destruct (Automerge.generateSyncMessage newDoc newSyncState) as [next reply] eqn:Hgen.
  cbn [fst snd] in *. cbn zeta in Hpeers. rewrite Hpeers.
  by destruct (hasPatches patch).
Qed.

Lemma getPeerSyncState_cursor (w : World) (slug peer : string) :
  syncState (getPeerSyncState w slug peer).2 = cursorOf w slug peer.
Proof. by rewrite getPeerSyncState_returns. Qed.

Lemma hasPatches_true (patch : option (list Automerge.Patch)) :
  hasPatches patch = true ↔ ∃ first rest, patch = Some (first :: rest).
Proof.
  split.
  - destruct patch as [[| first rest] |]; try done. by exists first, rest.
  - by intros (first & rest & ->).
Qed.

(** C2.  [receiveSyncMessage] on a cached document whose merge succeeds.
    When the merge reports no patch, no save is scheduled (the timers and
    the files are as they were), [broadcastToPeers] is empty and the entry
    of every peer but the sender is as it was.  When it reports at least
    one patch a save is scheduled, and every other tracked peer of the
    document gets the message generated from its own cursor, which is
    advanced; the sender is not in [broadcastToPeers]. *)
Theorem receiveSyncMessage_fanout (w : World) (slug peer : string) (delta : bytes)
    (doc newDoc : Automerge.Doc) (newSyncState : Automerge.SyncState)
    (patch : option (list Automerge.Patch)) :
  communities w !! slug = Some doc ->
  Automerge.receiveSyncMessage doc (cursorOf w slug peer) delta
    = Some (newDoc, newSyncState, patch) ->
  (hasPatches patch = true ↔ ∃ first rest, patch = Some (first :: rest))
  ∧ (hasPatches patch = false ->
       (receiveSyncMessage w slug peer delta).2
         = Returned {| response := (Automerge.generateSyncMessage newDoc newSyncState).2;
                       broadcastToPeers := ∅ |}
       ∧ saveTimers (receiveSyncMessage w slug peer delta).1 = saveTimers w
       ∧ pendingTimers (receiveSyncMessage w slug peer delta).1 = pendingTimers w
       ∧ nextTimerId (receiveSyncMessage w slug peer delta).1 = nextTimerId w
       ∧ disk (receiveSyncMessage w slug peer delta).1 = disk w
       ∧ writeLog (receiveSyncMessage w slug peer delta).1 = writeLog w
       ∧ (∀ s p, ¬ (s = slug ∧ p = peer) ->
            peerEntry (receiveSyncMessage w slug peer delta).1 s p = peerEntry w s p))
  ∧ (hasPatches patch = true ->
       armedAt slug (nextTimerId w) (clock w + SAVE_DELAY)
         (receiveSyncMessage w slug peer delta).1
       ∧ ∃ fanout,
           (receiveSyncMessage w slug peer delta).2
             = Returned {| response := (Automerge.generateSyncMessage newDoc newSyncState).2;
                           broadcastToPeers := fanout |}
           ∧ fanout !! peer = None
           ∧ ∀ p ps, p ≠ peer -> peerEntry w slug p = Some ps ->
               fanout !! p = (Automerge.generateSyncMessage newDoc (syncState ps)).2
               ∧ peerEntry (receiveSyncMessage w slug peer delta).1 slug p
                 = Some {| syncState :=
                             (Automerge.generateSyncMessage newDoc (syncState ps)).1;
                           lastActivity := lastActivity ps |}).
Proof.
  intros Hdoc Hmerge. rewrite <- getPeerSyncState_cursor in Hmerge.
  destruct (receiveSyncMessage_resident w slug peer delta doc newDoc newSyncState
              patch Hdoc Hmerge) as (w5 & communityPeers & Hw5 & Hpeers & ->).
  split; [apply hasPatches_true |]. split.
  - intros Hnone. rewrite Hnone in *. cbn [fst snd]. cbn zeta in Hw5. subst w5.
    repeat (split; [done |]).
    intros s p Hother.
    rewrite !peerEntry_setSyncState, peerEntry_with_communities,
      peerEntry_getPeerSyncState.
    by rewrite !decide_False by done.
  - intros Hsome. rewrite Hsome in *. cbn [fst snd]. cbn zeta in Hw5.
    assert (∀ p ps, p ≠ peer -> peerEntry w slug p = Some ps ->
                    communityPeers !! p = Some ps) as Hothers.
    { intros p ps Hp Hps.
      assert (peerEntry w5 slug p = Some ps) as Hentry.
      { subst w5.
        rewrite peerEntry_setSyncState, peerEntry_saveCommunity,
          peerEntry_setSyncState, peerEntry_with_communities,
          peerEntry_getPeerSyncState.
        by rewrite !decide_False by (intuition congruence). }
      unfold peerEntry in Hentry. by rewrite Hpeers in Hentry. }
    split.
    + assert (armedAt slug (nextTimerId w) (clock w + SAVE_DELAY)
                (saveCommunity
                   (setSyncState slug peer newSyncState
                      (with_communities (insert slug newDoc)
                         (getPeerSyncState w slug peer).1)) slug)) as Harmed.
      { apply (saveCommunity_armed
                 (setSyncState slug peer newSyncState
                    (with_communities (insert slug newDoc)
                       (getPeerSyncState w slug peer).1)) slug).
        cbn [setSyncState with_peerSyncStates with_communities communities].
        rewrite lookup_insert_eq. by eexists. }
      subst w5. exact Harmed.
    + eexists. split; [reflexivity |]. split.
      * rewrite map_lookup_imap. destruct (communityPeers !! peer); [| done].
        simpl. unfold catchUpMessage. by rewrite decide_False by (intuition congruence).
      * intros p ps Hp Hps. split.
        -- rewrite map_lookup_imap, (Hothers p ps Hp Hps). simpl.
           unfold catchUpMessage. by rewrite decide_True.
        -- rewrite (peerEntry_catchUp _ _ _ _ _ _ _ Hpeers), decide_True by done.
           unfold peerEntry. rewrite Hpeers. simpl. rewrite (Hothers p ps Hp Hps).
           simpl. unfold catchUpState. by rewrite decide_True.
Qed.

(** ** What the due timers write *)

Lemma string_length_app (a b : string) :
  String.length (a +:+ b) = String.length a + String.length b.
Proof. induction a as [| c a IH]; simpl; [done | by rewrite IH]. Qed.

Lemma string_app_inv_tail (a b c : string) : a +:+ c = b +:+ c -> a = b.
Proof.
  revert b. induction a as [| x a IH]; intros [| y b] Heq; simpl in Heq.
  - done.
  - apply (f_equal String.length) in Heq. simpl in Heq.
    rewrite !string_length_app in Heq. simpl in Heq. lia.
  - apply (f_equal String.length) in Heq. simpl in Heq.
    rewrite !string_length_app in Heq. simpl in Heq. lia.
  - injection Heq as -> Heq. f_equal. by apply IH.
Qed.

Lemma binaryPath_inj (a b : string) : binaryPath a = binaryPath b -> a = b.
Proof.
  unfold binaryPath. intros Heq.
  apply (inj (String.app STORAGE_DIR)) in Heq.
  apply (inj (String.app "/")) in Heq.
  by apply string_app_inv_tail in Heq.
Qed.

(** What the due timers write for one document. *)
Lemma fire_writes (due : list Timer) (w : World) (slug : string) (doc : Automerge.Doc) :
  communities w !! slug = Some doc ->
  let w' := foldl (λ acc p, saveCallback (timer_slug p) acc) w due in
  writesTo slug w'
    = writesTo slug w
      ++ ((λ _, (binaryPath slug, Automerge.save doc))
            <$> filter (λ p, timer_slug p = slug) due)
  ∧ disk w' !! binaryPath slug
    = match filter (λ p, timer_slug p = slug) due with
      | [] => disk w !! binaryPath slug
      | _ => Some (Automerge.save doc)
      end.
Proof.
  revert w. induction due as [| p due IH]; intros w Hdoc.
  - simpl. by rewrite app_nil_r.
  - cbn [foldl].
    assert (communities (saveCallback (timer_slug p) w) !! slug = Some doc) as Hdoc1.
    { by rewrite (proj1 (saveCallback_frame _ _)). }
    destruct (IH _ Hdoc1) as [Hlog Hdisk]. cbn zeta. rewrite Hlog, Hdisk.
    rewrite filter_cons. unfold saveCallback, writesTo.
    destruct (decide (timer_slug p = slug)) as [Hp | Hp].
    + rewrite Hp, Hdoc. cbn [Bun_write writeLog disk].
      rewrite filter_app, filter_cons, decide_True, filter_nil by done.
      rewrite fmap_cons, <- app_assoc. split; [done |].
      rewrite lookup_insert_eq.
      by destruct (filter (λ p0, timer_slug p0 = slug) due).
    + destruct (communities w !! timer_slug p) as [other |]; [| done].
      cbn [Bun_write writeLog disk].
      rewrite filter_app, filter_cons, decide_False, filter_nil, app_nil_r.
      * split; [done |]. rewrite lookup_insert_ne; [done |].
        intros Hpath. by apply binaryPath_inj in Hpath.
      * simpl. intros Hpath. by apply binaryPath_inj in Hpath.
Qed.

Lemma filter_comm {A} (P Q : A -> Prop) `{!∀ x, Decision (P x), !∀ x, Decision (Q x)}
    (l : list A) :
  filter P (filter Q l) = filter Q (filter P l).
Proof.
  rewrite !list_filter_filter. apply list_filter_iff. intros x. tauto.
Qed.

Lemma advance_writes (dt : N) (w : World) (slug : string) (doc : Automerge.Doc) :
  communities w !! slug = Some doc ->
  writesTo slug (advance dt w)
    = writesTo slug w
      ++ ((λ _, (binaryPath slug, Automerge.save doc))
            <$> filter (λ p, (timer_due p <= clock w + dt)%N) (timersOf slug w))
  ∧ disk (advance dt w) !! binaryPath slug
    = match filter (λ p, (timer_due p <= clock w + dt)%N) (timersOf slug w) with
      | [] => disk w !! binaryPath slug
      | _ => Some (Automerge.save doc)
      end
  ∧ timersOf slug (advance dt w)
    = filter (λ p, ¬ (timer_due p <= clock w + dt)%N) (timersOf slug w).
Proof.
  intros Hdoc. unfold timersOf at 1 2.
  rewrite (filter_comm (λ p, (timer_due p <= clock w + dt)%N)).
  split; [| split].
  - unfold advance.
    match goal with
    | |- context [foldl ?f ?w0 ?l] => exact (proj1 (fire_writes l w0 slug doc Hdoc))
    end.
  - unfold advance.
    match goal with
    | |- context [foldl ?f ?w0 ?l] => exact (proj2 (fire_writes l w0 slug doc Hdoc))
    end.
  - unfold timersOf. destruct (advance_frame dt w) as (_ & _ & _ & -> & _).
    apply filter_comm.
Qed.

(** ** Bursts of mutations *)








Lemma importMutator_shapes (data : LegacyDoc) (d : CommunityDoc) :
  importMutator data d
    = {| meta := Some (legacy_meta data);
         shapes := Some (default ∅ (legacy_shapes data)) |}.
Proof.
  unfold importMutator. f_equal. f_equal.
  generalize (default ∅ (legacy_shapes data)). intros entries.
  induction entries as [| id shape entries Hfresh Hfold IH] using map_first_key_ind.
  - apply map_fold_empty.
  - rewrite map_fold_insert_first_key by done. by rewrite IH.
Qed.

(** C1, amended.  [loadCommunity] returns the cached replica when there is
    one.  Otherwise a canonical record that deserializes is loaded and
    cached, whether or not a legacy record exists.  Otherwise (no canonical
    record, or one that does not deserialize) a legacy record that parses
    is converted by one change of [Automerge.init], cached, and a save is
    scheduled: the files are as they were when [loadCommunity] returns, and
    the canonical record is there once [SAVE_DELAY] has passed.  With
    neither record the answer is [null] and nothing changes.  Whenever a
    document is returned the cache holds it. *)
Theorem loadCommunity_contract (w : World) (slug : string) :
  (∀ cached, communities w !! slug = Some cached ->
     loadCommunity w slug = (w, Some cached))
  ∧ (∀ buffer doc,
       communities w !! slug = None ->
       disk w !! binaryPath slug = Some buffer -> Automerge.load buffer = Some doc ->
       loadCommunity w slug = (with_communities (insert slug doc) w, Some doc))
  ∧ (∀ text data,
       communities w !! slug = None ->
       disk w !! binaryPath slug ≫= Automerge.load = None ->
       disk w !! jsonPath slug = Some text -> file_json text = Some data ->
       (loadCommunity w slug).2 = Some (jsonToAutomerge data)
       ∧ communities (loadCommunity w slug).1
         = <[slug := jsonToAutomerge data]> (communities w)
       ∧ armedAt slug (nextTimerId w) (clock w + SAVE_DELAY) (loadCommunity w slug).1
       ∧ disk (loadCommunity w slug).1 = disk w
       ∧ (∀ dt, (SAVE_DELAY <= dt)%N ->
            disk (advance dt (loadCommunity w slug).1) !! binaryPath slug
              = Some (Automerge.save (jsonToAutomerge data))))
  ∧ (communities w !! slug = None ->
     disk w !! binaryPath slug = None -> disk w !! jsonPath slug = None ->
     loadCommunity w slug = (w, None))
  ∧ (∀ doc, (loadCommunity w slug).2 = Some doc ->
       communities (loadCommunity w slug).1 !! slug = Some doc)
  ∧ (∀ data,
       jsonToAutomerge data
         = Automerge.change Automerge.init "Import from JSON" (importMutator data)
       ∧ ∀ d, importMutator data d
              = {| meta := Some (legacy_meta data);
                   shapes := Some (default ∅ (legacy_shapes data)) |}).
Proof.
  split; [| split; [| split; [| split; [| split]]]].
  - intros cached Hcached. unfold loadCommunity. by rewrite Hcached.
  - intros buffer doc Habsent Hfile Hload. unfold loadCommunity.
    by rewrite Habsent, Hfile, Hload.
  - intros text data Habsent Hbinary Hfile Hjson.
    assert (loadCommunity w slug
            = (saveCommunity (with_communities (insert slug (jsonToAutomerge data)) w)
                 slug, Some (jsonToAutomerge data))) as ->.
    { unfold loadCommunity. rewrite Habsent, Hfile, Hjson.
      destruct (disk w !! binaryPath slug) as [buffer |]; [| done].
      simpl in Hbinary. by rewrite Hbinary. }
    cbn [fst snd].
    set (w1 := with_communities (insert slug (jsonToAutomerge data)) w).
    assert (communities w1 !! slug = Some (jsonToAutomerge data)) as Hdoc1.
    { subst w1. cbn [with_communities communities]. apply lookup_insert_eq. }
    destruct (saveCommunity_frame w1 slug) as (Hc & _ & Hd & _ & Hclock).
    pose proof (saveCommunity_armed w1 slug ltac:(by eexists)) as Harmed.
    split; [done |]. split; [by rewrite Hc |]. split; [exact Harmed |].
    split; [by rewrite Hd |].
    intros dt Hdt. destruct Harmed as [_ Hpending].
    destruct (advance_writes dt (saveCommunity w1 slug) slug (jsonToAutomerge data))
      as (_ & Hdisk & _); [by rewrite Hc |].
    rewrite Hdisk.
    match goal with
    | |- match ?l with _ => _ end = _ =>
      assert ({| timer_id := nextTimerId w1; timer_slug := slug;
                 timer_due := (clock w1 + SAVE_DELAY)%N |} ∈ l) as Hin
    end.
    { apply list_elem_of_filter.
      split; [cbn [timer_due]; rewrite Hclock; unfold SAVE_DELAY in *; lia |].
      unfold timersOf. by apply list_elem_of_filter. }
    destruct (filter _ (timersOf slug (saveCommunity w1 slug)));
      [by apply elem_of_nil in Hin | done].
  - intros Habsent Hbinary Hjson. unfold loadCommunity.
    by rewrite Habsent, Hbinary, Hjson.
  - intros doc. unfold loadCommunity.
    destruct (communities w !! slug) as [cached |] eqn:Hcached.
    { simpl. by intros [= <-]. }
    assert (∀ found (w1 : World), communities w1 !! slug = Some found ->
              communities (saveCommunity w1 slug) !! slug = Some found) as Hsaved.
    { intros found w1 Hfound. by rewrite (proj1 (saveCommunity_frame w1 slug)). }
    repeat match goal with
           | |- context [match ?x with _ => _ end] => destruct x eqn:?; simpl
           end.
    all: try done.
    all: intros [= <-].
    all: try apply Hsaved.
    all: cbn [with_communities communities]; apply lookup_insert_eq.
  - intros data. split; [done | apply importMutator_shapes].
Qed.

(** C9.  On a document that is not in the cache, [receiveSyncMessage]
    returns [{ response: null, broadcastToPeers: empty }] and
    [generateSyncMessageForPeer] returns [null]; both return normally, and
    both leave the whole state, the peer table included, as it was. *)
Theorem sync_on_absent_document (w : World) (slug peer : string) (delta : bytes) :
  communities w !! slug = None ->
  receiveSyncMessage w slug peer delta
    = (w, Returned {| response := None; broadcastToPeers := ∅ |})
  ∧ generateSyncMessageForPeer w slug peer = (w, None).
Proof.
  intros Habsent. unfold receiveSyncMessage, generateSyncMessageForPeer.
  by rewrite Habsent.
Qed.

(** C8.  [updateShape] and [deleteShape] on a document that is not in the
    cache return the state they were given: cache, peer table, files and
    timers are untouched.  On a cached document they replace the replica
    by the result of [Automerge.change] with their mutator and schedule a
    save; the peer table and the files are left as they were. *)
Theorem legacy_mutations (w : World) (slug shapeId : string) (shape : ShapeData) :
  (communities w !! slug = None ->
     updateShape w slug shapeId shape = w ∧ deleteShape w slug shapeId = w)
  ∧ (∀ doc, communities w !! slug = Some doc ->
       (communities (updateShape w slug shapeId shape)
          = <[slug := Automerge.change doc ("Update shape " +:+ shapeId)
                        (updateMutator shapeId shape)]> (communities w)
        ∧ armedAt slug (nextTimerId w) (clock w + SAVE_DELAY)
            (updateShape w slug shapeId shape)
        ∧ peerSyncStates (updateShape w slug shapeId shape) = peerSyncStates w
        ∧ disk (updateShape w slug shapeId shape) = disk w)
       ∧ (communities (deleteShape w slug shapeId)
            = <[slug := Automerge.change doc ("Delete shape " +:+ shapeId)
                          (deleteMutator shapeId)]> (communities w)
          ∧ armedAt slug (nextTimerId w) (clock w + SAVE_DELAY)
              (deleteShape w slug shapeId)
          ∧ peerSyncStates (deleteShape w slug shapeId) = peerSyncStates w
          ∧ disk (deleteShape w slug shapeId) = disk w))
  ∧ (∀ d, ∃ entries, shapes (updateMutator shapeId shape d) = Some entries
                     ∧ entries !! shapeId = Some shape)
  ∧ (∀ d entries, shapes (deleteMutator shapeId d) = Some entries ->
                  entries !! shapeId = None).
Proof.
  split; [| split; [| split]].
  - intros Habsent. unfold updateShape, deleteShape. by rewrite Habsent.
  - intros doc Hdoc. unfold updateShape, deleteShape. rewrite Hdoc.
    split.
    all: match goal with
         | |- context [saveCommunity ?w1 ?s] =>
           destruct (saveCommunity_frame w1 s) as (Hc & Hp & Hd & _ & _);
           pose proof (saveCommunity_armed w1 s) as Harm
         end.
    all: rewrite Hc, Hp, Hd; simpl in *.
    all: split; [done | split; [| done]].
    all: apply Harm; rewrite lookup_insert_eq; by eexists.
  - intros d. eexists. split; [done |]. apply lookup_insert_eq.
  - intros d entries. unfold deleteMutator.
    destruct (shapes d) as [found |] eqn:Hshapes; [| by rewrite Hshapes].
    destruct (found !! shapeId) eqn:Hid; simpl.
    + intros [= <-]. apply lookup_delete_eq.
    + rewrite Hshapes. by intros [= <-].
Qed.

End StoreFacts.

(** * Properties of the relay *)

Section RelayFacts.
Context `{!Automerge.Lib, !Host}.

Lemma handleAPI_create (w : World) (req : Request) (fields : CreateBody) :
  req_method req = "POST" -> req_pathname req = "/api/communities" ->
  req_json req = Some fields ->
  handleAPI w req
    = if falsy (body_name fields) || falsy (body_slug fields) then
        (w, Response_json (errorBody "Name and slug are required") 400)
      else if negb (slugPattern (default "" (body_slug fields))) then
        (w, Response_json
              (errorBody "Slug must contain only lowercase letters, numbers, and hyphens")
              400)
      else if communityExists w (default "" (body_slug fields)) then
        (w, Response_json (errorBody "Community already exists") 409)
      else
        ((createCommunity w (default "" (body_name fields))
            (default "" (body_slug fields))).1,
         Response_json (createdBody (default "" (body_name fields))
                          (default "" (body_slug fields))) 200).
Proof.
  intros Hmethod Hpath Hjson. unfold handleAPI.
  rewrite Hmethod, Hpath, Hjson.
  rewrite decide_False by done. rewrite decide_True by done.
  repeat match goal with |- context [if ?b then _ else _] => destruct b; try done end.
Qed.

Lemma falsy_Some (s : string) : falsy (Some s) = bool_decide (s = "").
Proof. by destruct s. Qed.

Lemma slugPattern_nonempty (slug : string) : slugPattern slug = true -> slug ≠ "".
Proof. by intros Hpattern ->. Qed.


(** C5, amended.  For a creation request with a non-empty name and a slug
    that matches [^[a-z0-9-]+$]: when [communityExists] holds of the slug
    the answer is 409 and the state is as it was; otherwise the answer is
    [{ url, slug, name }], the cache holds under the slug the document made
    from [Automerge.init] by a change that sets the name, the slug, the
    creation time and an empty [shapes], and a save is scheduled. *)
Theorem create_valid_community (w : World) (req : Request) (name slug : string) :
  req_method req = "POST" -> req_pathname req = "/api/communities" ->
  req_json req = Some {| body_name := Some name; body_slug := Some slug |} ->
  name ≠ "" -> slugPattern slug = true ->
  (communityExists w slug = true ->
     handleAPI w req = (w, Response_json (errorBody "Community already exists") 409))
  ∧ (communityExists w slug = false ->
       (handleAPI w req).2 = Response_json (createdBody name slug) 200
       ∧ communities (handleAPI w req).1
         = <[slug := Automerge.change Automerge.init "Create community"
                       (createMutator name slug (toISOString (clock w)))]>
             (communities w)
       ∧ armedAt slug (nextTimerId w) (clock w + SAVE_DELAY) (handleAPI w req).1
       ∧ disk (handleAPI w req).1 = disk w
       ∧ peerSyncStates (handleAPI w req).1 = peerSyncStates w)
  ∧ (∀ createdAt d,
       createMutator name slug createdAt d
         = {| meta := Some {| meta_name := name; meta_slug := slug;
                              meta_createdAt := createdAt |};
              shapes := Some ∅ |}).
Proof.
  intros Hmethod Hpath Hjson Hname Hpattern.
  rewrite (handleAPI_create w req _ Hmethod Hpath Hjson). cbn [body_name body_slug].
  rewrite !falsy_Some.
  rewrite (bool_decide_eq_false_2 _ Hname).
  rewrite (bool_decide_eq_false_2 _ (slugPattern_nonempty slug Hpattern)).
  cbn [orb default from_option id]. unfold default; cbn [from_option id].
  rewrite Hpattern. cbn [negb].
  split; [by intros -> |]. split; [| done].
  intros ->. cbn [fst snd]. unfold createCommunity. cbn [fst].
  match goal with
  | |- context [saveCommunity ?w1 ?s] =>
    destruct (saveCommunity_frame w1 s) as (Hc & Hp & Hd & _ & _);
    pose proof (saveCommunity_armed w1 s) as Harm
  end.
  rewrite Hc, Hp, Hd. split; [done |]. split; [done |]. split; [| done].
  apply Harm. cbn [with_communities communities]. rewrite lookup_insert_eq. by eexists.
Qed.

Lemma typeIs_unique (msg : Json) (a b : string) :
  typeIs msg a = true -> typeIs msg b = true -> a = b.
Proof.
  unfold typeIs. destruct (prop msg "type") as [[] |]; try done.
  intros ->%bool_decide_eq_true ->%bool_decide_eq_true. done.
Qed.

Lemma typeIs_other (msg : Json) (a b : string) :
  typeIs msg a = true -> a ≠ b -> typeIs msg b = false.
Proof.
  intros Ha Hab. destruct (typeIs msg b) eqn:Hb; [| done].
  by destruct (Hab (typeIs_unique msg a b Ha Hb)).
Qed.

Lemma broadcastOthers_sent (clients : gmap string ServerWebSocket) (sender text : string)
    (sv : Server) :
  broadcastOthers clients sender text sv
    = {| world := world sv; communityClients := communityClients sv;
         sent := sent sv
           ++ ((λ entry : string * ServerWebSocket, (data entry.2, text))
                 <$> filter (λ entry, entry.1 ≠ sender ∧ readyState entry.2 = OPEN)
                       (map_to_list clients)) |}.
Proof.
  unfold broadcastOthers. generalize (map_to_list clients). intros entries.
  revert sv. induction entries as [| entry entries IH]; intros sv.
  - simpl. rewrite app_nil_r. by destruct sv.
  - cbn [foldl]. rewrite IH. rewrite filter_cons.
    destruct (decide (entry.1 ≠ sender ∧ readyState entry.2 = OPEN)); [| done].
    unfold send; simpl. by rewrite <- app_assoc.
Qed.

Lemma lookupField_setField (key k : string) (v : Json) (fields : list (string * Json)) :
  lookupField key (setField k v fields)
    = if decide (k = key) then Some v else lookupField key fields.
Proof.
  induction fields as [| [k' old] fields IH]; simpl.
  - by case_decide.
  - destruct (decide (k' = k)) as [-> | Hk]; simpl.
    + by case_decide.
    + destruct (decide (k' = key)) as [-> | Hk'].
      * by rewrite decide_False by done.
      * exact IH.
Qed.

(** The properties of [{ ...base, ...fields }]: those of [fields], then
    those of [base]. *)
Lemma lookupField_spread (key : string) (base fields : list (string * Json)) :
  NoDup fields.*1 ->
  lookupField key (foldl (λ acc kv, setField kv.1 kv.2 acc) base fields)
    = match lookupField key fields with
      | Some v => Some v
      | None => lookupField key base
      end.
Proof.
  revert base. induction fields as [| [k v] fields IH]; intros base Hkeys; [done |].
  apply NoDup_cons in Hkeys as [Hfresh Hkeys].
  cbn [foldl fst snd]. rewrite IH by done. rewrite lookupField_setField.
  cbn [lookupField]. destruct (decide (k = key)) as [-> | Hk]; [| done].
  assert (lookupField key fields = None) as ->; [| done].
  clear -Hfresh. induction fields as [| [k' v'] fields IH]; [done |].
  cbn [lookupField]. rewrite decide_False.
  - apply IH. intros Hin. apply Hfresh. by right.
  - intros ->. apply Hfresh. by left.
Qed.

(** C7.  A message of type "ping" is answered on the connection it came
    from with [{ type: "pong", timestamp }], the timestamp being the one
    received.  A message of type "presence" is sent to the open connections
    of the same document other than the sender's, and to no other; what
    is sent is the message itself with the peer id of the sender: every
    property of the message is there with its value, its type is
    "presence", [peerId] is the sender's when the message has none, and
    there is no other property (the keys of a parsed object are distinct).
    In both cases the store (replicas, peer table, timers, files) and the
    connection registry are as they were. *)
Theorem ping_and_presence_bypass (sv : Server) (ws : ServerWebSocket) (text : string)
    (msg : Json) :
  JSON_parse text = Some msg ->
  (typeIs msg "ping" = true ->
     message sv ws text
       = {| world := world sv; communityClients := communityClients sv;
            sent := sent sv ++ [(data ws, JSON_stringify (pongObject msg))] |}
     ∧ ∀ timestamp, prop msg "timestamp" = Some timestamp ->
         pongObject msg = JObj [("type", JStr "pong"); ("timestamp", timestamp)])
  ∧ (typeIs msg "presence" = true ->
       ∃ delivered,
         message sv ws text
           = {| world := world sv; communityClients := communityClients sv;
                sent := sent sv ++ delivered |}
         ∧ ∀ target payload,
             (target, payload) ∈ delivered
             ↔ payload = JSON_stringify (presenceObject (peerId (data ws)) msg)
               ∧ ∃ other client,
                   getClient sv (communitySlug (data ws)) other = Some client
                   ∧ other ≠ peerId (data ws)
                   ∧ readyState client = OPEN
                   ∧ data client = target)
  ∧ (typeIs msg "presence" = true ->
       ∀ fields, msg = JObj fields -> NoDup fields.*1 ->
         prop (presenceObject (peerId (data ws)) msg) "type" = Some (JStr "presence")
         ∧ ∀ key, prop (presenceObject (peerId (data ws)) msg) key
                  = match prop msg key with
                    | Some v => Some v
                    | None => if decide (key = "peerId")
                              then Some (JStr (peerId (data ws))) else None
                    end).
Proof.
  intros Hparse. split; [| split].
  - intros Hping. split.
    + unfold message. rewrite Hparse.
      by rewrite (typeIs_other msg "ping" "sync" Hping), Hping.
    + intros timestamp Htime. unfold pongObject. by rewrite Htime.
  - intros Hpresence. unfold message. rewrite Hparse.
    rewrite (typeIs_other msg "presence" "sync" Hpresence) by done.
    rewrite (typeIs_other msg "presence" "ping" Hpresence) by done.
    rewrite Hpresence. cbn [andb]. unfold getClient.
    destruct (communityClients sv !! communitySlug (data ws)) as [clients |] eqn:Hclients.
    + rewrite broadcastOthers_sent. eexists. split; [reflexivity |].
      intros target payload. rewrite list_elem_of_fmap. split.
      * intros ([other client] & [= -> ->] & [[Hother Hopen] Hin]%list_elem_of_filter).
        split; [done |]. exists other, client.
        by apply elem_of_map_to_list in Hin.
      * intros (-> & other & client & Hclient & Hother & Hopen & <-).
        exists (other, client). split; [done |].
        apply list_elem_of_filter. split; [done |]. by apply elem_of_map_to_list.
    + exists []. split; [rewrite app_nil_r; by destruct sv |].
      intros target payload. split; [by intros ?%elem_of_nil |].
      by intros (_ & other & client & ? & _).
  - intros Hpresence fields -> Hkeys.
    assert (lookupField "type" fields = Some (JStr "presence")) as Htype.
    { unfold typeIs in Hpresence. simpl in Hpresence.
      destruct (lookupField "type" fields) as [[| | | tag | |] |]; try done.
      by apply bool_decide_eq_true in Hpresence as ->. }
    assert (∀ key, prop (presenceObject (peerId (data ws)) (JObj fields)) key
                   = match prop (JObj fields) key with
                     | Some v => Some v
                     | None => if decide (key = "peerId")
                               then Some (JStr (peerId (data ws))) else None
                     end) as Hprops.
    { intros key. cbn [presenceObject prop].
      rewrite lookupField_spread by done.
      destruct (lookupField key fields) eqn:Hkey; [done |].
      cbn [lookupField]. repeat case_decide; congruence. }
    split; [| exact Hprops].
    rewrite Hprops. cbn [prop]. by rewrite Htype.
Qed.

End RelayFacts.

(** * Further properties of the store and of the relay *)

(** ** Induction over the steps of the store

    Every exported function of the store is made of four things: it puts a
    replica in the cache, it changes the peer table, it calls
    [saveCommunity], or time passes.  What these four keep, every step
    keeps. *)

Section StepInduction.
Context `{!Automerge.Lib, !Host}.
Variable P : World -> Prop.
Hypothesis P_cache : ∀ w slug doc, P w -> P (with_communities (insert slug doc) w).
Hypothesis P_peers : ∀ w f, P w -> P (with_peerSyncStates f w).
Hypothesis P_save : ∀ w slug, P w -> P (saveCommunity w slug).

Lemma preserved_by_call (w w' : World) : call w w' -> P w -> P w'.
Proof using All.
  intros Hcall Hw. destruct Hcall.
  - unfold loadCommunity.
    repeat match goal with
           | |- context [match ?x with _ => _ end] => destruct x; try done
           end.
    all: cbn [fst]; auto.
  - auto.
  - unfold createCommunity. cbn [fst]. auto.
  - unfold getPeerSyncState. cbn [fst]. auto.
  - unfold removePeerSyncState. destruct (peerSyncStates w !! slug); [| done].
    case_decide; auto.
  - unfold receiveSyncMessage.
    destruct (communities w !! slug) as [doc |]; [| done].
    unfold getPeerSyncState.
    destruct (Automerge.receiveSyncMessage _ _ _) as [[[newDoc newSyncState] patch] |];
      cbn [fst]; [| auto].
    destruct (Automerge.generateSyncMessage newDoc newSyncState) as [next reply].
    unfold setSyncState.
    match goal with
    | |- context [peerSyncStates ?w5 !! slug] => assert (P w5) as Hw5
    end.
    { apply P_peers. destruct (hasPatches patch); auto. }
    match goal with
    | |- context [peerSyncStates ?w5 !! slug] =>
      destruct (peerSyncStates w5 !! slug); [| done]
    end.
    destruct (hasPatches patch); cbn [fst]; auto.
  - unfold generateSyncMessageForPeer.
    destruct (communities w !! slug) as [doc |]; [| done].
    unfold getPeerSyncState.
    destruct (Automerge.generateSyncMessage _ _) as [next reply].
    unfold setSyncState. cbn [fst]. auto.
  - unfold updateShape. destruct (communities w !! slug); auto.
  - unfold deleteShape. destruct (communities w !! slug); auto.
Qed.

Lemma step_call_or_advance (w w' : World) :
  step w w' ↔ call w w' ∨ ∃ dt, w' = advance dt w.
Proof.
  split.
  - intros []; try (left; constructor). right. by eexists.
  - intros [[] | [dt ->]]; constructor.
Qed.

Hypothesis P_advance : ∀ w dt, P w -> P (advance dt w).

Lemma preserved_by_step (w w' : World) : step w w' -> P w -> P w'.
Proof using All.
  intros [Hcall | [dt ->]]%step_call_or_advance Hw;
    [by apply (preserved_by_call w) | by apply P_advance].
Qed.

Lemma preserved_when_reachable (w : World) :
  (∀ files now, P (initial files now)) -> reachable w -> P w.
Proof using All.
  intros Hinit. induction 1 as [files now | w w' _ IH Hstep]; [done |].
  by apply (preserved_by_step w).
Qed.
End StepInduction.

Section MoreFacts.
Context `{!Automerge.Lib, !Host}.

(** ** What no step undoes *)

Lemma step_keeps_cache (w w' : World) (slug : string) :
  step w w' -> is_Some (communities w !! slug) -> is_Some (communities w' !! slug).
Proof.
  apply (preserved_by_step (λ v, is_Some (communities v !! slug))).
  - intros v s doc Hv. cbn [with_communities communities].
    destruct (decide (s = slug)) as [-> | Hs].
    + rewrite lookup_insert_eq. by eexists.
    + by rewrite lookup_insert_ne.
  - done.
  - intros v s Hv. by rewrite (proj1 (saveCommunity_frame v s)).
  - intros v dt Hv. by rewrite (proj1 (advance_frame dt v)).
Qed.

Lemma lastChar_app (a b : string) : b ≠ "" -> lastChar (a +:+ b) = lastChar b.
Proof.
  intros Hb. induction a as [| c a IH]; [done |].
  simpl. rewrite IH. destruct (a +:+ b) eqn:Hab; [| done].
  destruct a; [done | discriminate].
Qed.

Lemma jsonPath_not_binaryPath (a b : string) : jsonPath a ≠ binaryPath b.
Proof.
  unfold jsonPath, binaryPath. intros Heq.
  apply (f_equal lastChar) in Heq.
  assert (∀ x, x +:+ ".json" ≠ "") as Hjson by (by intros []).
  assert (∀ x, x +:+ ".automerge" ≠ "") as Hbinary by (by intros []).
  rewrite !lastChar_app in Heq by first [apply Hjson | apply Hbinary | done].
  discriminate Heq.
Qed.

Lemma fire_disk_frame (due : list Timer) (w : World) :
  let w' := foldl (λ acc p, saveCallback (timer_slug p) acc) w due in
  (∀ path, is_Some (disk w !! path) -> is_Some (disk w' !! path))
  ∧ (∀ path, (∀ slug, path ≠ binaryPath slug) -> disk w' !! path = disk w !! path).
Proof.
  revert w. induction due as [| p due IH]; intros w; [done |].
  cbn [foldl]. cbn zeta. destruct (IH (saveCallback (timer_slug p) w)) as [Hkeep Hsame].
  assert ((∀ path, is_Some (disk w !! path) ->
                   is_Some (disk (saveCallback (timer_slug p) w) !! path))
          ∧ (∀ path, (∀ slug, path ≠ binaryPath slug) ->
                     disk (saveCallback (timer_slug p) w) !! path = disk w !! path))
    as [Hkeep1 Hsame1].
  { unfold saveCallback. destruct (communities w !! timer_slug p); [| done].
    cbn [Bun_write disk]. split.
    - intros path Hpath. destruct (decide (binaryPath (timer_slug p) = path)) as [<- | Hne].
      + rewrite lookup_insert_eq. by eexists.
      + by rewrite lookup_insert_ne.
    - intros path Hpath. rewrite lookup_insert_ne; [done |].
      intros Heq. by apply (Hpath (timer_slug p)). }
  split.
  - intros path Hpath. by apply Hkeep, Hkeep1.
  - intros path Hpath. rewrite Hsame by done. by apply Hsame1.
Qed.

Lemma step_keeps_files (w w' : World) :
  step w w' ->
  (∀ path, is_Some (disk w !! path) -> is_Some (disk w' !! path))
  ∧ (∀ path, (∀ slug, path ≠ binaryPath slug) -> disk w' !! path = disk w !! path)
  ∧ (∀ slug, disk w' !! jsonPath slug = disk w !! jsonPath slug).
Proof.
  intros Hstep.
  assert ((∀ path, is_Some (disk w !! path) -> is_Some (disk w' !! path))
          ∧ (∀ path, (∀ slug, path ≠ binaryPath slug) ->
                     disk w' !! path = disk w !! path)) as [Hkeep Hsame].
  { eapply (preserved_by_step
              (λ v, (∀ path, is_Some (disk w !! path) -> is_Some (disk v !! path))
                    ∧ (∀ path, (∀ slug, path ≠ binaryPath slug) ->
                               disk v !! path = disk w !! path)));
      [| | | | exact Hstep |].
    - done.
    - done.
    - intros v s Hv. by rewrite (proj1 (proj2 (proj2 (saveCommunity_frame v s)))).
    - intros v dt [Hv1 Hv2]. unfold advance.
      match goal with
      | |- context [foldl ?f ?w0 ?l] => destruct (fire_disk_frame l w0) as [Hk Hs]
      end.
      split.
      + intros path Hpath. by apply Hk, Hv1.
      + intros path Hpath. rewrite Hs by done. by apply Hv2.
    - done. }
  split; [done |]. split; [done |].
  intros slug. apply Hsame. intros s. apply jsonPath_not_binaryPath.
Qed.

(** ** Timers of the reachable states *)

Lemma timers_window_reachable (w : World) : reachable w -> timers_window w.
Proof.
  apply (preserved_when_reachable timers_window).
  - intros v s doc Hv p Hp.
    destruct (Hv p Hp) as (Hlow & Hhigh & Hdoc). split; [done |]. split; [done |].
    cbn [with_communities communities].
    destruct (decide (s = timer_slug p)) as [-> | Hs].
    + rewrite lookup_insert_eq. by eexists.
    + by rewrite lookup_insert_ne.
  - done.
  - intros v s Hv.
    destruct (communities v !! s) as [doc |] eqn:Hdoc;
      [| by rewrite saveCommunity_absent].
    destruct (saveCommunity_timers v s ltac:(by eexists)) as (Hp & _ & _).
    destruct (saveCommunity_frame v s) as (Hc & _ & _ & _ & Hclock).
    intros p. rewrite Hp, Hc, Hclock.
    intros [Hin | ->%list_elem_of_singleton]%elem_of_app.
    + apply Hv. destruct (saveTimers v !! s); [| done].
      by apply list_elem_of_filter in Hin as [_ Hin].
    + cbn [timer_due timer_slug]. rewrite Hdoc. unfold SAVE_DELAY.
      split; [lia |]. split; [lia | by eexists].
  - intros v dt Hv p.
    destruct (advance_frame dt v) as (-> & _ & _ & -> & _ & ->).
    intros [Hlate Hin]%list_elem_of_filter.
    destruct (Hv p Hin) as (Hlow & Hhigh & Hdoc).
    split; [lia |]. split; [lia | done].
  - intros files now p Hp. by apply elem_of_nil in Hp.
Qed.

Lemma handles_distinct_reachable (w : World) : reachable w -> handles_distinct w.
Proof.
  apply (preserved_when_reachable handles_distinct).
  - done.
  - done.
  - intros v s [Hlt Hinj].
    destruct (communities v !! s) as [doc |] eqn:Hdoc;
      [| by rewrite saveCommunity_absent].
    destruct (saveCommunity_timers v s ltac:(by eexists)) as (_ & Hs & Hn).
    unfold handles_distinct. rewrite Hs, Hn. split.
    + intros s' i [[_ <-] | [_ Hi]]%lookup_insert_Some; [lia |].
      specialize (Hlt s' i Hi). lia.
    + intros s1 s2 i [[<- <-] | [Hs1 Hi1]]%lookup_insert_Some
                       [[<- Heq] | [Hs2 Hi2]]%lookup_insert_Some.
      * done.
      * specialize (Hlt s2 _ Hi2). lia.
      * specialize (Hlt s1 _ Hi1). lia.
      * by apply (Hinj s1 s2 i).
  - intros v dt Hv. unfold handles_distinct.
    by destruct (advance_frame dt v) as (_ & _ & -> & _ & -> & _).
  - intros files now. split.
    + intros s i. cbn [initial saveTimers]. by rewrite lookup_empty.
    + intros s1 s2 i. cbn [initial saveTimers]. by rewrite lookup_empty.
Qed.


Lemma filter_ext_in {A} (P Q : A -> Prop) `{!∀ x, Decision (P x), !∀ x, Decision (Q x)}
    (l : list A) :
  (∀ x, x ∈ l -> P x ↔ Q x) -> filter P l = filter Q l.
Proof.
  induction l as [| x l IH]; intros Hext; [done |].
  rewrite !filter_cons, IH by (intros y Hy; apply Hext; by right).
  destruct (decide (P x)) as [HP | HP], (decide (Q x)) as [HQ | HQ]; try done.
  - destruct HQ. apply Hext; [left | done].
  - destruct HP. apply Hext; [left | done].
Qed.

(** X2.  In a reachable state [saveCommunity] of one document leaves the
    pending timers of every other document as they were. *)
Theorem other_timers_untouched (w : World) (slug other : string) :
  reachable w -> other ≠ slug ->
  timersOf other (saveCommunity w slug) = timersOf other w.
Proof.
  intros Hw Hother.
  destruct (reachable_inv w Hw) as [[Hheld _] _].
  destruct (handles_distinct_reachable w Hw) as [_ Hinj].
  destruct (communities w !! slug) as [doc |] eqn:Hdoc;
    [| by rewrite saveCommunity_absent].
  destruct (saveCommunity_timers w slug ltac:(by eexists)) as (Hp & _ & _).
  unfold timersOf. rewrite Hp, filter_app.
  rewrite filter_cons, decide_False, filter_nil, app_nil_r by (simpl; congruence).
  destruct (saveTimers w !! slug) as [old |] eqn:Hold; [| done].
  rewrite list_filter_filter. apply filter_ext_in.
  intros q Hq. split; [by intros [? _] |]. intros Hslug. split; [done |].
  intros Hid. destruct (Hheld q Hq) as [Hq' _].
  rewrite Hslug, Hid in Hq'. by apply Hother, (Hinj other slug old).
Qed.

(** X3.  Along every run of the store a cached document stays cached. *)
Theorem cache_never_evicts (w w' : World) (slug : string) :
  rtc step w w' -> is_Some (communities w !! slug) -> is_Some (communities w' !! slug).
Proof.
  induction 1 as [| v v1 v2 Hstep _ IH]; [done |].
  intros Hcached. by apply IH, (step_keeps_cache v).
Qed.

(** X4.  Along every run of the store no file is removed, a file that is
    not the canonical record of a document keeps its contents, and so does
    every legacy record. *)
Theorem files_are_kept (w w' : World) :
  rtc step w w' ->
  (∀ path, is_Some (disk w !! path) -> is_Some (disk w' !! path))
  ∧ (∀ path, (∀ slug, path ≠ binaryPath slug) -> disk w' !! path = disk w !! path)
  ∧ (∀ slug, disk w' !! jsonPath slug = disk w !! jsonPath slug).
Proof.
  induction 1 as [| v v1 v2 Hstep _ (IHkeep & IHsame & IHjson)]; [done |].
  destruct (step_keeps_files v v1 Hstep) as (Hkeep & Hsame & Hjson).
  split; [| split].
  - intros path Hpath. by apply IHkeep, Hkeep.
  - intros path Hpath. rewrite IHsame by done. by apply Hsame.
  - intros slug. by rewrite IHjson.
Qed.

(** ** Writes *)

(** X5.  No call of an exported function writes a file or moves the clock:
    the files and the write log are as they were when it returns. *)
Theorem calls_write_nothing (w w' : World) :
  call w w' -> disk w' = disk w ∧ writeLog w' = writeLog w ∧ clock w' = clock w.
Proof.
  intros Hcall.
  eapply (preserved_by_call
            (λ v, disk v = disk w ∧ writeLog v = writeLog w ∧ clock v = clock w));
    [| | | exact Hcall |]; try done.
  intros v s (Hd & Hl & Hc).
  destruct (saveCommunity_frame v s) as (_ & _ & -> & -> & ->). done.
Qed.

Lemma fire_log (due : list Timer) (w : World) :
  writeLog (foldl (λ acc p, saveCallback (timer_slug p) acc) w due)
    = writeLog w
      ++ omap (λ p, (λ doc, (binaryPath (timer_slug p), Automerge.save doc))
                      <$> communities w !! timer_slug p) due.
Proof.
  revert w. induction due as [| p due IH]; intros w.
  - simpl. by rewrite app_nil_r.
  - cbn [foldl]. rewrite IH. cbn [omap list_omap].
    rewrite (proj1 (saveCallback_frame (timer_slug p) w)).
    unfold saveCallback at 1.
    destruct (communities w !! timer_slug p) as [doc |]; simpl; [| done].
    by rewrite <- app_assoc.
Qed.

(** X6.  When time passes, the writes made are one per due timer of a
    cached document, in the order the timers were armed, each of the
    replica cached for its document, to the canonical path of the document;
    in a reachable state every due timer makes one. *)
Theorem advance_writes_due_timers (w : World) (dt : N) :
  writeLog (advance dt w)
    = writeLog w
      ++ omap (λ p, (λ doc, (binaryPath (timer_slug p), Automerge.save doc))
                      <$> communities w !! timer_slug p)
           (filter (λ p, (timer_due p <= clock w + dt)%N) (pendingTimers w))
  ∧ (reachable w ->
     length (writeLog (advance dt w))
       = length (writeLog w)
         + length (filter (λ p, (timer_due p <= clock w + dt)%N) (pendingTimers w))).
Proof.
  assert (writeLog (advance dt w)
          = writeLog w
            ++ omap (λ p, (λ doc, (binaryPath (timer_slug p), Automerge.save doc))
                            <$> communities w !! timer_slug p)
                 (filter (λ p, (timer_due p <= clock w + dt)%N) (pendingTimers w)))
    as Hlog.
  { unfold advance. by rewrite fire_log. }
  split; [done |].
  intros Hw. rewrite Hlog, length_app. f_equal.
  pose proof (timers_window_reachable w Hw) as Hwindow.
  assert (∀ p, p ∈ filter (λ p, (timer_due p <= clock w + dt)%N) (pendingTimers w) ->
               is_Some (communities w !! timer_slug p)) as Hcached.
  { intros p [_ Hp]%list_elem_of_filter. by apply Hwindow. }
  revert Hcached.
  generalize (filter (λ p, (timer_due p <= clock w + dt)%N) (pendingTimers w)).
  intros due. induction due as [| p due IH]; intros Hcached; [done |].
  cbn [omap list_omap].
  destruct (Hcached p (list_elem_of_here _ _)) as [doc ->]. simpl. f_equal.
  apply IH. intros q Hq. by apply Hcached, list_elem_of_further.
Qed.

(** ** Loading, creating and existence *)

Lemma communityExists_true (w : World) (slug : string) :
  communityExists w slug = true
  ↔ is_Some (communities w !! slug) ∨ is_Some (disk w !! binaryPath slug)
    ∨ is_Some (disk w !! jsonPath slug).
Proof.
  unfold communityExists. case_decide as Hcached.
  - split; [by left | done].
  - rewrite orb_true_iff, !bool_decide_eq_true.
    split; [intros [? | ?]; auto |].
    intros [? | [? | ?]]; [done | by left | by right].
Qed.

Lemma loadCommunity_cached (w : World) (slug : string) (doc : Automerge.Doc) :
  (loadCommunity w slug).2 = Some doc ->
  communities (loadCommunity w slug).1 !! slug = Some doc.
Proof.
  unfold loadCommunity.
  destruct (communities w !! slug) as [cached |] eqn:Hcached.
  { simpl. by intros [= <-]. }
  assert (∀ found (w1 : World), communities w1 !! slug = Some found ->
            communities (saveCommunity w1 slug) !! slug = Some found) as Hsaved.
  { intros found w1 Hfound. by rewrite (proj1 (saveCommunity_frame w1 slug)). }
  repeat match goal with
         | |- context [match ?x with _ => _ end] => destruct x eqn:?; simpl
         end.
  all: try done.
  all: intros [= <-].
  all: try apply Hsaved.
  all: cbn [with_communities communities]; apply lookup_insert_eq.
Qed.

(** X7.  [communityExists] holds exactly when the document is cached or one
    of its two records is on disk.  Where it fails [loadCommunity] returns
    [null] and changes nothing; where [loadCommunity] returns a document
    [communityExists] held before and holds after, and a second
    [loadCommunity] returns the same document and changes nothing. *)
Theorem load_and_exists (w : World) (slug : string) :
  (communityExists w slug = true
   ↔ is_Some (communities w !! slug) ∨ is_Some (disk w !! binaryPath slug)
     ∨ is_Some (disk w !! jsonPath slug))
  ∧ (communityExists w slug = false -> loadCommunity w slug = (w, None))
  ∧ (∀ doc, (loadCommunity w slug).2 = Some doc ->
       communityExists w slug = true
       ∧ communityExists (loadCommunity w slug).1 slug = true
       ∧ loadCommunity (loadCommunity w slug).1 slug
         = ((loadCommunity w slug).1, Some doc)).
Proof.
  split; [apply communityExists_true |]. split.
  - intros Hnot.
    assert (¬ (is_Some (communities w !! slug) ∨ is_Some (disk w !! binaryPath slug)
               ∨ is_Some (disk w !! jsonPath slug))) as Hnone.
    { rewrite <- communityExists_true. by rewrite Hnot. }
    unfold loadCommunity.
    destruct (communities w !! slug); [destruct Hnone; left; by eexists |].
    destruct (disk w !! binaryPath slug);
      [destruct Hnone; right; left; by eexists |].
    destruct (disk w !! jsonPath slug); [destruct Hnone; right; right; by eexists |].
    done.
  - intros doc Hdoc.
    pose proof (loadCommunity_cached w slug doc Hdoc) as Hcached.
    split; [| split].
    + destruct (communityExists w slug) eqn:Hexists; [done |].
      assert (loadCommunity w slug = (w, None)) as Hnone.
      { unfold loadCommunity.
        assert (¬ (is_Some (communities w !! slug)
                   ∨ is_Some (disk w !! binaryPath slug)
                   ∨ is_Some (disk w !! jsonPath slug))) as Hnot.
        { rewrite <- communityExists_true. by rewrite Hexists. }
        destruct (communities w !! slug); [destruct Hnot; left; by eexists |].
        destruct (disk w !! binaryPath slug);
          [destruct Hnot; right; left; by eexists |].
        destruct (disk w !! jsonPath slug);
          [destruct Hnot; right; right; by eexists |].
        done. }
      by rewrite Hnone in Hdoc.
    + apply communityExists_true. left. by eexists.
    + unfold loadCommunity at 1. by rewrite Hcached.
Qed.

(** X8.  [createCommunity] does not look for an existing document: whatever
    the cache and the disk held under the slug, afterwards the cache holds
    the new document there, [communityExists] holds, [loadCommunity]
    returns the new document, and a save is scheduled.  No other cache
    entry, no file and no peer entry changes. *)
Theorem createCommunity_replaces (w : World) (name slug : string) :
  (createCommunity w name slug).2
    = Automerge.change Automerge.init "Create community"
        (createMutator name slug (toISOString (clock w)))
  ∧ communities (createCommunity w name slug).1
    = <[slug := (createCommunity w name slug).2]> (communities w)
  ∧ communityExists (createCommunity w name slug).1 slug = true
  ∧ loadCommunity (createCommunity w name slug).1 slug
    = ((createCommunity w name slug).1, Some (createCommunity w name slug).2)
  ∧ armedAt slug (nextTimerId w) (clock w + SAVE_DELAY) (createCommunity w name slug).1
  ∧ disk (createCommunity w name slug).1 = disk w
  ∧ peerSyncStates (createCommunity w name slug).1 = peerSyncStates w.
Proof.
  unfold createCommunity. cbn [fst snd].
  set (doc := Automerge.change Automerge.init "Create community"
                (createMutator name slug (toISOString (clock w)))).
  set (w1 := with_communities (insert slug doc) w).
  destruct (saveCommunity_frame w1 slug) as (Hc & Hp & Hd & _ & _).
  assert (communities (saveCommunity w1 slug) !! slug = Some doc) as Hcached.
  { rewrite Hc. subst w1. cbn [with_communities communities]. apply lookup_insert_eq. }
  split; [done |]. split; [by rewrite Hc |].
  split; [apply communityExists_true; left; by eexists |].
  split; [unfold loadCommunity; by rewrite Hcached |].
  split; [| by rewrite Hd, Hp].
  apply (saveCommunity_armed w1 slug). subst w1.
  cbn [with_communities communities]. rewrite lookup_insert_eq. by eexists.
Qed.

Lemma World_eq (v w : World) :
  communities v = communities w -> peerSyncStates v = peerSyncStates w ->
  saveTimers v = saveTimers w -> disk v = disk w -> writeLog v = writeLog w ->
  pendingTimers v = pendingTimers w -> nextTimerId v = nextTimerId w ->
  clock v = clock w -> v = w.
Proof. destruct v, w; simpl. by intros -> -> -> -> -> -> -> ->. Qed.

(** X9.  [getPeerSyncState] returns the cursor the table holds for the
    peer, or the initial one, with [lastActivity] set to now; the table
    then holds what it returned, every other entry is as it was, and a
    second call at the same time returns the same and changes nothing. *)
Theorem getPeerSyncState_refreshes (w : World) (slug peer : string) :
  (getPeerSyncState w slug peer).2
    = {| syncState := cursorOf w slug peer; lastActivity := clock w |}
  ∧ peerEntry (getPeerSyncState w slug peer).1 slug peer
    = Some (getPeerSyncState w slug peer).2
  ∧ (∀ s p, ¬ (s = slug ∧ p = peer) ->
       peerEntry (getPeerSyncState w slug peer).1 s p = peerEntry w s p)
  ∧ getPeerSyncState (getPeerSyncState w slug peer).1 slug peer
    = getPeerSyncState w slug peer.
Proof.
  split; [apply getPeerSyncState_returns |]. split; [| split].
  - rewrite peerEntry_getPeerSyncState. by rewrite decide_True.
  - intros s p Hother. rewrite peerEntry_getPeerSyncState. by rewrite decide_False.
  - assert (peerEntry (getPeerSyncState w slug peer).1 slug peer
            = Some (getPeerSyncState w slug peer).2) as Hentry.
    { rewrite peerEntry_getPeerSyncState. by rewrite decide_True. }
    assert ((getPeerSyncState (getPeerSyncState w slug peer).1 slug peer).2
            = (getPeerSyncState w slug peer).2) as Hsame.
    { rewrite (getPeerSyncState_returns (getPeerSyncState w slug peer).1).
      rewrite Hentry. by rewrite (getPeerSyncState_returns w). }
    apply injective_projections; [| done].
    apply World_eq; try done.
    destruct (getPeerSyncState_table (getPeerSyncState w slug peer).1 slug peer)
      as (cp & -> & ->).
    rewrite Hsame.
    destruct (getPeerSyncState_table w slug peer) as (cp0 & Htable0 & _).
    rewrite Htable0 at 1 2. rewrite lookup_insert_eq. cbn [default from_option id].
    unfold default; cbn [from_option id].
    by rewrite !insert_insert_eq.
Qed.

(** ** Peers and sync messages *)

Lemma getCommunityPeers_elem (w : World) (slug peer : string) :
  peer ∈ getCommunityPeers w slug ↔ is_Some (peerEntry w slug peer).
Proof.
  unfold getCommunityPeers, peerEntry.
  destruct (peerSyncStates w !! slug) as [found |]; simpl.
  - rewrite list_elem_of_fmap. split.
    + intros ([p ps] & -> & Hin). apply elem_of_map_to_list in Hin. by eexists.
    + intros [ps Hps]. exists (peer, ps). split; [done |].
      by apply elem_of_map_to_list.
  - split; [by intros ?%elem_of_nil | by intros [? ?]].
Qed.

(** X10.  [getCommunityPeers] lists, each once, the peers the table holds
    an entry for: none for a document without a collection, one more after
    [getPeerSyncState], one fewer after [removePeerSyncState]. *)
Theorem getCommunityPeers_tracks (w : World) (slug peer : string) :
  NoDup (getCommunityPeers w slug)
  ∧ (∀ p, p ∈ getCommunityPeers w slug ↔ is_Some (peerEntry w slug p))
  ∧ (peerSyncStates w !! slug = None -> getCommunityPeers w slug = [])
  ∧ (∀ p, p ∈ getCommunityPeers (getPeerSyncState w slug peer).1 slug
          ↔ p = peer ∨ p ∈ getCommunityPeers w slug)
  ∧ (∀ p, p ∈ getCommunityPeers (removePeerSyncState w slug peer) slug
          ↔ p ≠ peer ∧ p ∈ getCommunityPeers w slug).
Proof.
  split; [| split; [| split; [| split]]].
  - unfold getCommunityPeers. destruct (peerSyncStates w !! slug); [| constructor].
    apply NoDup_fst_map_to_list.
  - intros p. apply getCommunityPeers_elem.
  - intros Hnone. unfold getCommunityPeers. by rewrite Hnone.
  - intros p. rewrite !getCommunityPeers_elem, peerEntry_getPeerSyncState.
    destruct (decide (p = peer)) as [-> | Hp].
    + rewrite decide_True by done. split; [by left | by eexists].
    + rewrite decide_False by (by intros [_ ?]).
      split; [by right | by intros [? | ?]].
  - intros p. rewrite !getCommunityPeers_elem, peerEntry_removePeerSyncState.
    destruct (decide (p = peer)) as [-> | Hp].
    + rewrite decide_True by done. split; [by intros [? ?] | by intros [? _]].
    + rewrite decide_False by (by intros [_ ?]). split; [done | by intros [_ ?]].
Qed.

Lemma generateSyncMessageForPeer_resident (w : World) (slug peer : string)
    (doc : Automerge.Doc) :
  communities w !! slug = Some doc ->
  generateSyncMessageForPeer w slug peer
    = (setSyncState slug peer
         (Automerge.generateSyncMessage doc (cursorOf w slug peer)).1
         (getPeerSyncState w slug peer).1,
       (Automerge.generateSyncMessage doc (cursorOf w slug peer)).2).
Proof.
  intros Hdoc. unfold generateSyncMessageForPeer. rewrite Hdoc.
  rewrite <- getPeerSyncState_cursor.
  destruct (getPeerSyncState w slug peer) as [w1 ps]. cbn [fst snd].
  by destruct (Automerge.generateSyncMessage doc (syncState ps)).
Qed.

(** X11.  [generateSyncMessageForPeer] on a cached document returns the
    message the library generates from the cursor of the peer and stores
    the cursor the library returns, with [lastActivity] set to now; the
    entries of the other peers, the cache, the timers and the files are as
    they were. *)
Theorem generateSyncMessageForPeer_advances (w : World) (slug peer : string)
    (doc : Automerge.Doc) :
  communities w !! slug = Some doc ->
  (generateSyncMessageForPeer w slug peer).2
    = (Automerge.generateSyncMessage doc (cursorOf w slug peer)).2
  ∧ peerEntry (generateSyncMessageForPeer w slug peer).1 slug peer
    = Some {| syncState := (Automerge.generateSyncMessage doc (cursorOf w slug peer)).1;
              lastActivity := clock w |}
  ∧ (∀ s p, ¬ (s = slug ∧ p = peer) ->
       peerEntry (generateSyncMessageForPeer w slug peer).1 s p = peerEntry w s p)
  ∧ communities (generateSyncMessageForPeer w slug peer).1 = communities w
  ∧ pendingTimers (generateSyncMessageForPeer w slug peer).1 = pendingTimers w
  ∧ saveTimers (generateSyncMessageForPeer w slug peer).1 = saveTimers w
  ∧ disk (generateSyncMessageForPeer w slug peer).1 = disk w.
Proof.
  intros Hdoc. rewrite (generateSyncMessageForPeer_resident w slug peer doc Hdoc).
  cbn [fst snd]. split; [done |]. split; [| split; [| done]].
  - rewrite peerEntry_setSyncState, peerEntry_getPeerSyncState.
    rewrite !decide_True by done. by rewrite getPeerSyncState_returns.
  - intros s p Hother.
    rewrite peerEntry_setSyncState, peerEntry_getPeerSyncState.
    by rewrite !decide_False by done.
Qed.

(** X12.  [receiveSyncMessage] on a cached document whose merge succeeds,
    with or without patches: the cache holds the merged replica under the
    slug and nothing else changes in it; the answer is the message the
    library generates from the merged replica and the cursor of the merge;
    the entry of the sender holds the cursor that generation returns, with
    [lastActivity] set to now; no file is written. *)
Theorem receiveSyncMessage_sender (w : World) (slug peer : string) (delta : bytes)
    (doc newDoc : Automerge.Doc) (newSyncState : Automerge.SyncState)
    (patch : option (list Automerge.Patch)) :
  communities w !! slug = Some doc ->
  Automerge.receiveSyncMessage doc (cursorOf w slug peer) delta
    = Some (newDoc, newSyncState, patch) ->
  communities (receiveSyncMessage w slug peer delta).1
    = <[slug := newDoc]> (communities w)
  ∧ (∃ fanout,
       (receiveSyncMessage w slug peer delta).2
         = Returned {| response := (Automerge.generateSyncMessage newDoc newSyncState).2;
                       broadcastToPeers := fanout |})
  ∧ peerEntry (receiveSyncMessage w slug peer delta).1 slug peer
    = Some {| syncState := (Automerge.generateSyncMessage newDoc newSyncState).1;
              lastActivity := clock w |}
  ∧ disk (receiveSyncMessage w slug peer delta).1 = disk w.
Proof.
  intros Hdoc Hmerge. rewrite <- getPeerSyncState_cursor in Hmerge.
  destruct (receiveSyncMessage_resident w slug peer delta doc newDoc newSyncState
              patch Hdoc Hmerge) as (w5 & communityPeers & Hw5 & Hpeers & ->).
  assert (communities w5 = <[slug := newDoc]> (communities w)
          ∧ disk w5 = disk w
          ∧ peerEntry w5 slug peer
            = Some {| syncState := (Automerge.generateSyncMessage newDoc newSyncState).1;
                      lastActivity := clock w |}) as (Hc & Hd & He).
  { subst w5. cbn zeta. destruct (hasPatches patch).
    - match goal with
      | |- context [saveCommunity ?w3 slug] =>
        destruct (saveCommunity_frame w3 slug) as (Hc & _ & Hd & _ & _)
      end.
      split; [exact Hc |]. split; [exact Hd |].
      rewrite peerEntry_setSyncState, peerEntry_saveCommunity,
        peerEntry_setSyncState, peerEntry_with_communities,
        peerEntry_getPeerSyncState.
      rewrite !decide_True by done. by rewrite getPeerSyncState_returns.
    - split; [done |]. split; [done |].
      rewrite !peerEntry_setSyncState, peerEntry_with_communities,
        peerEntry_getPeerSyncState.
      rewrite !decide_True by done. by rewrite getPeerSyncState_returns. }
  destruct (hasPatches patch); cbn [fst snd].
  - split; [done |]. split; [by eexists |]. split; [| done].
    rewrite (peerEntry_catchUp _ _ _ _ _ _ _ Hpeers), decide_True by done.
    rewrite He. simpl. unfold catchUpState. by rewrite decide_False by (by intros ?).
  - split; [done |]. split; [by eexists |]. done.
Qed.

(** X13.  When the library rejects the delta, [receiveSyncMessage] throws
    after [getPeerSyncState] has run: the sender has an entry, with the
    cursor it had or the initial one, and nothing else has changed; the
    replica is not replaced and no save is scheduled. *)
Theorem receiveSyncMessage_rejected (w : World) (slug peer : string) (delta : bytes)
    (doc : Automerge.Doc) :
  communities w !! slug = Some doc ->
  Automerge.receiveSyncMessage doc (cursorOf w slug peer) delta = None ->
  receiveSyncMessage w slug peer delta = ((getPeerSyncState w slug peer).1, Thrown)
  ∧ communities (receiveSyncMessage w slug peer delta).1 = communities w
  ∧ pendingTimers (receiveSyncMessage w slug peer delta).1 = pendingTimers w
  ∧ saveTimers (receiveSyncMessage w slug peer delta).1 = saveTimers w
  ∧ disk (receiveSyncMessage w slug peer delta).1 = disk w
  ∧ peerEntry (receiveSyncMessage w slug peer delta).1 slug peer
    = Some {| syncState := cursorOf w slug peer; lastActivity := clock w |}
  ∧ (∀ s p, ¬ (s = slug ∧ p = peer) ->
       peerEntry (receiveSyncMessage w slug peer delta).1 s p = peerEntry w s p).
Proof.
  intros Hdoc Hmerge. rewrite <- getPeerSyncState_cursor in Hmerge.
  assert (receiveSyncMessage w slug peer delta
          = ((getPeerSyncState w slug peer).1, Thrown)) as ->.
  { unfold receiveSyncMessage. rewrite Hdoc.
    destruct (getPeerSyncState w slug peer) as [w1 ps]. cbn [fst snd] in *.
    by rewrite Hmerge. }
  cbn [fst]. do 5 (split; [done |]). split.
  - rewrite peerEntry_getPeerSyncState, decide_True by done.
    by rewrite getPeerSyncState_returns.
  - intros s p Hother. by rewrite peerEntry_getPeerSyncState, decide_False.
Qed.

(** ** Restart *)

(** X14.  A restart keeps what was scheduled and written.  Take a reachable
    state with a pending timer for a document, let [SAVE_DELAY] pass, and
    start again from the files alone, with empty tables: if the library
    loads what it saved for that replica, [loadCommunity] returns the
    replica that was cached, from the canonical record. *)
Theorem restart_recovers (w : World) (p : Timer) (doc : Automerge.Doc) (dt now : N) :
  reachable w -> p ∈ pendingTimers w -> (SAVE_DELAY <= dt)%N ->
  communities w !! timer_slug p = Some doc ->
  Automerge.load (Automerge.save doc) = Some doc ->
  loadCommunity (initial (disk (advance dt w)) now) (timer_slug p)
    = (with_communities (insert (timer_slug p) doc) (initial (disk (advance dt w)) now),
       Some doc).
Proof.
  intros Hw Hp Hdt Hdoc Hload.
  destruct (timers_window_reachable w Hw p Hp) as (_ & Hhigh & _).
  destruct (advance_writes dt w (timer_slug p) doc Hdoc) as (_ & Hdisk & _).
  assert (p ∈ filter (λ q, (timer_due q <= clock w + dt)%N)
                (timersOf (timer_slug p) w)) as Hdue.
  { apply list_elem_of_filter. split; [lia |].
    unfold timersOf. by apply list_elem_of_filter. }
  destruct (filter _ (timersOf (timer_slug p) w)); [by apply elem_of_nil in Hdue |].
  unfold loadCommunity. cbn [initial communities disk].
  by rewrite lookup_empty, Hdisk, Hload.
Qed.

(** ** File names and slugs *)

Lemma endsWith_true (s suffix : string) :
  endsWith s suffix = true ↔ ∃ front, s = front +:+ suffix.
Proof.
  induction s as [| c s IH]; simpl.
  - rewrite orb_false_r, bool_decide_eq_true. split.
    + intros <-. by exists "".
    + intros ([| ? ?] & Heq); [done | discriminate].
  - rewrite orb_true_iff, bool_decide_eq_true, IH. split.
    + intros [<- | (front & ->)]; [by exists "" | by exists (String c front)].
    + intros ([| x front] & Heq); [by left |].
      injection Heq as -> ->. right. by exists front.
Qed.

Lemma prefix_true (p s : string) :
  String.prefix p s = true ↔ s = p +:+ dropChars (String.length p) s.
Proof.
  revert s. induction p as [| a p IH]; intros s.
  - by destruct s.
  - destruct s as [| b s]; [done |]. simpl.
    destruct (ascii_dec a b) as [-> | Hab].
    + split.
      * intros Hp. apply IH in Hp.
        change (String b s = String b (p +:+ dropChars (String.length p) s)).
        by f_equal.
      * change (String b s = String b (p +:+ dropChars (String.length p) s) ->
                String.prefix p s = true).
        intros [= Hs]. by apply IH.
    + split; [done |].
      change (String b s = String a (p +:+ dropChars (String.length p) s) -> false = true).
      intros [= ->]. done.
Qed.

Lemma prefix_app (p s : string) : String.prefix p (p +:+ s) = true.
Proof.
  induction p as [| a p IH]; simpl; [by destruct s |].
  by destruct (ascii_dec a a).
Qed.

Lemma dropChars_app (p s : string) : dropChars (String.length p) (p +:+ s) = s.
Proof. induction p as [| a p IH]; simpl; [by destruct s | done]. Qed.

Lemma countChar_app (c : ascii) (a b : string) :
  countChar c (a +:+ b) = countChar c a + countChar c b.
Proof. induction a as [| x a IH]; simpl; [done | rewrite IH; lia]. Qed.

Lemma string_app_cons (c : ascii) (a b : string) :
  String c a +:+ b = String c (a +:+ b).
Proof. done. Qed.

Lemma string_app_nil_r (a : string) : a +:+ "" = a.
Proof. induction a as [| c a IH]; [done |]. by rewrite string_app_cons, IH. Qed.

Lemma replaceFirst_found (p r s : string) :
  String.prefix p s = true ->
  replaceFirst p r s = r +:+ dropChars (String.length p) s.
Proof. intros Hp. destruct s; simpl in *; by rewrite Hp. Qed.

Lemma replaceFirst_later (p r : string) (c : ascii) (s : string) :
  String.prefix p (String c s) = false ->
  replaceFirst p r (String c s) = String c (replaceFirst p r s).
Proof. intros Hp. simpl in *. by rewrite Hp. Qed.


Lemma prefix_other_head (a b : ascii) (p s : string) :
  a ≠ b -> String.prefix (String a p) (String b s) = false.
Proof. intros Hab. simpl. by destruct (ascii_dec a b). Qed.

Lemma stem_then_extension (ext slug : string) :
  isExtension ext -> countChar "." slug = 0 ->
  endsWith (slug +:+ ext) ext = true
  ∧ replaceFirst ext "" (slug +:+ ext) = slug.
Proof.
  intros (rest & -> & Hrest) Hslug. split.
  - apply endsWith_true. by exists slug.
  - induction slug as [| c slug IH].
    + change ("" +:+ String "." rest) with (String "." rest).
      rewrite replaceFirst_found.
      * rewrite <- (string_app_nil_r (String "." rest)) at 2.
        by rewrite dropChars_app.
      * rewrite <- (string_app_nil_r (String "." rest)) at 2. apply prefix_app.
    + simpl in Hslug. destruct (decide (c = "."%char)) as [-> | Hc]; [lia |].
      rewrite string_app_cons, replaceFirst_later.
      * f_equal. apply IH. lia.
      * apply prefix_other_head. congruence.
Qed.

Lemma extension_then_stem (ext f : string) :
  isExtension ext -> endsWith f ext = true ->
  countChar "." (replaceFirst ext "" f) = 0 ->
  f = replaceFirst ext "" f +:+ ext.
Proof.
  intros (rest & -> & Hrest). induction f as [| c f IH]; intros Hends Hcount.
  - apply endsWith_true in Hends as ([| ? ?] & Heq); discriminate Heq.
  - destruct (String.prefix (String "." rest) (String c f)) eqn:Hprefix.
    + rewrite replaceFirst_found in Hcount |- * by done.
      change ("" +:+ ?x) with x in *.
      apply prefix_true in Hprefix.
      set (tail := dropChars (String.length (String "." rest)) (String c f)) in *.
      apply endsWith_true in Hends as (front & Hfront).
      assert (countChar "." front = 0) as Hnone.
      { apply (f_equal (countChar ".")) in Hfront.
        rewrite Hprefix in Hfront at 1. rewrite !countChar_app in Hfront.
        simpl in Hfront. lia. }
      destruct front as [| x front].
      * change ("" +:+ ?x) with x in Hfront.
        rewrite Hfront in Hprefix at 1.
        rewrite <- (string_app_nil_r (String "." rest)) in Hprefix at 1.
        apply (inj (String.app (String "." rest))) in Hprefix.
        by rewrite <- Hprefix, Hfront.
      * rewrite Hprefix in Hfront. rewrite !string_app_cons in Hfront.
        injection Hfront as <- _. cbn [countChar] in Hnone.
        rewrite decide_True in Hnone by done. lia.
    + rewrite replaceFirst_later in Hcount |- * by done.
      simpl in Hcount. rewrite string_app_cons. f_equal.
      simpl in Hends. apply orb_true_iff in Hends as [Heq | Hends].
      * apply bool_decide_eq_true in Heq. rewrite Heq in Hprefix.
        rewrite <- (string_app_nil_r (String "." rest)) in Hprefix at 2.
        by rewrite prefix_app in Hprefix.
      * apply IH; [done | lia].
Qed.
Lemma automerge_is_extension : isExtension ".automerge".
Proof. by exists "automerge". Qed.

Lemma json_is_extension : isExtension ".json".
Proof. by exists "json". Qed.

Lemma setAdd_elem (x y : string) (slugs : list string) :
  x ∈ setAdd y slugs ↔ x = y ∨ x ∈ slugs.
Proof.
  unfold setAdd. case_decide as Hin.
  - split; [by right | by intros [-> | ?]].
  - rewrite elem_of_app, list_elem_of_singleton. tauto.
Qed.

Lemma setAdd_NoDup (y : string) (slugs : list string) :
  NoDup slugs -> NoDup (setAdd y slugs).
Proof.
  unfold setAdd. case_decide as Hin; [done |]. intros Hdup.
  apply NoDup_app. split; [done |]. split; [| apply NoDup_singleton].
  intros x Hx ->%list_elem_of_singleton. done.
Qed.

Lemma listing_fold (names slugs : list string) :
  let result := foldl (λ acc f, match slugOfFile f with
                                | Some slug => setAdd slug acc
                                | None => acc
                                end) slugs names in
  (NoDup slugs -> NoDup result)
  ∧ (∀ slug, slug ∈ result
             ↔ slug ∈ slugs ∨ ∃ f, f ∈ names ∧ slugOfFile f = Some slug).
Proof.
  revert slugs. induction names as [| f names IH]; intros slugs.
  - simpl. split; [done |]. intros slug. split; [by left |].
    intros [? | (f & Hf & _)]; [done | by apply elem_of_nil in Hf].
  - cbn [foldl]. cbn zeta.
    destruct (IH (match slugOfFile f with
                  | Some slug => setAdd slug slugs
                  | None => slugs
                  end)) as [Hdup Helem].
    split.
    + intros Hslugs. apply Hdup. destruct (slugOfFile f); [| done].
      by apply setAdd_NoDup.
    + intros slug. rewrite Helem. split.
      * intros [Hin | (g & Hg & Hslug)].
        -- destruct (slugOfFile f) as [found |] eqn:Hfound; [| by left].
           apply setAdd_elem in Hin as [-> | Hin]; [| by left].
           right. exists f. split; [left | done].
        -- right. exists g. split; [by right | done].
      * intros [Hin | (g & Hg & Hslug)].
        -- left. destruct (slugOfFile f); [| done]. apply setAdd_elem. by right.
        -- apply elem_of_cons in Hg as [-> | Hg].
           ++ left. rewrite Hslug. apply setAdd_elem. by left.
           ++ right. by exists g.
Qed.

Lemma slugOfFile_stem (f slug : string) :
  countChar "." slug = 0 ->
  slugOfFile f = Some slug ↔ f = slug +:+ ".automerge" ∨ f = slug +:+ ".json".
Proof.
  intros Hslug. unfold slugOfFile. split.
  - destruct (endsWith f ".automerge") eqn:Hbinary.
    + intros [= <-]. left.
      by apply (extension_then_stem ".automerge" f automerge_is_extension).
    + destruct (endsWith f ".json") eqn:Hjson; [| done].
      intros [= <-]. right.
      by apply (extension_then_stem ".json" f json_is_extension).
  - intros [-> | ->].
    + destruct (stem_then_extension ".automerge" slug automerge_is_extension Hslug)
        as [-> ->]. done.
    + destruct (stem_then_extension ".json" slug json_is_extension Hslug)
        as [Hends Hstem].
      destruct (endsWith (slug +:+ ".json") ".automerge") eqn:Hbinary.
      * apply endsWith_true in Hbinary as (front & Hfront).
        apply (f_equal lastChar) in Hfront.
        rewrite !lastChar_app in Hfront by done. discriminate Hfront.
      * by rewrite Hends, Hstem.
Qed.

(** X15.  [listCommunities] answers nothing when the directory cannot be
    read, and never the same slug twice.  A slug without a dot is listed
    exactly when the directory holds its canonical record or its legacy
    record; when it holds both the slug is listed once. *)
Theorem listCommunities_finds_records (names : list string) (slug : string) :
  countChar "." slug = 0 ->
  listCommunities None = []
  ∧ NoDup (listCommunities (Some names))
  ∧ (slug ∈ listCommunities (Some names)
     ↔ slug +:+ ".automerge" ∈ names ∨ slug +:+ ".json" ∈ names).
Proof.
  intros Hslug. split; [done |].
  destruct (listing_fold names []) as [Hdup Helem].
  split; [apply Hdup; constructor |].
  unfold listCommunities. rewrite Helem. split.
  - intros [Hin | (f & Hf & Hstem)]; [by apply elem_of_nil in Hin |].
    apply (slugOfFile_stem f slug Hslug) in Hstem as [<- | <-]; [by left | by right].
  - intros [Hin | Hin]; right; eexists; (split; [exact Hin |]);
      apply slugOfFile_stem; auto.
Qed.

(** ** Host names *)

Lemma string_app_assoc (a b c : string) : (a +:+ b) +:+ c = a +:+ (b +:+ c).
Proof. induction a as [| x a IH]; [done |]. by rewrite !string_app_cons, IH. Qed.

Lemma join_cons (sep part : string) (rest : list string) :
  rest ≠ [] -> join sep (part :: rest) = part +:+ sep +:+ join sep rest.
Proof. by destruct rest. Qed.

Lemma splitOn_nonempty (sep : ascii) (current s : string) :
  splitOn sep current s ≠ [].
Proof.
  revert current. induction s as [| c s IH]; intros current; simpl; [done |].
  case_decide; [done | apply IH].
Qed.

Lemma join_splitOn (sep : ascii) (current s : string) :
  join (String sep "") (splitOn sep current s) = current +:+ s.
Proof.
  revert current. induction s as [| c s IH]; intros current; simpl.
  - by rewrite string_app_nil_r.
  - case_decide as Hc.
    + subst c. rewrite join_cons by apply splitOn_nonempty.
      rewrite IH. done.
    + rewrite IH, string_app_assoc. done.
Qed.

Lemma splitOn_parts (sep : ascii) (current s : string) :
  countChar sep current = 0 ->
  Forall (λ part, countChar sep part = 0) (splitOn sep current s).
Proof.
  revert current. induction s as [| c s IH]; intros current Hcurrent; simpl.
  - by constructor.
  - case_decide as Hc.
    + constructor; [done | by apply IH].
    + apply IH. rewrite countChar_app. simpl. rewrite decide_False by done. lia.
Qed.

Lemma splitOn_part (sep : ascii) (current part : string) :
  countChar sep part = 0 ->
  splitOn sep current part = [current +:+ part].
Proof.
  revert current. induction part as [| c part IH]; intros current Hpart; simpl.
  - by rewrite string_app_nil_r.
  - simpl in Hpart. destruct (decide (c = sep)) as [-> | Hc]; [lia |].
    rewrite IH by lia. by rewrite string_app_assoc.
Qed.

Lemma splitOn_app (sep : ascii) (current part rest : string) :
  countChar sep part = 0 ->
  splitOn sep current (part +:+ String sep rest)
    = (current +:+ part) :: splitOn sep "" rest.
Proof.
  revert current. induction part as [| c part IH]; intros current Hpart.
  - change ("" +:+ ?x) with x. simpl. rewrite decide_True by done.
    by rewrite string_app_nil_r.
  - simpl in Hpart. destruct (decide (c = sep)) as [-> | Hc]; [lia |].
    rewrite string_app_cons. simpl. rewrite decide_False by done.
    rewrite IH by lia. by rewrite string_app_assoc.
Qed.

Lemma splitOn_join (sep : ascii) (parts : list string) :
  parts ≠ [] -> Forall (λ part, countChar sep part = 0) parts ->
  splitOn sep "" (join (String sep "") parts) = parts.
Proof.
  induction parts as [| part parts IH]; [done |]. intros _ Hparts.
  apply Forall_cons in Hparts as [Hpart Hparts].
  destruct parts as [| next parts].
  - simpl. by rewrite splitOn_part.
  - rewrite join_cons by done.
    change (String sep "" +:+ ?x) with (String sep x).
    rewrite splitOn_app by done. f_equal. by apply IH.
Qed.
Lemma last_two (parts : list string) :
  3 <= length parts ->
  ∃ first middle a b, parts = first :: middle ++ [a; b]
                      ∧ drop (length parts - 2) parts = [a; b].
Proof.
  intros Hlen. destruct parts as [| first rest]; [simpl in Hlen; lia |].
  simpl in Hlen.
  destruct (rev rest) as [| b [| a front]] eqn:Hrev.
  - apply (f_equal length) in Hrev. rewrite length_rev in Hrev. simpl in Hrev. lia.
  - apply (f_equal length) in Hrev. rewrite length_rev in Hrev. simpl in Hrev. lia.
  - assert (rest = rev front ++ [a; b]) as ->.
    { rewrite <- (rev_involutive rest), Hrev. simpl.
      by rewrite <- !app_assoc. }
    exists first, (rev front), a, b. split; [done |].
    rewrite app_comm_cons.
    replace (length ((first :: rev front) ++ [a; b]) - 2)
      with (length (first :: rev front)) by (rewrite length_app; simpl; lia).
    by rewrite drop_app_length.
Qed.

(** X16.  [getSubdomain] answers [s] exactly for the hosts
    [s.<more labels>.rspace.online] that contain neither "localhost" nor
    "127.0.0.1", with [s] other than "www" and "rspace": the first label is
    the subdomain however many labels follow it.  It answers [null] for a
    missing or empty host. *)
Theorem getSubdomain_labels (h s : string) :
  getSubdomain None = None
  ∧ getSubdomain (Some "") = None
  ∧ (getSubdomain (Some h) = Some s
     ↔ includes "localhost" h = false ∧ includes "127.0.0.1" h = false
       ∧ s ≠ "www" ∧ s ≠ "rspace"
       ∧ ∃ middle, Forall (λ part, countChar "." part = 0) (s :: middle)
                   ∧ h = join "." (s :: middle ++ ["rspace"; "online"])).
Proof.
  split; [done |]. split; [done |]. split.
  - unfold getSubdomain.
    destruct (bool_decide (h = "")); [done |].
    destruct (includes "localhost" h); [done |].
    destruct (includes "127.0.0.1" h); [done |]. cbn [orb]. cbn zeta.
    destruct (Nat.leb 3 (length (splitOn "." "" h))) eqn:Hlen; [| done].
    apply Nat.leb_le in Hlen.
    destruct (last_two _ Hlen) as (first & middle & a & b & Hparts & ->).
    case_bool_decide as Htail; [| done]. cbn [andb].
    rewrite Hparts. cbn [head default from_option id].
    unfold default; cbn [from_option id].
    case_bool_decide as Hwww; [done |]. case_bool_decide as Hrspace; [done |].
    cbn [negb andb]. intros [= <-].
    do 4 (split; [done |]).
    pose proof (splitOn_parts "." "" h eq_refl) as Hfree.
    rewrite Hparts in Hfree.
    apply Forall_cons in Hfree as [Hfirst Hrest].
    apply Forall_app in Hrest as [Hmiddle Hlast].
    apply Forall_cons in Hlast as [Ha Hlast].
    apply Forall_cons in Hlast as [Hb _].
    assert ([a; b] = ["rspace"; "online"]) as [= -> ->].
    { rewrite <- (splitOn_join "." [a; b]) by (done || by repeat constructor).
      by rewrite Htail. }
    exists middle. split; [by constructor |].
    rewrite <- Hparts. by rewrite join_splitOn.
  - intros (Hlocal & Hloop & Hwww & Hrspace & middle & Hfree & ->).
    apply Forall_cons in Hfree as [Hs Hmiddle].
    assert (splitOn "." "" (join "." (s :: middle ++ ["rspace"; "online"]))
            = s :: middle ++ ["rspace"; "online"]) as Hsplit.
    { apply splitOn_join; [done |].
      constructor; [done |]. apply Forall_app. split; [done |].
      by repeat constructor. }
    unfold getSubdomain. rewrite Hlocal, Hloop. cbn [orb]. cbn zeta.
    rewrite Hsplit.
    case_bool_decide as Hempty.
    { apply (f_equal (splitOn "." "")) in Hempty. rewrite Hsplit in Hempty.
      destruct middle; discriminate Hempty. }
    replace (length (s :: middle ++ ["rspace"; "online"]) - 2)
      with (length (s :: middle)) by (simpl; rewrite length_app; simpl; lia).
    rewrite app_comm_cons, drop_app_length.
    rewrite <- app_comm_cons.
    assert (Nat.leb 3 (length (s :: middle ++ ["rspace"; "online"])) = true) as ->.
    { apply Nat.leb_le. simpl. rewrite length_app. simpl. lia. }
    rewrite bool_decide_eq_true_2 by done. cbn [andb head].
    unfold default; cbn [from_option id].
    by rewrite !bool_decide_eq_false_2 by done.
Qed.

(** ** Slugs the API accepts *)

Lemma allSlugChars_count (c : ascii) (s : string) :
  slugChar c = false -> allSlugChars s = true -> countChar c s = 0.
Proof.
  intros Hc. induction s as [| x s IH]; [done |]. simpl.
  intros [Hx Hs]%andb_true_iff.
  rewrite decide_False by (intros ->; congruence). by rewrite IH.
Qed.

Lemma splitOn_at_separator (sep : ascii) (current a rest : string) :
  splitOn sep current (a +:+ String sep rest)
    = splitOn sep current a ++ splitOn sep "" rest.
Proof.
  revert current. induction a as [| c a IH]; intros current.
  - change ("" +:+ ?x) with x. simpl. by rewrite decide_True.
  - rewrite string_app_cons. simpl. case_decide; [| apply IH].
    by rewrite IH.
Qed.

(** X17.  A slug the creation API accepts is not empty and holds neither a
    dot nor a slash: its two records are files of the storage directory
    itself, and [listCommunities] reads the slug back from either name. *)
Theorem slugPattern_safe (slug : string) :
  slugPattern slug = true ->
  slug ≠ ""
  ∧ countChar "." slug = 0
  ∧ countChar "/" slug = 0
  ∧ slugOfFile (slug +:+ ".automerge") = Some slug
  ∧ slugOfFile (slug +:+ ".json") = Some slug
  ∧ splitOn "/" "" (binaryPath slug)
    = splitOn "/" "" STORAGE_DIR ++ [slug +:+ ".automerge"].
Proof.
  intros Hpattern. pose proof (slugPattern_nonempty slug Hpattern) as Hnonempty.
  unfold slugPattern in Hpattern. apply andb_true_iff in Hpattern as [_ Hchars].
  assert (countChar "." slug = 0) as Hdot by (by apply allSlugChars_count).
  assert (countChar "/" slug = 0) as Hslash by (by apply allSlugChars_count).
  split; [done |]. split; [done |]. split; [done |].
  split; [apply slugOfFile_stem; auto |].
  split; [apply slugOfFile_stem; auto |].
  unfold binaryPath. change ("/" +:+ ?x) with (String "/" x).
  rewrite splitOn_at_separator. f_equal.
  rewrite splitOn_part; [done |].
  rewrite countChar_app, Hslash. done.
Qed.

(** ** The HTTP API *)

Lemma loadCommunity_frame (w : World) (slug : string) :
  disk (loadCommunity w slug).1 = disk w
  ∧ writeLog (loadCommunity w slug).1 = writeLog w
  ∧ peerSyncStates (loadCommunity w slug).1 = peerSyncStates w
  ∧ clock (loadCommunity w slug).1 = clock w.
Proof.
  unfold loadCommunity.
  repeat match goal with
         | |- context [match ?x with _ => _ end] => destruct x eqn:?; cbn [fst]
         end.
  all: try done.
  all: match goal with
       | |- context [saveCommunity ?w1 ?s] =>
         destruct (saveCommunity_frame w1 s) as (_ & -> & -> & -> & ->)
       end.
  all: done.
Qed.

Lemma loadCommunity_null (w : World) (slug : string) :
  (loadCommunity w slug).2 = None -> (loadCommunity w slug).1 = w.
Proof.
  unfold loadCommunity.
  repeat match goal with
         | |- context [match ?x with _ => _ end] => destruct x eqn:?; cbn [fst snd]
         end.
  all: done.
Qed.

Lemma getDocumentData_loaded (w : World) (slug : string) :
  getDocumentData (loadCommunity w slug).1 slug
    = Automerge.toJS <$> (loadCommunity w slug).2.
Proof.
  unfold getDocumentData.
  destruct (loadCommunity w slug).2 as [doc |] eqn:Hdoc.
  - by rewrite (loadCommunity_cached w slug doc Hdoc).
  - rewrite (loadCommunity_null w slug Hdoc).
    unfold loadCommunity in Hdoc.
    by destruct (communities w !! slug).
Qed.

Lemma splitSlash_splitOn (current s : string) :
  splitSlash current s = splitOn "/" current s.
Proof.
  revert current. induction s as [| c s IH]; intros current; [done |].
  simpl. by rewrite !IH.
Qed.

(** The slug [handleAPI] reads in the path of a GET. *)
Lemma fourth_segment (slug : string) :
  countChar "/" slug = 0 ->
  splitSlash "" ("/api/communities/" +:+ slug) !! 3 = Some slug.
Proof.
  intros Hslash. rewrite splitSlash_splitOn.
  change ("/api/communities/" +:+ slug) with ("/api/communities" +:+ String "/" slug).
  rewrite splitOn_at_separator. rewrite (splitOn_part "/" "" slug) by done. done.
Qed.

Lemma handleAPI_get (w : World) (req : Request) (slug : string) :
  req_method req = "GET" -> req_pathname req = "/api/communities/" +:+ slug ->
  countChar "/" slug = 0 ->
  handleAPI w req
    = ((loadCommunity w slug).1,
       match (loadCommunity w slug).2 with
       | Some doc => Response_json (metaBody (Automerge.toJS doc)) 200
       | None => Response_json (errorBody "Community not found") 404
       end).
Proof.
  intros Hmethod Hpath Hslash. unfold handleAPI. rewrite Hmethod, Hpath.
  rewrite decide_False by done.
  rewrite decide_False by (intros [Heq _]; by apply (f_equal String.length) in Heq;
    rewrite string_length_app in Heq; simpl in Heq; lia).
  rewrite prefix_app. rewrite bool_decide_eq_true_2 by done. cbn [andb].
  rewrite fourth_segment by done. unfold default; cbn [from_option id].
  pose proof (getDocumentData_loaded w slug) as Hloaded.
  unfold getDocumentData in *.
  destruct (communities w !! slug) as [cached |] eqn:Hcached.
  - unfold loadCommunity. by rewrite Hcached.
  - destruct (loadCommunity w slug) as [w1 r]. cbn [fst snd] in *.
    rewrite Hloaded. by destruct r.
Qed.

(** X18.  [GET /api/communities/:slug] answers as [loadCommunity] does:
    with [{ meta }] of the document it returns, which is then cached, or
    with 404 when it returns [null].  Where [communityExists] fails the
    answer is 404 and the state is as it was. *)
Theorem get_community (w : World) (req : Request) (slug : string) :
  req_method req = "GET" -> req_pathname req = "/api/communities/" +:+ slug ->
  countChar "/" slug = 0 ->
  (handleAPI w req).1 = (loadCommunity w slug).1
  ∧ (∀ doc, (loadCommunity w slug).2 = Some doc ->
       (handleAPI w req).2 = Response_json (metaBody (Automerge.toJS doc)) 200
       ∧ communities (handleAPI w req).1 !! slug = Some doc)
  ∧ ((loadCommunity w slug).2 = None ->
       handleAPI w req = (w, Response_json (errorBody "Community not found") 404))
  ∧ (communityExists w slug = false ->
       handleAPI w req = (w, Response_json (errorBody "Community not found") 404)).
Proof.
  intros Hmethod Hpath Hslash.
  rewrite (handleAPI_get w req slug Hmethod Hpath Hslash). cbn [fst snd].
  split; [done |]. split; [| split].
  - intros doc Hdoc. rewrite Hdoc. split; [done |]. by apply loadCommunity_cached.
  - intros Hnone. rewrite Hnone. by rewrite (loadCommunity_null w slug Hnone).
  - intros Hnot.
    assert (loadCommunity w slug = (w, None)) as ->; [| done].
    assert (¬ (is_Some (communities w !! slug) ∨ is_Some (disk w !! binaryPath slug)
               ∨ is_Some (disk w !! jsonPath slug))) as Hnone.
    { rewrite <- communityExists_true. by rewrite Hnot. }
    unfold loadCommunity.
    destruct (communities w !! slug); [destruct Hnone; left; by eexists |].
    destruct (disk w !! binaryPath slug);
      [destruct Hnone; right; left; by eexists |].
    destruct (disk w !! jsonPath slug); [destruct Hnone; right; right; by eexists |].
    done.
Qed.

(** X19.  Every answer of [handleAPI] carries the CORS headers and one of
    five statuses; an answer other than 200 leaves the whole state as it
    was; and no request writes a file or touches the peer table. *)
Theorem handleAPI_answers (w : World) (req : Request) :
  headers (handleAPI w req).2 = corsHeaders
  ∧ status (handleAPI w req).2 ∈ [200; 400; 404; 409; 500]
  ∧ (status (handleAPI w req).2 ≠ 200 -> (handleAPI w req).1 = w)
  ∧ disk (handleAPI w req).1 = disk w
  ∧ writeLog (handleAPI w req).1 = writeLog w
  ∧ peerSyncStates (handleAPI w req).1 = peerSyncStates w.
Proof.
  assert (∀ (v : World) (r : Response),
            headers r = corsHeaders -> status r ∈ [200; 400; 404; 409; 500] ->
            (status r ≠ 200 -> v = w) -> disk v = disk w -> writeLog v = writeLog w ->
            peerSyncStates v = peerSyncStates w ->
            headers (v, r).2 = corsHeaders
            ∧ status (v, r).2 ∈ [200; 400; 404; 409; 500]
            ∧ (status (v, r).2 ≠ 200 -> (v, r).1 = w)
            ∧ disk (v, r).1 = disk w
            ∧ writeLog (v, r).1 = writeLog w
            ∧ peerSyncStates (v, r).1 = peerSyncStates w) as Hanswer by done.
  assert (∀ (value : Json) (code : nat),
            code ∈ [400; 404; 409; 500] ->
            headers (w, Response_json value code).2 = corsHeaders
            ∧ status (w, Response_json value code).2 ∈ [200; 400; 404; 409; 500]
            ∧ (status (w, Response_json value code).2 ≠ 200
               -> (w, Response_json value code).1 = w)
            ∧ disk (w, Response_json value code).1 = disk w
            ∧ writeLog (w, Response_json value code).1 = writeLog w
            ∧ peerSyncStates (w, Response_json value code).1 = peerSyncStates w)
    as Herror.
  { intros value code Hcode. apply Hanswer; try done.
    cbn. by apply list_elem_of_further. }
  unfold handleAPI.
  destruct (decide (req_method req = "OPTIONS")).
  { apply Hanswer; try done. by apply list_elem_of_here. }
  destruct (decide (req_pathname req = "/api/communities" ∧ req_method req = "POST")).
  { destruct (req_json req) as [fields |]; [| apply Herror; by repeat constructor].
    destruct (falsy (body_name fields) || falsy (body_slug fields));
      [apply Herror; by repeat constructor |].
    destruct (negb (slugPattern _)); [apply Herror; by repeat constructor |].
    destruct (communityExists w _); [apply Herror; by repeat constructor |].
    unfold createCommunity. cbn [fst snd].
    match goal with
    | |- context [saveCommunity ?w1 ?s] =>
      destruct (saveCommunity_frame w1 s) as (_ & Hpeers & Hdisk & Hlog & _)
    end.
    apply Hanswer; try done. by apply list_elem_of_here. }
  destruct (String.prefix _ _ && bool_decide _);
    [| apply Herror; by repeat constructor].
  set (slug := default "" _).
  pose proof (getDocumentData_loaded w slug) as Hloaded.
  pose proof (loadCommunity_null w slug) as Hnull.
  destruct (loadCommunity_frame w slug) as (Hdisk & Hlog & Hpeers & _).
  destruct (getDocumentData w slug).
  { apply Hanswer; try done. by apply list_elem_of_here. }
  destruct (loadCommunity w slug) as [w1 r]. cbn [fst snd] in *.
  rewrite Hloaded. destruct r; cbn [fmap option_fmap option_map].
  - apply Hanswer; try done. by apply list_elem_of_here.
  - rewrite Hnull by done. apply Herror. by repeat constructor.
Qed.

Lemma rtc_keeps_cache (w w' : World) (slug : string) :
  rtc step w w' -> is_Some (communities w !! slug) -> is_Some (communities w' !! slug).
Proof.
  induction 1 as [| v1 v2 v3 Hstep _ IH]; [done |].
  intros Hcached. apply IH. by apply (step_keeps_cache v1 v2).
Qed.

(** X20.  A community is created once: after a creation request answered
    with 200, and whatever the store does next, every further creation
    request for that slug is answered with 409 and changes nothing. *)
Theorem create_only_once (w w' : World) (req again : Request) (fields more : CreateBody)
    (slug : string) :
  req_method req = "POST" -> req_pathname req = "/api/communities" ->
  req_json req = Some fields -> body_slug fields = Some slug ->
  status (handleAPI w req).2 = 200 ->
  rtc step (handleAPI w req).1 w' ->
  req_method again = "POST" -> req_pathname again = "/api/communities" ->
  req_json again = Some more -> body_slug more = Some slug ->
  falsy (body_name more) = false ->
  handleAPI w' again = (w', Response_json (errorBody "Community already exists") 409).
Proof.
  intros Hmethod Hpath Hjson Hslug Hstatus Hrun Hmethod' Hpath' Hjson' Hslug' Hname'.
  rewrite (handleAPI_create w req fields Hmethod Hpath Hjson) in Hstatus, Hrun.
  rewrite Hslug in Hstatus, Hrun. unfold default in Hstatus, Hrun.
  cbn [from_option id] in Hstatus, Hrun.
  destruct (falsy (body_name fields) || falsy (Some slug)) eqn:Hmissing; [done |].
  destruct (slugPattern slug) eqn:Hpattern; [| done]. cbn [negb] in Hstatus, Hrun.
  destruct (communityExists w slug) eqn:Hexists; [done |]. cbn [fst] in Hrun.
  apply orb_false_iff in Hmissing as [_ Hfalsy].
  rewrite (handleAPI_create w' again more Hmethod' Hpath' Hjson').
  rewrite Hslug', Hname', Hfalsy. unfold default; cbn [from_option id orb].
  rewrite Hpattern. cbn [negb].
  assert (communityExists w' slug = true) as ->; [| done].
  apply communityExists_true. left.
  apply (rtc_keeps_cache _ _ _ Hrun).
  unfold createCommunity. cbn [fst].
  rewrite (proj1 (saveCommunity_frame _ _)). cbn [with_communities communities].
  rewrite lookup_insert_eq. by eexists.
Qed.

(** X21.  A community that has just been created is served: with a merge
    library whose [toJS] shows what a change wrote, the GET of the slug of
    a creation request answered with 200 returns the name, the slug and
    the creation time of that request, and changes nothing. *)
Theorem created_community_is_served (w : World) (post get : Request) (name slug : string) :
  (∀ d text f, Automerge.toJS (Automerge.change d text f) = f (Automerge.toJS d)) ->
  req_method post = "POST" -> req_pathname post = "/api/communities" ->
  req_json post = Some {| body_name := Some name; body_slug := Some slug |} ->
  status (handleAPI w post).2 = 200 ->
  req_method get = "GET" -> req_pathname get = "/api/communities/" +:+ slug ->
  handleAPI (handleAPI w post).1 get
    = ((handleAPI w post).1,
       Response_json
         (JObj [("meta", metaJson {| meta_name := name; meta_slug := slug;
                                     meta_createdAt := toISOString (clock w) |})])
         200).
Proof.
  intros HtoJS Hmethod Hpath Hjson Hstatus Hmethod' Hpath'.
  rewrite (handleAPI_create w post _ Hmethod Hpath Hjson) in *.
  cbn [body_name body_slug] in *. unfold default in *. cbn [from_option id] in *.
  destruct (falsy (Some name) || falsy (Some slug)) eqn:Hmissing; [done |].
  destruct (slugPattern slug) eqn:Hpattern; [| done]. cbn [negb] in *.
  destruct (communityExists w slug) eqn:Hexists; [done |]. cbn [fst] in *.
  assert (countChar "/" slug = 0) as Hslash.
  { unfold slugPattern in Hpattern. apply andb_true_iff in Hpattern as [_ Hchars].
    by apply allSlugChars_count. }
  rewrite (handleAPI_get _ get slug Hmethod' Hpath' Hslash).
  set (doc := Automerge.change Automerge.init "Create community"
                (createMutator name slug (toISOString (clock w)))).
  assert (loadCommunity (createCommunity w name slug).1 slug
            = ((createCommunity w name slug).1, Some doc)) as ->.
  { unfold loadCommunity, createCommunity. cbn [fst].
    rewrite (proj1 (saveCommunity_frame _ _)). cbn [with_communities communities].
    by rewrite lookup_insert_eq. }
  cbn [fst snd]. subst doc. by rewrite HtoJS.
Qed.

(** ** Connections *)

Lemma Server_eq (a b : Server) :
  world a = world b -> communityClients a = communityClients b -> sent a = sent b ->
  a = b.
Proof. destruct a, b; simpl. by intros -> -> ->. Qed.

Lemma WSData_eta (d : WSData) :
  d = {| communitySlug := communitySlug d; peerId := peerId d |}.
Proof. by destruct d. Qed.

Lemma getClient_insert (sv : Server) (w : World) (log : list (WSData * string))
    (slug peer s p : string) (ws : ServerWebSocket) :
  getClient {| world := w;
               communityClients :=
                 <[slug := <[peer := ws]> (default ∅ (communityClients sv !! slug))]>
                   (communityClients sv);
               sent := log |} s p
    = if decide (s = slug ∧ p = peer) then Some ws else getClient sv s p.
Proof.
  unfold getClient. cbn [communityClients].
  destruct (decide (s = slug)) as [-> | Hs].
  - rewrite lookup_insert_eq.
    destruct (decide (p = peer)) as [-> | Hp].
    + rewrite decide_True by done. apply lookup_insert_eq.
    + rewrite decide_False by (intuition congruence).
      rewrite lookup_insert_ne by done.
      destruct (communityClients sv !! slug); [done | apply lookup_empty].
  - rewrite lookup_insert_ne by done. by rewrite decide_False by (intuition congruence).
Qed.

Lemma getClient_close (sv : Server) (ws : ServerWebSocket) (s p : string) :
  getClient (close sv ws) s p
    = if decide (s = communitySlug (data ws) ∧ p = peerId (data ws)) then None
      else getClient sv s p.
Proof.
  unfold close, getClient. cbn [communityClients].
  set (slug := communitySlug (data ws)). set (peer := peerId (data ws)).
  destruct (communityClients sv !! slug) as [clients |] eqn:Hclients.
  - destruct (decide (size (delete peer clients) = 0)) as [Hsize | Hsize].
    + apply map_size_empty_iff in Hsize.
      destruct (decide (s = slug)) as [-> | Hs].
      * rewrite lookup_delete_eq, Hclients.
        destruct (decide (p = peer)) as [-> | Hp].
        -- by rewrite decide_True.
        -- rewrite decide_False by (intuition congruence).
           by rewrite <- (lookup_delete_ne clients peer p), Hsize, lookup_empty.
      * rewrite lookup_delete_ne by done.
        by rewrite decide_False by (intuition congruence).
    + destruct (decide (s = slug)) as [-> | Hs].
      * rewrite lookup_insert_eq, Hclients.
        destruct (decide (p = peer)) as [-> | Hp].
        -- rewrite decide_True by done. apply lookup_delete_eq.
        -- rewrite decide_False by (intuition congruence). by apply lookup_delete_ne.
      * rewrite lookup_insert_ne by done.
        by rewrite decide_False by (intuition congruence).
  - case_decide as Hsp; [| done].
    destruct Hsp as [-> ->]. by rewrite Hclients.
Qed.

Lemma open_registered (sv : Server) (ws : ServerWebSocket) :
  getClient (open sv ws) (communitySlug (data ws)) (peerId (data ws)) = Some ws
  ∧ ∀ s p, ¬ (s = communitySlug (data ws) ∧ p = peerId (data ws)) ->
           getClient (open sv ws) s p = getClient sv s p.
Proof.
  assert (∀ s p, getClient (open sv ws) s p
                 = if decide (s = communitySlug (data ws) ∧ p = peerId (data ws))
                   then Some ws else getClient sv s p) as Hclient.
  { intros s p. apply getClient_insert. }
  split; [by rewrite Hclient, decide_True |].
  intros s p Hother. by rewrite Hclient, decide_False.
Qed.

Lemma registry_opened (sv : Server) (ws : ServerWebSocket) :
  communityClients (opened sv ws) = communityClients sv.
Proof.
  unfold opened.
  destruct (loadCommunity _ _) as [w1 [doc |]]; [| done].
  by destruct (generateSyncMessageForPeer _ _ _) as [w2 [syncMessage |]].
Qed.

Lemma world_opened (sv : Server) (ws : ServerWebSocket) :
  world (opened sv ws)
    = (generateSyncMessageForPeer
         (loadCommunity (world sv) (communitySlug (data ws))).1
         (communitySlug (data ws)) (peerId (data ws))).1.
Proof.
  unfold opened.
  pose proof (getDocumentData_loaded (world sv) (communitySlug (data ws))) as Hloaded.
  destruct (loadCommunity (world sv) (communitySlug (data ws))) as [w1 [doc |]];
    cbn [fst snd] in *.
  - by destruct (generateSyncMessageForPeer w1 _ _) as [w2 [syncMessage |]].
  - unfold generateSyncMessageForPeer. unfold getDocumentData in Hloaded.
    by destruct (communities w1 !! communitySlug (data ws)).
Qed.

Lemma peerEntry_opened (sv : Server) (ws : ServerWebSocket) (s p : string) :
  ¬ (s = communitySlug (data ws) ∧ p = peerId (data ws)) ->
  peerEntry (world (opened sv ws)) s p = peerEntry (world sv) s p.
Proof.
  intros Hother. rewrite world_opened.
  destruct (communities (loadCommunity (world sv) (communitySlug (data ws))).1
              !! communitySlug (data ws)) as [doc |] eqn:Hdoc.
  - rewrite (generateSyncMessageForPeer_resident _ _ _ doc Hdoc). cbn [fst].
    rewrite peerEntry_setSyncState, peerEntry_getPeerSyncState.
    rewrite !decide_False by done. apply peerEntry_same, loadCommunity_frame.
  - unfold generateSyncMessageForPeer. rewrite Hdoc. cbn [fst].
    apply peerEntry_same, loadCommunity_frame.
Qed.


Lemma opened_loaded (sv : Server) (ws : ServerWebSocket) (doc : Automerge.Doc) :
  (loadCommunity (world sv) (communitySlug (data ws))).2 = Some doc ->
  let cursor := cursorOf (world sv) (communitySlug (data ws)) (peerId (data ws)) in
  communities (world (opened sv ws)) !! communitySlug (data ws) = Some doc
  ∧ peerEntry (world (opened sv ws)) (communitySlug (data ws)) (peerId (data ws))
    = Some {| syncState := (Automerge.generateSyncMessage doc cursor).1;
              lastActivity := clock (world sv) |}
  ∧ sent (opened sv ws)
    = sent sv ++ match (Automerge.generateSyncMessage doc cursor).2 with
                 | Some syncMessage =>
                   [(data ws, JSON_stringify (syncObject syncMessage))]
                 | None => []
                 end.
Proof.
  set (slug := communitySlug (data ws)). set (peer := peerId (data ws)).
  intros Hdoc cursor.
  pose proof (loadCommunity_cached (world sv) slug doc Hdoc) as Hcached.
  destruct (loadCommunity_frame (world sv) slug) as (_ & _ & Hpeers & Hclock).
  unfold opened. fold slug. fold peer.
  destruct (loadCommunity (world sv) slug) as [w1 r]. cbn [fst snd] in *. subst r.
  rewrite (generateSyncMessageForPeer_resident w1 slug peer doc Hcached).
  assert (cursorOf w1 slug peer = cursor) as ->.
  { unfold cursor, cursorOf. by rewrite (peerEntry_same (world sv) w1). }
  assert (communities (setSyncState slug peer
                         (Automerge.generateSyncMessage doc cursor).1
                         (getPeerSyncState w1 slug peer).1) !! slug = Some doc
          ∧ peerEntry (setSyncState slug peer
                         (Automerge.generateSyncMessage doc cursor).1
                         (getPeerSyncState w1 slug peer).1) slug peer
            = Some {| syncState := (Automerge.generateSyncMessage doc cursor).1;
                      lastActivity := clock (world sv) |}) as [Hdoc' Hentry].
  { split; [done |].
    rewrite peerEntry_setSyncState, peerEntry_getPeerSyncState.
    rewrite !decide_True by done. rewrite getPeerSyncState_returns. simpl.
    by rewrite Hclock. }
  destruct (Automerge.generateSyncMessage doc cursor).2; cbn [world sent send with_world].
  - done.
  - by rewrite app_nil_r.
Qed.


Lemma close_leaves_none_empty (sv : Server) (ws : ServerWebSocket) :
  communityClients (close sv ws) !! communitySlug (data ws) ≠ Some ∅.
Proof.
  unfold close. cbn [communityClients].
  destruct (communityClients sv !! communitySlug (data ws)) as [clients |] eqn:Hclients.
  - destruct (decide (size (delete (peerId (data ws)) clients) = 0)) as [Hsize | Hsize].
    + by rewrite lookup_delete_eq.
    + rewrite lookup_insert_eq. intros [= Hempty].
      by rewrite Hempty, map_size_empty in Hsize.
  - by rewrite Hclients.
Qed.

(** X23.  [close] takes the connection out of the registry and the peer
    out of the peer table, and leaves every other connection and every
    other peer where they were; it leaves no community of the registry
    without connection; it sends nothing; the document stays cached and
    its timers stay armed; and a second [close] changes nothing. *)
Theorem close_unregisters (sv : Server) (ws : ServerWebSocket) :
  getClient (close sv ws) (communitySlug (data ws)) (peerId (data ws)) = None
  ∧ peerEntry (world (close sv ws)) (communitySlug (data ws)) (peerId (data ws)) = None
  ∧ (∀ s p, ¬ (s = communitySlug (data ws) ∧ p = peerId (data ws)) ->
       getClient (close sv ws) s p = getClient sv s p
       ∧ peerEntry (world (close sv ws)) s p = peerEntry (world sv) s p)
  ∧ communityClients (close sv ws) !! communitySlug (data ws) ≠ Some ∅
  ∧ sent (close sv ws) = sent sv
  ∧ communities (world (close sv ws)) = communities (world sv)
  ∧ pendingTimers (world (close sv ws)) = pendingTimers (world sv)
  ∧ close (close sv ws) ws = close sv ws.
Proof.
  split; [by rewrite getClient_close, decide_True |].
  split; [unfold close; cbn [world];
          by rewrite peerEntry_removePeerSyncState, decide_True |].
  split.
  { intros s p Hother. rewrite getClient_close, decide_False by done.
    unfold close; cbn [world].
    by rewrite peerEntry_removePeerSyncState, decide_False. }
  set (slug := communitySlug (data ws)). set (peer := peerId (data ws)).
  pose proof (close_leaves_none_empty sv ws) as Hnonempty. fold slug in Hnonempty.
  split; [done |]. split; [done |].
  split; [apply removePeerSyncState_frame |].
  split; [apply removePeerSyncState_frame |].
  apply Server_eq.
  - unfold close. cbn [world]. apply removePeerSyncState_twice.
  - unfold close at 1. fold slug. fold peer. cbn [communityClients].
    destruct (communityClients (close sv ws) !! slug) as [left |] eqn:Hleft; [| done].
    assert (left !! peer = None) as Hpeer.
    { pose proof (getClient_close sv ws slug peer) as Hgone.
      unfold getClient in Hgone. rewrite Hleft in Hgone.
      by rewrite decide_True in Hgone. }
    rewrite (delete_id left peer Hpeer).
    rewrite decide_False.
    + by apply insert_id.
    + intros Hsize%map_size_empty_iff. subst left. by apply Hnonempty.
  - done.
Qed.

Lemma cursorOf_removed (w : World) (slug peer : string) :
  cursorOf (removePeerSyncState w slug peer) slug peer = Automerge.initSyncState.
Proof.
  unfold cursorOf. by rewrite peerEntry_removePeerSyncState, decide_True.
Qed.

(** X24.  A connection opens and closes, in a registry that is in order
    and held no connection under that community and peer id.  Whether the
    continuation of [open] runs before the [close] or after it, the
    registry is afterwards what it was before.  When the continuation
    runs first, the peer has no entry afterwards, the entries of the other
    peers are as they were, and the document the continuation loaded
    stays cached.  When the [close] comes first and the load then finds a
    document, the continuation gives the peer an entry, from the initial
    cursor, that no connection stands for, and calls [send] on the closed
    connection. *)
Theorem open_then_close (sv : Server) (ws : ServerWebSocket) :
  registry_ok sv ->
  getClient sv (communitySlug (data ws)) (peerId (data ws)) = None ->
  communityClients (close (opened (open sv ws) ws) ws) = communityClients sv
  ∧ communityClients (opened (close (open sv ws) ws) ws) = communityClients sv
  ∧ (∀ s p, peerEntry (world (close (opened (open sv ws) ws) ws)) s p
            = if decide (s = communitySlug (data ws) ∧ p = peerId (data ws))
              then None else peerEntry (world sv) s p)
  ∧ communities (world (close (opened (open sv ws) ws) ws))
    = communities (loadCommunity (world sv) (communitySlug (data ws))).1
  ∧ (∀ doc,
       (loadCommunity (world (close (open sv ws) ws)) (communitySlug (data ws))).2
         = Some doc ->
       getClient (opened (close (open sv ws) ws) ws)
         (communitySlug (data ws)) (peerId (data ws)) = None
       ∧ peerEntry (world (opened (close (open sv ws) ws) ws))
           (communitySlug (data ws)) (peerId (data ws))
         = Some {| syncState :=
                     (Automerge.generateSyncMessage doc Automerge.initSyncState).1;
                   lastActivity := clock (world sv) |}
       ∧ sent (opened (close (open sv ws) ws) ws)
         = sent sv
           ++ match (Automerge.generateSyncMessage doc Automerge.initSyncState).2 with
              | Some syncMessage =>
                [(data ws, JSON_stringify (syncObject syncMessage))]
              | None => []
              end).
Proof.
  intros Hregistry Hnew.
  set (slug := communitySlug (data ws)) in *. set (peer := peerId (data ws)) in *.
  assert (∀ sv1, communityClients sv1
                 = <[slug := <[peer := ws]> (default ∅ (communityClients sv !! slug))]>
                     (communityClients sv) ->
                 communityClients (close sv1 ws) = communityClients sv) as Hclosed.
  { intros sv1 Hopen. unfold close. fold slug. fold peer. cbn [communityClients].
    rewrite Hopen, lookup_insert_eq.
    unfold getClient in Hnew.
    destruct (communityClients sv !! slug) as [clients |] eqn:Hclients.
    - unfold default; cbn [from_option id]. rewrite delete_insert_id by done.
      rewrite decide_False.
      + rewrite insert_insert_eq. by apply insert_id.
      + intros Hsize%map_size_empty_iff. by apply (Hregistry _ _ Hclients).
    - unfold default; cbn [from_option id]. rewrite delete_insert_id by done.
      rewrite decide_True by apply map_size_empty.
      by apply delete_insert_id. }
  split; [apply Hclosed; by rewrite registry_opened |].
  split; [rewrite registry_opened; by apply Hclosed |].
  split; [| split].
  - intros s p. unfold close at 1. cbn [world].
    rewrite peerEntry_removePeerSyncState. fold slug. fold peer.
    case_decide; [done |]. by rewrite peerEntry_opened.
  - unfold close at 1. cbn [world].
    rewrite (proj1 (removePeerSyncState_frame _ _ _)).
    rewrite world_opened. fold slug. fold peer. cbn [open world].
    destruct (communities (loadCommunity (world sv) slug).1 !! slug) as [doc |] eqn:Hdoc.
    + by rewrite (generateSyncMessageForPeer_resident _ _ _ doc Hdoc).
    + unfold generateSyncMessageForPeer. by rewrite Hdoc.
  - intros doc Hdoc.
    destruct (opened_loaded (close (open sv ws) ws) ws doc Hdoc)
      as (_ & Hentry & Hsent).
    fold slug in Hentry, Hsent. fold peer in Hentry, Hsent.
    assert (cursorOf (world (close (open sv ws) ws)) slug peer
            = Automerge.initSyncState) as Hcursor.
    { unfold close. cbn [world]. apply cursorOf_removed. }
    rewrite Hcursor in Hentry, Hsent.
    split; [| split].
    + unfold getClient. rewrite registry_opened.
      fold (getClient (close (open sv ws) ws) slug peer).
      by rewrite getClient_close, decide_True.
    + rewrite Hentry. unfold close. cbn [world open].
      by rewrite (proj2 (proj2 (proj2 (proj2 (removePeerSyncState_frame _ _ _))))).
    + exact Hsent.
Qed.

(** ** Who receives what *)

Lemma deliverSync_sent (slug : string) (targets : gmap string bytes) (sv : Server) :
  deliverSync slug targets sv
    = {| world := world sv; communityClients := communityClients sv;
         sent := sent sv ++ omap (syncDelivery sv slug) (map_to_list targets) |}.
Proof.
  unfold deliverSync. generalize (map_to_list targets). intros entries.
  assert (∀ acc, communityClients acc = communityClients sv ->
            foldl (λ acc entry,
                     match getClient acc slug entry.1 with
                     | Some targetClient =>
                       if decide (readyState targetClient = OPEN)
                       then send targetClient (JSON_stringify (syncObject entry.2)) acc
                       else acc
                     | None => acc
                     end) acc entries
            = {| world := world acc; communityClients := communityClients acc;
                 sent := sent acc ++ omap (syncDelivery sv slug) entries |}) as Hfold.
  { induction entries as [| entry entries IH]; intros acc Hacc.
    - simpl. rewrite app_nil_r. by destruct acc.
    - cbn [foldl].
      assert (getClient acc slug entry.1 = getClient sv slug entry.1) as ->.
      { unfold getClient. by rewrite Hacc. }
      replace (omap (syncDelivery sv slug) (entry :: entries))
        with (match syncDelivery sv slug entry with
              | Some delivery => delivery :: omap (syncDelivery sv slug) entries
              | None => omap (syncDelivery sv slug) entries
              end) by done.
      unfold syncDelivery at 1.
      destruct (getClient sv slug entry.1) as [targetClient |]; [| by apply IH].
      destruct (decide (readyState targetClient = OPEN)); [| by apply IH].
      rewrite IH by done. unfold send; simpl. by rewrite <- app_assoc. }
  by apply Hfold.
Qed.

Lemma broadcast_excludes_sender (w w1 : World) (slug peer : string) (delta : bytes)
    (result : SyncResult) :
  receiveSyncMessage w slug peer delta = (w1, Returned result) ->
  broadcastToPeers result !! peer = None.
Proof.
  unfold receiveSyncMessage.
  destruct (communities w !! slug) as [doc |]; [| by intros [= _ <-]].
  destruct (getPeerSyncState w slug peer) as [v ps].
  destruct (Automerge.receiveSyncMessage _ _ _) as [[[newDoc newSyncState] patch] |];
    [| done].
  destruct (Automerge.generateSyncMessage newDoc newSyncState) as [next reply].
  match goal with
  | |- context [peerSyncStates ?w5 !! slug] =>
    destruct (peerSyncStates w5 !! slug) as [communityPeers |]
  end.
  - destruct (hasPatches patch); intros [= _ <-]; cbn [broadcastToPeers]; [| done].
    rewrite map_lookup_imap. destruct (communityPeers !! peer); [| done].
    simpl. unfold catchUpMessage. by rewrite decide_False by (by intros ?).
  - by intros [= _ <-].
Qed.

Lemma broadcastOthers_omap (clients : gmap string ServerWebSocket) (sender text : string)
    (sv : Server) :
  broadcastOthers clients sender text sv
    = {| world := world sv; communityClients := communityClients sv;
         sent := sent sv ++ omap (broadcastDelivery sender text) (map_to_list clients) |}.
Proof.
  rewrite broadcastOthers_sent. f_equal. f_equal.
  induction (map_to_list clients) as [| entry entries IH]; [done |].
  rewrite filter_cons. cbn [omap list_omap]. unfold broadcastDelivery at 1.
  destruct (decide (entry.1 ≠ sender ∧ readyState entry.2 = OPEN)); [| done].
  cbn [fmap list_fmap]. by rewrite IH.
Qed.

Lemma relayed_nil (sv : Server) (ws : ServerWebSocket) : relayed sv ws [].
Proof. split; [constructor |]. by intros target payload ?%elem_of_nil. Qed.

Lemma relayed_broadcast (sv : Server) (ws : ServerWebSocket) (text : string)
    (clients : gmap string ServerWebSocket) :
  registry_ok sv ->
  communityClients sv !! communitySlug (data ws) = Some clients ->
  relayed sv ws (omap (broadcastDelivery (peerId (data ws)) text) (map_to_list clients)).
Proof.
  intros Hregistry Hclients. destruct (Hregistry _ _ Hclients) as [_ Hfiled].
  assert (∀ entry delivery,
            entry ∈ map_to_list clients ->
            broadcastDelivery (peerId (data ws)) text entry = Some delivery ->
            delivery.1 = {| communitySlug := communitySlug (data ws); peerId := entry.1 |}
            ∧ entry.1 ≠ peerId (data ws) ∧ readyState entry.2 = OPEN
            ∧ data entry.2 = delivery.1) as Hentry.
  { intros [other client] delivery Hin%elem_of_map_to_list. unfold broadcastDelivery.
    case_decide as Hsend; [| done]. destruct Hsend as [Hother Hopen].
    intros [= <-]. cbn [fst snd] in *.
    by rewrite (Hfiled other client Hin). }
  split.
  - pose proof (NoDup_fst_map_to_list clients) as Hkeys. revert Hkeys Hentry.
    generalize (map_to_list clients). intros entries Hkeys Hentry.
    induction entries as [| entry entries IH]; [constructor |].
    apply NoDup_cons in Hkeys as [Hfresh Hkeys].
    assert (NoDup (omap (broadcastDelivery (peerId (data ws)) text) entries).*1) as Hrest.
    { apply IH; [done |]. intros e d He. apply Hentry. by apply list_elem_of_further. }
    cbn [omap list_omap].
    destruct (broadcastDelivery _ _ entry) as [delivery |] eqn:Hdelivery; [| done].
    cbn [fmap list_fmap]. apply NoDup_cons. split; [| done].
    intros (other & Heq & (entry' & Hin & Hother)%list_elem_of_omap)%list_elem_of_fmap.
    apply Hfresh. apply list_elem_of_fmap. exists entry'. split; [| done].
    apply Hentry in Hdelivery as [Hd _]; [| apply list_elem_of_here].
    apply Hentry in Hother as [Ho _]; [| by apply list_elem_of_further].
    rewrite Hd, Ho in Heq. by injection Heq.
  - intros target payload (entry & Hin & Hdelivery)%list_elem_of_omap.
    destruct (Hentry entry _ Hin Hdelivery) as (Htarget & Hother & Hopen & Hdata).
    cbn [fst] in *. subst target. cbn [communitySlug peerId].
    split; [done |]. split; [done |]. exists entry.2.
    split; [| done].
    unfold getClient. rewrite Hclients.
    destruct entry as [other client]. by apply elem_of_map_to_list in Hin.
Qed.

Lemma relayed_sync (sv sv' : Server) (ws : ServerWebSocket) (targets : gmap string bytes) :
  registry_ok sv -> communityClients sv' = communityClients sv ->
  targets !! peerId (data ws) = None ->
  relayed sv ws (omap (syncDelivery sv' (communitySlug (data ws))) (map_to_list targets)).
Proof.
  intros Hregistry Hsame Hsender.
  assert (∀ entry delivery,
            entry ∈ map_to_list targets ->
            syncDelivery sv' (communitySlug (data ws)) entry = Some delivery ->
            delivery.1 = {| communitySlug := communitySlug (data ws); peerId := entry.1 |}
            ∧ entry.1 ≠ peerId (data ws)
            ∧ ∃ client, getClient sv (communitySlug (data ws)) entry.1 = Some client
                        ∧ readyState client = OPEN ∧ data client = delivery.1) as Hentry.
  { intros [other payload] delivery Hin%elem_of_map_to_list. unfold syncDelivery.
    cbn [fst snd].
    assert (getClient sv' (communitySlug (data ws)) other
            = getClient sv (communitySlug (data ws)) other) as ->.
    { unfold getClient. by rewrite Hsame. }
    cbn [fst snd].
    destruct (getClient sv (communitySlug (data ws)) other) as [client |] eqn:Hclient;
      [| done].
    case_decide as Hopen; [| done]. intros [= <-]. cbn [fst].
    unfold getClient in Hclient.
    destruct (communityClients sv !! communitySlug (data ws)) as [clients |] eqn:Hclients;
      [| done].
    destruct (Hregistry _ _ Hclients) as [_ Hfiled].
    split; [by apply Hfiled |]. split; [intros ->; congruence |].
    by exists client. }
  split.
  - pose proof (NoDup_fst_map_to_list targets) as Hkeys. revert Hkeys Hentry.
    generalize (map_to_list targets). intros entries Hkeys Hentry.
    induction entries as [| entry entries IH]; [constructor |].
    apply NoDup_cons in Hkeys as [Hfresh Hkeys].
    assert (NoDup (omap (syncDelivery sv' (communitySlug (data ws))) entries).*1) as Hrest.
    { apply IH; [done |]. intros e d He. apply Hentry. by apply list_elem_of_further. }
    cbn [omap list_omap].
    destruct (syncDelivery _ _ entry) as [delivery |] eqn:Hdelivery; [| done].
    cbn [fmap list_fmap]. apply NoDup_cons. split; [| done].
    intros (other & Heq & (entry' & Hin & Hother)%list_elem_of_omap)%list_elem_of_fmap.
    apply Hfresh. apply list_elem_of_fmap. exists entry'. split; [| done].
    apply Hentry in Hdelivery as [Hd _]; [| apply list_elem_of_here].
    apply Hentry in Hother as [Ho _]; [| by apply list_elem_of_further].
    rewrite Hd, Ho in Heq. by injection Heq.
  - intros target payload (entry & Hin & Hdelivery)%list_elem_of_omap.
    destruct (Hentry entry _ Hin Hdelivery) as (Htarget & Hother & client & Hc & Ho & Hd).
    cbn [fst] in *. subst target. cbn [communitySlug peerId].
    split; [done |]. split; [done |]. by exists client.
Qed.

(** What a handler sent: at most one text to the sender, then the relayed
    ones. *)
Lemma delivery_fair (sv : Server) (ws : ServerWebSocket)
    (reply others : list (WSData * string)) :
  relayed sv ws others ->
  reply = [] ∨ (∃ payload, reply = [(data ws, payload)]) ->
  NoDup (reply ++ others).*1
  ∧ ∀ target payload, (target, payload) ∈ reply ++ others ->
      communitySlug target = communitySlug (data ws)
      ∧ (target = data ws
         ∨ peerId target ≠ peerId (data ws)
           ∧ ∃ client, getClient sv (communitySlug target) (peerId target) = Some client
                       ∧ readyState client = OPEN ∧ data client = target).
Proof.
  intros [Hdistinct Hothers] [-> | [text ->]]; cbn [app fmap list_fmap fst].
  - split; [done |]. intros target payload Hin.
    destruct (Hothers _ _ Hin) as (? & ? & ?). split; [done |]. by right.
  - split.
    + apply NoDup_cons. split; [| done].
      intros ([target payload] & Heq & Hin)%list_elem_of_fmap. cbn [fst] in Heq.
      destruct (Hothers _ _ Hin) as (_ & Hother & _). by subst target.
    + intros target payload [[= -> ->] | Hin]%elem_of_cons; [split; [done | by left] |].
      destruct (Hothers _ _ Hin) as (? & ? & ?). split; [done |]. by right.
Qed.

(** X25.  Whatever text arrives on a connection, the registry is as it
    was, no connection is sent two texts, and every text sent goes to a
    connection of the community of the sender: to the sender itself, or to
    an open connection registered there under another peer id. *)
Theorem message_stays_in_community (sv : Server) (ws : ServerWebSocket) (text : string) :
  registry_ok sv ->
  communityClients (message sv ws text) = communityClients sv
  ∧ ∃ delivered,
      sent (message sv ws text) = sent sv ++ delivered
      ∧ NoDup delivered.*1
      ∧ ∀ target payload, (target, payload) ∈ delivered ->
          communitySlug target = communitySlug (data ws)
          ∧ (target = data ws
             ∨ peerId target ≠ peerId (data ws)
               ∧ ∃ client,
                   getClient sv (communitySlug target) (peerId target) = Some client
                   ∧ readyState client = OPEN ∧ data client = target).
Proof.
  intros Hregistry.
  assert (∀ reply others result,
            communityClients result = communityClients sv ->
            sent result = sent sv ++ reply ++ others ->
            relayed sv ws others ->
            reply = [] ∨ (∃ payload, reply = [(data ws, payload)]) ->
            communityClients result = communityClients sv
            ∧ ∃ delivered,
                sent result = sent sv ++ delivered
                ∧ NoDup delivered.*1
                ∧ ∀ target payload, (target, payload) ∈ delivered ->
                    communitySlug target = communitySlug (data ws)
                    ∧ (target = data ws
                       ∨ peerId target ≠ peerId (data ws)
                         ∧ ∃ client,
                             getClient sv (communitySlug target) (peerId target)
                               = Some client
                             ∧ readyState client = OPEN ∧ data client = target))
    as Hshape.
  { intros reply others result Hsame Hsent Hrelayed Hreply. split; [done |].
    exists (reply ++ others). split; [done |]. by apply delivery_fair. }
  assert (∀ w1 payload,
            (match communityClients sv !! communitySlug (data ws) with
             | Some clients =>
               broadcastOthers clients (peerId (data ws)) payload (with_world w1 sv)
             | None => with_world w1 sv
             end)
            = {| world := w1; communityClients := communityClients sv;
                 sent := sent sv ++ [] ++
                   match communityClients sv !! communitySlug (data ws) with
                   | Some clients =>
                     omap (broadcastDelivery (peerId (data ws)) payload)
                       (map_to_list clients)
                   | None => []
                   end |}
            ∧ relayed sv ws
                match communityClients sv !! communitySlug (data ws) with
                | Some clients =>
                  omap (broadcastDelivery (peerId (data ws)) payload)
                    (map_to_list clients)
                | None => []
                end) as Hbroadcast.
  { intros w1 payload.
    destruct (communityClients sv !! communitySlug (data ws)) as [clients |] eqn:Hclients.
    - rewrite broadcastOthers_omap. split; [done |]. by apply relayed_broadcast.
    - split; [| apply relayed_nil]. unfold with_world. by rewrite app_nil_r. }
  unfold message.
  destruct (JSON_parse text) as [msg |];
    [| by apply (Hshape [] []); [| rewrite app_nil_r | apply relayed_nil | left]].
  destruct (typeIs msg "sync" && isArray (prop msg "data")).
  { destruct (receiveSyncMessage _ _ _ _) as [w1 [result |]] eqn:Hreceive.
    - rewrite deliverSync_sent.
      apply (Hshape
               match response result with
               | Some reply => [(data ws, JSON_stringify (syncObject reply))]
               | None => []
               end
               (omap (syncDelivery
                        match response result with
                        | Some reply =>
                          send ws (JSON_stringify (syncObject reply)) (with_world w1 sv)
                        | None => with_world w1 sv
                        end (communitySlug (data ws)))
                  (map_to_list (broadcastToPeers result)))).
      + by destruct (response result).
      + cbn [sent]. destruct (response result); cbn [sent send with_world]; [| done].
        by rewrite <- app_assoc.
      + apply relayed_sync; [done | by destruct (response result) |].
        by apply (broadcast_excludes_sender _ _ _ _ _ _ Hreceive).
      + destruct (response result); [right; by eexists | by left].
    - apply (Hshape [] []); [done | by rewrite app_nil_r | apply relayed_nil | by left]. }
  destruct (typeIs msg "ping").
  { apply (Hshape [(data ws, JSON_stringify (pongObject msg))] []);
      [done | done | apply relayed_nil | right; by eexists]. }
  destruct (typeIs msg "presence").
  { destruct (Hbroadcast (world sv)
                (JSON_stringify (presenceObject (peerId (data ws)) msg))) as [Heq Hrel].
    replace (with_world (world sv) sv) with sv in Heq by (by destruct sv).
    rewrite Heq. eapply (Hshape []); [done | reflexivity | exact Hrel | by left]. }
  destruct (typeIs msg "update" && truthy (prop msg "id") && truthy (prop msg "data")).
  { match goal with
    | |- context [with_world ?w1 sv] =>
      destruct (Hbroadcast w1 (JSON_stringify msg)) as [Heq Hrel]
    end.
    rewrite Heq. eapply (Hshape []); [done | reflexivity | exact Hrel | by left]. }
  destruct (typeIs msg "delete" && truthy (prop msg "id")).
  { match goal with
    | |- context [with_world ?w1 sv] =>
      destruct (Hbroadcast w1 (JSON_stringify msg)) as [Heq Hrel]
    end.
    rewrite Heq. eapply (Hshape []); [done | reflexivity | exact Hrel | by left]. }
  by apply (Hshape [] []); [| rewrite app_nil_r | apply relayed_nil | left].
Qed.



(** X27.  A "sync" message whose data is an array is handed to
    [receiveSyncMessage] as bytes.  When that throws, nothing is sent.
    When it returns, the response, if any, is sent to the sender, and each
    entry of [broadcastToPeers] is sent to the connection registered under
    its peer id if that connection is open; an entry whose peer has no
    open connection is not sent.  On a document that is not cached nothing
    changes and nothing is sent. *)
Theorem sync_messages_are_relayed (sv : Server) (ws : ServerWebSocket) (text : string)
    (msg : Json) :
  JSON_parse text = Some msg -> typeIs msg "sync" = true ->
  isArray (prop msg "data") = true ->
  let slug := communitySlug (data ws) in
  let received :=
    receiveSyncMessage (world sv) slug (peerId (data ws))
      (Uint8Array_of (arrayItems (prop msg "data"))) in
  world (message sv ws text) = received.1
  ∧ communityClients (message sv ws text) = communityClients sv
  ∧ (received.2 = Thrown -> sent (message sv ws text) = sent sv)
  ∧ (∀ result, received.2 = Returned result ->
       ∃ delivered,
         sent (message sv ws text)
           = sent sv
             ++ match response result with
                | Some reply => [(data ws, JSON_stringify (syncObject reply))]
                | None => []
                end
             ++ delivered
         ∧ ∀ target payload,
             (target, payload) ∈ delivered
             ↔ ∃ other delta client,
                 broadcastToPeers result !! other = Some delta
                 ∧ getClient sv slug other = Some client
                 ∧ readyState client = OPEN
                 ∧ target = data client
                 ∧ payload = JSON_stringify (syncObject delta))
  ∧ (communities (world sv) !! slug = None -> message sv ws text = sv).
Proof.
  intros Hparse Htype Harray slug received.
  assert (message sv ws text
          = match received with
            | (w1, Thrown) => with_world w1 sv
            | (w1, Returned result) =>
              deliverSync slug (broadcastToPeers result)
                match response result with
                | Some reply =>
                  send ws (JSON_stringify (syncObject reply)) (with_world w1 sv)
                | None => with_world w1 sv
                end
            end) as ->.
  { unfold message. by rewrite Hparse, Htype, Harray. }
  assert (communities (world sv) !! slug = None ->
          received = (world sv, Returned {| response := None; broadcastToPeers := ∅ |}))
    as Habsent.
  { intros Hnone. unfold received, receiveSyncMessage. by rewrite Hnone. }
  destruct received as [w1 [result |]]; cbn [fst snd].
  - rewrite deliverSync_sent. cbn [world communityClients sent].
    split; [by destruct (response result) |].
    split; [by destruct (response result) |].
    split; [done |]. split.
    + intros ? [= <-].
      exists (omap (syncDelivery sv slug) (map_to_list (broadcastToPeers result))).
      split.
      * destruct (response result); cbn [sent send with_world]; [| done].
        by rewrite <- app_assoc.
      * intros target payload. rewrite list_elem_of_omap. split.
        -- intros ([other delta] & Hin%elem_of_map_to_list & Hsent).
           unfold syncDelivery in Hsent. cbn [fst snd] in Hsent.
           destruct (getClient sv slug other) as [client |] eqn:Hclient; [| done].
           case_decide as Hopen; [| done]. injection Hsent as <- <-.
           by exists other, delta, client.
        -- intros (other & delta & client & Hin & Hclient & Hopen & -> & ->).
           exists (other, delta). split; [by apply elem_of_map_to_list |].
           unfold syncDelivery. cbn [fst snd].
           rewrite Hclient. by rewrite decide_True.
    + intros Hnone. pose proof (Habsent Hnone) as Heq.
      injection Heq as Hw Hr. subst w1 result.
      cbn [response broadcastToPeers]. rewrite map_to_list_empty. cbn [omap list_omap].
      rewrite app_nil_r. by destruct sv.
  - split; [done |]. split; [done |]. split; [done |]. split; [done |].
    intros Hnone. by specialize (Habsent Hnone).
Qed.

(** X28.  What the relay drops without a word: a text that does not
    parse; a message without a type or of a type other than the five it
    knows; a "sync" whose data is not an array; an "update" without id or
    without data; a "delete" without id.  Nothing changes and nothing is
    sent, not even an error to the sender. *)
Theorem dropped_messages (sv : Server) (ws : ServerWebSocket) (text : string) :
  (JSON_parse text = None -> message sv ws text = sv)
  ∧ ∀ msg, JSON_parse text = Some msg ->
      (prop msg "type" = None -> message sv ws text = sv)
      ∧ (Forall (λ known, typeIs msg known = false)
           ["sync"; "ping"; "presence"; "update"; "delete"] ->
         message sv ws text = sv)
      ∧ (typeIs msg "sync" = true -> isArray (prop msg "data") = false ->
         message sv ws text = sv)
      ∧ (typeIs msg "update" = true ->
         truthy (prop msg "id") = false ∨ truthy (prop msg "data") = false ->
         message sv ws text = sv)
      ∧ (typeIs msg "delete" = true -> truthy (prop msg "id") = false ->
         message sv ws text = sv).
Proof.
  split; [intros Hparse; unfold message; by rewrite Hparse |].
  intros msg Hparse.
  assert (Forall (λ known, typeIs msg known = false)
            ["sync"; "ping"; "presence"; "update"; "delete"] ->
          message sv ws text = sv) as Hunknown.
  { intros Hnone. unfold message. rewrite Hparse.
    repeat match goal with
           | Hall : Forall _ (_ :: _) |- _ => apply Forall_cons in Hall as [-> Hall]
           end.
    done. }
  split; [| split; [exact Hunknown |]].
  { intros Htype. apply Hunknown.
    repeat constructor; unfold typeIs; by rewrite Htype. }
  split; [| split].
  - intros Htype Harray. unfold message. rewrite Hparse, Htype, Harray. cbn [andb].
    rewrite (typeIs_other msg "sync" "ping" Htype) by done.
    rewrite (typeIs_other msg "sync" "presence" Htype) by done.
    rewrite (typeIs_other msg "sync" "update" Htype) by done.
    by rewrite (typeIs_other msg "sync" "delete" Htype) by done.
  - intros Htype Hmissing. unfold message. rewrite Hparse.
    rewrite (typeIs_other msg "update" "sync" Htype) by done.
    rewrite (typeIs_other msg "update" "ping" Htype) by done.
    rewrite (typeIs_other msg "update" "presence" Htype) by done.
    rewrite (typeIs_other msg "update" "delete" Htype) by done.
    rewrite Htype. cbn [andb].
    destruct Hmissing as [-> | ->]; [done |]. by destruct (truthy (prop msg "id")).
  - intros Htype Hid. unfold message. rewrite Hparse.
    rewrite (typeIs_other msg "delete" "sync" Htype) by done.
    rewrite (typeIs_other msg "delete" "ping" Htype) by done.
    rewrite (typeIs_other msg "delete" "presence" Htype) by done.
    rewrite (typeIs_other msg "delete" "update" Htype) by done.
    by rewrite Htype, Hid.
Qed.

(** ** The states of the server *)



(** The calls that can give a peer an entry give it to the peer they are
    made for. *)
Lemma peerEntry_generateSyncMessageForPeer (w : World) (slug peer s p : string) :
  is_Some (peerEntry (generateSyncMessageForPeer w slug peer).1 s p) ->
  is_Some (peerEntry w s p) ∨ (s = slug ∧ p = peer).
Proof.
  destruct (communities w !! slug) as [doc |] eqn:Hdoc.
  - rewrite (generateSyncMessageForPeer_resident w slug peer doc Hdoc). cbn [fst].
    rewrite peerEntry_setSyncState, peerEntry_getPeerSyncState.
    destruct (decide (s = slug ∧ p = peer)); [by right | by left].
  - unfold generateSyncMessageForPeer. rewrite Hdoc. by left.
Qed.




Lemma registry_ok_open (sv : Server) (ws : ServerWebSocket) :
  registry_ok sv -> registry_ok (open sv ws).
Proof.
  intros Hregistry slug clients Hclients.
  destruct (open_registered sv ws) as [Hself Hothers]. split.
  - intros ->. destruct (decide (slug = communitySlug (data ws))) as [-> | Hslug].
    + unfold getClient in Hself. by rewrite Hclients, lookup_empty in Hself.
    + unfold open in Hclients. cbn [communityClients] in Hclients.
      rewrite lookup_insert_ne in Hclients by done.
      by destruct (Hregistry _ _ Hclients).
  - intros peer client Hclient.
    assert (getClient (open sv ws) slug peer = Some client) as Hget.
    { unfold getClient. by rewrite Hclients. }
    destruct (decide (slug = communitySlug (data ws) ∧ peer = peerId (data ws)))
      as [[-> ->] | Hother].
    + rewrite Hself in Hget. injection Hget as <-. apply WSData_eta.
    + rewrite Hothers in Hget by done. unfold getClient in Hget.
      destruct (communityClients sv !! slug) as [found |] eqn:Hfound; [| done].
      by apply (Hregistry _ _ Hfound).
Qed.

Lemma registry_ok_close (sv : Server) (ws : ServerWebSocket) :
  registry_ok sv -> registry_ok (close sv ws).
Proof.
  intros Hregistry slug clients Hclients. split.
  - intros ->. destruct (decide (slug = communitySlug (data ws))) as [-> | Hslug].
    + by apply (close_leaves_none_empty sv ws).
    + assert (communityClients sv !! slug = Some ∅) as Hempty.
      { revert Hclients. unfold close. cbn [communityClients].
        destruct (communityClients sv !! communitySlug (data ws)); [| done].
        case_decide; [by rewrite lookup_delete_ne | by rewrite lookup_insert_ne]. }
      by destruct (Hregistry _ _ Hempty).
  - intros peer client Hclient.
    assert (getClient (close sv ws) slug peer = Some client) as Hget.
    { unfold getClient. by rewrite Hclients. }
    rewrite getClient_close in Hget. case_decide; [done |].
    unfold getClient in Hget.
    destruct (communityClients sv !! slug) as [found |] eqn:Hfound; [| done].
    by apply (Hregistry _ _ Hfound).
Qed.

Lemma registry_message (sv : Server) (ws : ServerWebSocket) (text : string) :
  communityClients (message sv ws text) = communityClients sv.
Proof.
  unfold message.
  repeat match goal with
         | |- context [match ?x with _ => _ end] =>
           destruct x; try done;
           rewrite ?deliverSync_sent, ?broadcastOthers_sent; try done
         end.
Qed.

Lemma registry_ok_event (e : Event) (r r' : Run) :
  occurs e r r' -> registry_ok r.1 -> registry_ok r'.1.
Proof.
  intros [] Hregistry; cbn [fst] in *.
  - by apply registry_ok_open.
  - intros slug clients. rewrite registry_opened. apply Hregistry.
  - intros slug clients. rewrite registry_message. apply Hregistry.
  - by apply registry_ok_close.
  - done.
  - done.
  - done.
Qed.

Lemma serving_registry_ok (r : Run) : serving r -> registry_ok r.1.
Proof.
  induction 1 as [files now | e r r' _ IH Hevent];
    [| by apply (registry_ok_event e r)].
  intros slug clients Hclients. simpl in Hclients. by rewrite lookup_empty in Hclients.
Qed.

Lemma patient_serving (r : Run) : patient r -> serving r.
Proof.
  induction 1 as [files now | e r r' _ IH Hevent _]; [constructor |].
  by apply (serving_event e r).
Qed.


End MoreFacts.

(** * The model on concrete inputs *)

Section Instances.
Import Sample.
#[local] Existing Instance lib.
#[local] Existing Instance host.

Lemma gardenWorld_reachable : reachable gardenWorld.
Proof.
  exact (reachable_step _ _ (reachable_initial ∅ 1000)
           (step_createCommunity _ "Garden" "garden")).
Defined.

Lemma peersWorld_reachable : reachable peersWorld.
Proof.
  exact (reachable_step _ _ gardenWorld_reachable
           (step_getPeerSyncState _ "garden" "peer-a")).
Defined.

(** C1: a legacy record is loaded, a save is scheduled, and the canonical
    record is there 2000 ms later. *)
Lemma loadCommunity_contract_witness :
  (loadCommunity legacyWorld "garden").2 = Some importedDoc
  ∧ disk (advance 2000 (loadCommunity legacyWorld "garden").1) !! binaryPath "garden"
    = Some (Automerge.save importedDoc).
Proof.
  pose proof (proj1 (proj2 (proj2 (loadCommunity_contract legacyWorld "garden"))))
    as Hlegacy.
  destruct (Hlegacy [Byte.x01]
              {| legacy_meta := gardenMeta; legacy_shapes := None |})
    as (Hdoc & _ & _ & _ & Hlater).
  - vm_compute. reflexivity.
  - vm_compute. reflexivity.
  - vm_compute. reflexivity.
  - vm_compute. reflexivity.
  - split; [exact Hdoc | apply Hlater; vm_compute; discriminate].
Defined.

(** C1 as stated fails: when [loadCommunity] returns the migrated document
    no canonical record has been written. *)
Lemma loadCommunity_writes_later :
  disk legacyWorld !! jsonPath "garden" = Some [Byte.x01]
  ∧ (loadCommunity legacyWorld "garden").2 = Some importedDoc
  ∧ disk (loadCommunity legacyWorld "garden").1 !! binaryPath "garden" = None
  ∧ writeLog (loadCommunity legacyWorld "garden").1 = [].
Proof. vm_compute. repeat split. Qed.

(** C2: a delta that brings nothing new to "garden". *)
Lemma receiveSyncMessage_fanout_witness :
  communities peersWorld !! "garden" = Some gardenDoc
  ∧ Automerge.receiveSyncMessage gardenDoc (cursorOf peersWorld "garden" "peer-b")
      [Byte.x01] = Some (gardenDoc, 1, Some [])
  ∧ (receiveSyncMessage peersWorld "garden" "peer-b" [Byte.x01]).2
    = Returned {| response := None; broadcastToPeers := ∅ |}
  ∧ peerEntry (receiveSyncMessage peersWorld "garden" "peer-b" [Byte.x01]).1
      "garden" "peer-a"
    = peerEntry peersWorld "garden" "peer-a".
Proof.
  assert (communities peersWorld !! "garden" = Some gardenDoc) as Hdoc
    by (vm_compute; reflexivity).
  assert (Automerge.receiveSyncMessage gardenDoc
            (cursorOf peersWorld "garden" "peer-b") [Byte.x01]
          = Some (gardenDoc, 1, Some [])) as Hmerge
    by (vm_compute; reflexivity).
  split; [exact Hdoc |]. split; [exact Hmerge |].
  destruct (receiveSyncMessage_fanout peersWorld "garden" "peer-b" [Byte.x01]
              gardenDoc gardenDoc 1 (Some []) Hdoc Hmerge)
    as (_ & Hquiet & _).
  destruct (Hquiet eq_refl) as (Hresult & _ & _ & _ & _ & _ & Hentries).
  split; [exact Hresult |].
  apply Hentries. intros [_ Hpeer]. discriminate Hpeer.
Defined.



(** C4: the only peer of "garden" is removed. *)
Lemma removePeerSyncState_cleanup_witness :
  reachable peersWorld
  ∧ peers_nonempty (removePeerSyncState peersWorld "garden" "peer-a")
  ∧ peerSyncStates (removePeerSyncState peersWorld "garden" "peer-a") !! "garden"
    = None.
Proof.
  destruct (removePeerSyncState_cleanup peersWorld "garden" "peer-a")
    as (_ & _ & Hlast & _ & Hall & _).
  split; [exact peersWorld_reachable |].
  split; [exact (Hall peersWorld_reachable) |].
  apply Hlast. intros p Hp. unfold peerEntry.
  change (peerSyncStates peersWorld !! "garden")
    with (Some ({[ "peer-a" := {| syncState := 0; lastActivity := 1000%N |} ]}
                  : gmap string PeerState)).
  simpl. by apply lookup_singleton_ne.
Defined.

(** C5: "garden" is created in an empty store. *)
Lemma create_valid_community_witness :
  communityExists emptyWorld "garden" = false
  ∧ (handleAPI emptyWorld (createRequest "Garden" "garden")).2
    = Response_json (createdBody "Garden" "garden") 200.
Proof.
  split; [vm_compute; reflexivity |].
  destruct (create_valid_community emptyWorld (createRequest "Garden" "garden")
              "Garden" "garden") as (_ & Hcreate & _).
  - reflexivity.
  - reflexivity.
  - reflexivity.
  - discriminate.
  - vm_compute. reflexivity.
  - apply Hcreate. vm_compute. reflexivity.
Defined.

(** C5 as stated fails for a slug that does not match the pattern: nothing
    exists under it, and yet nothing is created and the answer is 400. *)
Lemma create_invalid_slug_not_created :
  communityExists emptyWorld "My Slug!" = false
  ∧ status (handleAPI emptyWorld (createRequest "Garden" "My Slug!")).2 = 400
  ∧ communities (handleAPI emptyWorld (createRequest "Garden" "My Slug!")).1
      !! "My Slug!" = None.
Proof. vm_compute. repeat split. Qed.



(** C7: a ping from peer-a, and its presence with a cursor. *)
Lemma ping_and_presence_bypass_witness :
  JSON_parse "ping" = Some pingMessage
  ∧ typeIs pingMessage "ping" = true
  ∧ message gardenServer peerA "ping"
    = {| world := gardenWorld; communityClients := communityClients gardenServer;
         sent := [(data peerA, JSON_stringify (pongObject pingMessage))] |}
  ∧ pongObject pingMessage
    = JObj [("type", JStr "pong"); ("timestamp", JNum 42%float)]
  ∧ JSON_parse "presence" = Some presenceMessage
  ∧ typeIs presenceMessage "presence" = true
  ∧ (∃ delivered,
       message gardenServer peerA "presence"
         = {| world := world gardenServer;
              communityClients := communityClients gardenServer;
              sent := sent gardenServer ++ delivered |}
       ∧ (data peerB, JSON_stringify (presenceObject "peer-a" presenceMessage))
           ∈ delivered
       ∧ (∀ payload, ((data peerC, payload) ∉ delivered)
                     ∧ ((data peerA, payload) ∉ delivered)))
  ∧ prop (presenceObject "peer-a" presenceMessage) "type" = Some (JStr "presence")
  ∧ prop (presenceObject "peer-a" presenceMessage) "cursor" = Some (JNum 7%float)
  ∧ prop (presenceObject "peer-a" presenceMessage) "peerId" = Some (JStr "peer-a").
Proof.
  assert (JSON_parse "ping" = Some pingMessage) as Hparse by reflexivity.
  assert (JSON_parse "presence" = Some presenceMessage) as Hparse' by reflexivity.
  split; [exact Hparse |]. split; [reflexivity |].
  destruct (proj1 (ping_and_presence_bypass gardenServer peerA "ping"
                     pingMessage Hparse) eq_refl) as [Hsent Hpong].
  split; [exact Hsent |]. split; [apply Hpong; reflexivity |].
  split; [exact Hparse' |]. split; [reflexivity |].
  destruct (ping_and_presence_bypass gardenServer peerA "presence"
              presenceMessage Hparse') as (_ & Hrelay & Hobject).
  destruct (Hrelay eq_refl) as (delivered & Hmessage & Hdelivered).
  assert (NoDup ["type"; "cursor"]) as Hkeys.
  { apply (bool_decide_unpack _). vm_compute. exact I. }
  destruct (Hobject eq_refl _ eq_refl Hkeys) as [Htype Hprops].
  assert (delivered
          = [(data peerB, JSON_stringify (presenceObject "peer-a" presenceMessage))])
    as Honly.
  { apply (f_equal sent) in Hmessage. cbn [sent] in Hmessage.
    change (sent gardenServer) with (@nil (WSData * string)) in Hmessage.
    cbn [app] in Hmessage. rewrite <- Hmessage. vm_compute. reflexivity. }
  split.
  - exists delivered. split; [exact Hmessage |]. split.
    + apply Hdelivered. split; [reflexivity |].
      exists "peer-b", peerB. split; [vm_compute; reflexivity |].
      split; [discriminate |]. split; reflexivity.
    + intros payload. rewrite Honly.
      split; intros [= Hpeer]%list_elem_of_singleton; discriminate Hpeer.
  - split; [exact Htype |]. split; [| exact (Hprops "peerId")].
    exact (Hprops "cursor").
Defined.

(** A presence message from peer-a reaches peer-b, which is open, and
    neither peer-c, which is closing, nor peer-a itself. *)
Example presence_reaches_open_peers :
  sent (message gardenServer peerA "presence")
    = [(data peerB,
        JSON_stringify (presenceObject "peer-a" presenceMessage))]
  ∧ presenceObject "peer-a" presenceMessage
    = JObj [("type", JStr "presence"); ("peerId", JStr "peer-a");
            ("cursor", JNum 7%float)].
Proof. vm_compute. split; reflexivity. Qed.

(** C8: a mutation of a document that is not cached, and one of "garden". *)
Lemma legacy_mutations_witness :
  communities emptyWorld !! "ghost" = None
  ∧ updateShape emptyWorld "ghost" "s1" rectangle = emptyWorld
  ∧ deleteShape emptyWorld "ghost" "s1" = emptyWorld
  ∧ communities gardenWorld !! "garden" = Some gardenDoc
  ∧ armedAt "garden" (nextTimerId gardenWorld)
      (clock gardenWorld + SAVE_DELAY)
      (updateShape gardenWorld "garden" "s1" rectangle).
Proof.
  assert (communities gardenWorld !! "garden" = Some gardenDoc) as Hdoc
    by (vm_compute; reflexivity).
  destruct (proj1 (legacy_mutations emptyWorld "ghost" "s1" rectangle)
              eq_refl) as [Hupdate Hdelete].
  destruct (proj1 (proj2 (legacy_mutations gardenWorld "garden" "s1"
                            rectangle)) gardenDoc Hdoc)
    as [(_ & Harmed & _) _].
  do 4 (split; [done |]). exact Harmed.
Defined.

(** C9 *)
Lemma sync_on_absent_document_witness :
  communities emptyWorld !! "ghost" = None
  ∧ receiveSyncMessage emptyWorld "ghost" "peer-1" [Byte.x01]
      = (emptyWorld, Returned {| response := None; broadcastToPeers := ∅ |})
  ∧ generateSyncMessageForPeer emptyWorld "ghost" "peer-1" = (emptyWorld, None).
Proof.
  split; [reflexivity |].
  apply (sync_on_absent_document emptyWorld "ghost" "peer-1" [Byte.x01]).
  reflexivity.
Defined.

(** C10: a peer of "garden" that has no entry. *)
Lemma removePeerSyncState_idempotent_witness :
  reachable peersWorld
  ∧ peerEntry peersWorld "garden" "peer-b" = None
  ∧ removePeerSyncState peersWorld "garden" "peer-b" = peersWorld.
Proof.
  assert (peerEntry peersWorld "garden" "peer-b" = None) as Habsent
    by (vm_compute; reflexivity).
  split; [exact peersWorld_reachable |]. split; [exact Habsent |].
  exact (proj1 (removePeerSyncState_idempotent peersWorld "garden" "peer-b")
           peersWorld_reachable Habsent).
Defined.

End Instances.

(** * Further runs on concrete inputs *)

Section MoreInstances.
Import Sample.
#[local] Existing Instance lib.
#[local] Existing Instance host.

(** "garden" and "orchard" have just been created. *)
Lemma twoWorld_reachable :
  reachable (createCommunity gardenWorld "Orchard" "orchard").1.
Proof.
  exact (reachable_step _ _ gardenWorld_reachable
           (step_createCommunity _ "Orchard" "orchard")).
Defined.


(** X2: saving "orchard" again leaves the timer of "garden" alone. *)
Lemma other_timers_untouched_witness :
  reachable (createCommunity gardenWorld "Orchard" "orchard").1
  ∧ timersOf "garden"
      (saveCommunity (createCommunity gardenWorld "Orchard" "orchard").1 "orchard")
    = timersOf "garden" (createCommunity gardenWorld "Orchard" "orchard").1.
Proof.
  split; [exact twoWorld_reachable |].
  apply (other_timers_untouched _ "orchard" "garden" twoWorld_reachable).
  discriminate.
Defined.

(** X3: "garden" stays cached when its peer leaves and time passes. *)
Lemma cache_never_evicts_witness :
  rtc step gardenWorld (advance 5000 (removePeerSyncState gardenWorld "garden" "peer-a"))
  ∧ is_Some (communities (advance 5000 (removePeerSyncState gardenWorld "garden" "peer-a"))
               !! "garden").
Proof.
  assert (rtc step gardenWorld
            (advance 5000 (removePeerSyncState gardenWorld "garden" "peer-a"))) as Hrun.
  { eapply rtc_l; [apply (step_removePeerSyncState _ "garden" "peer-a") |].
    eapply rtc_l; [apply (step_advance _ 5000) |]. apply rtc_refl. }
  split; [exact Hrun |].
  apply (cache_never_evicts _ _ "garden" Hrun). exists gardenDoc. vm_compute. reflexivity.
Defined.

(** X4: the legacy record of "garden" is still there after the migration
    and the save. *)
Lemma files_are_kept_witness :
  rtc step legacyWorld (advance 2000 (loadCommunity legacyWorld "garden").1)
  ∧ disk (advance 2000 (loadCommunity legacyWorld "garden").1) !! jsonPath "garden"
    = Some [Byte.x01].
Proof.
  assert (rtc step legacyWorld (advance 2000 (loadCommunity legacyWorld "garden").1))
    as Hrun.
  { eapply rtc_l; [apply (step_loadCommunity _ "garden") |].
    eapply rtc_l; [apply (step_advance _ 2000) |]. apply rtc_refl. }
  split; [exact Hrun |].
  destruct (files_are_kept _ _ Hrun) as (_ & _ & Hlegacy).
  rewrite Hlegacy. vm_compute. reflexivity.
Defined.

(** X5: the migration of "garden" writes nothing when it is called. *)
Lemma calls_write_nothing_witness :
  call legacyWorld (loadCommunity legacyWorld "garden").1
  ∧ disk (loadCommunity legacyWorld "garden").1 = disk legacyWorld
  ∧ writeLog (loadCommunity legacyWorld "garden").1 = writeLog legacyWorld.
Proof.
  split; [apply call_loadCommunity |].
  destruct (calls_write_nothing legacyWorld (loadCommunity legacyWorld "garden").1
              (call_loadCommunity _ "garden")) as (Hdisk & Hlog & _).
  split; [exact Hdisk | exact Hlog].
Defined.

(** X11: the first message for "peer-a" carries the one change of "garden". *)
Lemma generateSyncMessageForPeer_advances_witness :
  communities gardenWorld !! "garden" = Some gardenDoc
  ∧ (generateSyncMessageForPeer gardenWorld "garden" "peer-a").2 = Some [Byte.x01]
  ∧ peerEntry (generateSyncMessageForPeer gardenWorld "garden" "peer-a").1
      "garden" "peer-a"
    = Some {| syncState := 1; lastActivity := 1000 |}.
Proof.
  assert (communities gardenWorld !! "garden" = Some gardenDoc) as Hdoc
    by (vm_compute; reflexivity).
  split; [exact Hdoc |].
  destruct (generateSyncMessageForPeer_advances gardenWorld "garden" "peer-a"
              gardenDoc Hdoc) as (Hmessage & Hentry & _).
  split; [rewrite Hmessage | rewrite Hentry]; vm_compute; reflexivity.
Defined.

(** X12: "peer-b" brings "garden" to two changes. *)
Lemma receiveSyncMessage_sender_witness :
  communities peersWorld !! "garden" = Some gardenDoc
  ∧ Automerge.receiveSyncMessage gardenDoc (cursorOf peersWorld "garden" "peer-b")
      [Byte.x01; Byte.x01] = Some ((gardenDoc.1, 2), 2, Some [tt])
  ∧ communities (receiveSyncMessage peersWorld "garden" "peer-b"
                   [Byte.x01; Byte.x01]).1
    = <["garden" := (gardenDoc.1, 2)]> (communities peersWorld)
  ∧ peerEntry (receiveSyncMessage peersWorld "garden" "peer-b"
                 [Byte.x01; Byte.x01]).1 "garden" "peer-b"
    = Some {| syncState := 2; lastActivity := 1000 |}.
Proof.
  assert (communities peersWorld !! "garden" = Some gardenDoc) as Hdoc
    by (vm_compute; reflexivity).
  assert (Automerge.receiveSyncMessage gardenDoc
            (cursorOf peersWorld "garden" "peer-b") [Byte.x01; Byte.x01]
          = Some ((gardenDoc.1, 2), 2, Some [tt])) as Hmerge
    by (vm_compute; reflexivity).
  split; [exact Hdoc |]. split; [exact Hmerge |].
  destruct (receiveSyncMessage_sender peersWorld "garden" "peer-b"
              [Byte.x01; Byte.x01] gardenDoc (gardenDoc.1, 2) 2 (Some [tt])
              Hdoc Hmerge) as (Hcache & _ & Hentry & _).
  split; [exact Hcache |]. rewrite Hentry. vm_compute. reflexivity.
Defined.

(** X13: the library rejects an empty delta. *)
Lemma receiveSyncMessage_rejected_witness :
  communities peersWorld !! "garden" = Some gardenDoc
  ∧ Automerge.receiveSyncMessage gardenDoc (cursorOf peersWorld "garden" "peer-b") []
    = None
  ∧ receiveSyncMessage peersWorld "garden" "peer-b" []
    = ((getPeerSyncState peersWorld "garden" "peer-b").1, Thrown)
  ∧ pendingTimers (receiveSyncMessage peersWorld "garden" "peer-b" []).1
    = pendingTimers peersWorld.
Proof.
  assert (communities peersWorld !! "garden" = Some gardenDoc) as Hdoc
    by (vm_compute; reflexivity).
  assert (Automerge.receiveSyncMessage gardenDoc
            (cursorOf peersWorld "garden" "peer-b") [] = None) as Hmerge
    by (vm_compute; reflexivity).
  split; [exact Hdoc |]. split; [exact Hmerge |].
  destruct (receiveSyncMessage_rejected peersWorld "garden" "peer-b" [] gardenDoc
              Hdoc Hmerge) as (Hthrown & _ & Htimers & _).
  split; [exact Hthrown | exact Htimers].
Defined.

(** X15: a directory with both records of "garden", a legacy record of
    "orchard" and a file that is no record. *)
Lemma listCommunities_finds_records_witness :
  countChar "." "orchard" = 0
  ∧ "orchard" ∈ listCommunities
                  (Some ["garden.automerge"; "garden.json"; "notes.txt"; "orchard.json"])
  ∧ listCommunities
      (Some ["garden.automerge"; "garden.json"; "notes.txt"; "orchard.json"])
    = ["garden"; "orchard"].
Proof.
  split; [reflexivity |].
  destruct (listCommunities_finds_records
              ["garden.automerge"; "garden.json"; "notes.txt"; "orchard.json"]
              "orchard" eq_refl) as (_ & _ & Hfound).
  split; [| vm_compute; reflexivity].
  apply Hfound. right. do 3 apply list_elem_of_further. apply list_elem_of_here.
Defined.

(** X17: the slug "garden-2". *)
Lemma slugPattern_safe_witness :
  slugPattern "garden-2" = true
  ∧ slugOfFile "garden-2.automerge" = Some "garden-2"
  ∧ slugOfFile "garden-2.json" = Some "garden-2".
Proof.
  split; [reflexivity |].
  destruct (slugPattern_safe "garden-2" eq_refl) as (_ & _ & _ & Hbinary & Hjson & _).
  split; [exact Hbinary | exact Hjson].
Defined.

(** X18: the GET of "garden" migrates its legacy record. *)
Lemma get_community_witness :
  (loadCommunity legacyWorld "garden").2 = Some importedDoc
  ∧ (handleAPI legacyWorld
       {| req_method := "GET"; req_pathname := "/api/communities/garden";
          req_json := None |}).2
    = Response_json (metaBody (Automerge.toJS importedDoc)) 200
  ∧ communities
      (handleAPI legacyWorld
         {| req_method := "GET"; req_pathname := "/api/communities/garden";
            req_json := None |}).1 !! "garden"
    = Some importedDoc.
Proof.
  assert ((loadCommunity legacyWorld "garden").2 = Some importedDoc) as Hloaded
    by (vm_compute; reflexivity).
  split; [exact Hloaded |].
  destruct (get_community legacyWorld
              {| req_method := "GET"; req_pathname := "/api/communities/garden";
                 req_json := None |} "garden") as (_ & Hfound & _).
  - reflexivity.
  - reflexivity.
  - reflexivity.
  - exact (Hfound importedDoc Hloaded).
Defined.

(** X20: "garden" is created, five seconds pass, and it is asked for again
    under another name. *)
Lemma create_only_once_witness :
  status (handleAPI emptyWorld (createRequest "Garden" "garden")).2 = 200
  ∧ handleAPI (advance 5000 (handleAPI emptyWorld (createRequest "Garden" "garden")).1)
      (createRequest "Other" "garden")
    = (advance 5000 (handleAPI emptyWorld (createRequest "Garden" "garden")).1,
       Response_json (errorBody "Community already exists") 409).
Proof.
  split; [reflexivity |].
  apply (create_only_once emptyWorld _ (createRequest "Garden" "garden")
           (createRequest "Other" "garden")
           {| body_name := Some "Garden"; body_slug := Some "garden" |}
           {| body_name := Some "Other"; body_slug := Some "garden" |} "garden").
  all: try reflexivity.
  eapply rtc_l; [apply (step_advance _ 5000) | apply rtc_refl].
Defined.

(** X21: "garden" is created and asked for. *)
Lemma created_community_is_served_witness :
  status (handleAPI emptyWorld (createRequest "Garden" "garden")).2 = 200
  ∧ handleAPI (handleAPI emptyWorld (createRequest "Garden" "garden")).1
      {| req_method := "GET"; req_pathname := "/api/communities/garden";
         req_json := None |}
    = ((handleAPI emptyWorld (createRequest "Garden" "garden")).1,
       Response_json (JObj [("meta", metaJson gardenMeta)]) 200).
Proof.
  split; [reflexivity |].
  rewrite (created_community_is_served emptyWorld (createRequest "Garden" "garden")
             {| req_method := "GET"; req_pathname := "/api/communities/garden";
                req_json := None |} "Garden" "garden").
  all: reflexivity.
Defined.

End MoreInstances.

Section ReplayInstances.
#[local] Existing Instance Replay.lib.
#[local] Existing Instance Sample.host.

Lemma created_reachable : reachable Replay.created.
Proof.
  exact (reachable_step _ _ (reachable_initial ∅ 1000)
           (step_createCommunity _ "Garden" "garden")).
Defined.

(** X14: "garden" is created, two seconds pass, the process starts again. *)
Lemma restart_recovers_witness :
  loadCommunity (initial (disk (advance 2000 Replay.created)) 5000) "garden"
    = (with_communities (insert "garden" Replay.changedOnce)
         (initial (disk (advance 2000 Replay.created)) 5000),
       Some Replay.changedOnce).
Proof.
  apply (restart_recovers Replay.created
           {| timer_id := 0; timer_slug := "garden"; timer_due := 3000 |}
           Replay.changedOnce 2000 5000).
  - exact created_reachable.
  - vm_compute. left.
  - vm_compute. discriminate.
  - vm_compute. reflexivity.
  - vm_compute. reflexivity.
Defined.

End ReplayInstances.

Section WireInstances.
#[local] Existing Instance Sample.lib.
#[local] Existing Instance Wire.host.

Lemma served_patient : patient (Wire.served, []).
Proof.
  apply (patient_event (Loads Sample.peerB)
           (open (opened (open Wire.created Sample.peerA) Sample.peerA) Sample.peerB,
            [Sample.peerB]));
    [| exact (occurs_opened _ [] [] Sample.peerB) | exact I].
  apply (patient_event (Opens Sample.peerB)
           (opened (open Wire.created Sample.peerA) Sample.peerA, []));
    [| exact (occurs_open _ [] Sample.peerB) | exact I].
  apply (patient_event (Loads Sample.peerA) (open Wire.created Sample.peerA, [Sample.peerA]));
    [| exact (occurs_opened _ [] [] Sample.peerA) | exact I].
  apply (patient_event (Opens Sample.peerA) (Wire.created, []));
    [| exact (occurs_open _ [] Sample.peerA) | exact I].
  apply (patient_event (Asks (Sample.createRequest "Garden" "garden"))
           (started ∅ 1000, []));
    [| exact (occurs_api _ [] _) | exact I].
  apply patient_started.
Defined.

Lemma served_serving : serving (Wire.served, []).
Proof. exact (patient_serving _ served_patient). Defined.

Lemma hasty_serving : serving (Wire.hasty, []).
Proof.
  apply (serving_event (Loads Sample.peerC)
           (close (open Wire.served Sample.peerC) Sample.peerC, [Sample.peerC]));
    [| exact (occurs_opened _ [] [] Sample.peerC)].
  apply (serving_event (Closes Sample.peerC)
           (open Wire.served Sample.peerC, [Sample.peerC]));
    [| exact (occurs_close _ _ Sample.peerC)].
  apply (serving_event (Opens Sample.peerC) (Wire.served, []));
    [exact served_serving | exact (occurs_open _ [] Sample.peerC)].
Defined.


(** A [close] that comes before the continuation of [open]: the state is
    one the server reaches, the registry and the store are in order, and
    "peer-c" has a sync state and no connection. *)
Example closed_before_loaded :
  serving (Wire.hasty, [])
  ∧ getClient Wire.hasty "garden" "peer-c" = None
  ∧ peerEntry (world Wire.hasty) "garden" "peer-c"
    = Some {| syncState := 1; lastActivity := 1000 |}
  ∧ sent Wire.hasty = sent Wire.served ++ [(data Sample.peerC, "sync")].
Proof.
  split; [exact hasty_serving |]. vm_compute. repeat split.
Qed.

(** X27: "peer-a" sends a delta that brings "garden" to two changes. *)
Lemma sync_messages_are_relayed_witness :
  JSON_parse "sync" = Some Wire.syncMessage
  ∧ world (message Wire.served Sample.peerA "sync")
    = (receiveSyncMessage (world Wire.served) "garden" "peer-a"
         [Byte.x01; Byte.x01]).1
  ∧ sent (message Wire.served Sample.peerA "sync")
    = sent Wire.served ++ [(data Sample.peerB, "sync")].
Proof.
  split; [reflexivity |].
  destruct (sync_messages_are_relayed Wire.served Sample.peerA "sync" Wire.syncMessage)
    as (Hworld & _ & _ & _ & _).
  - reflexivity.
  - reflexivity.
  - reflexivity.
  - split; [exact Hworld |]. vm_compute. reflexivity.
Defined.


(** X25: "peer-a" announces its presence. *)
Lemma message_stays_in_community_witness :
  registry_ok Wire.served
  ∧ communityClients (message Wire.served Sample.peerA "presence")
    = communityClients Wire.served
  ∧ ∃ delivered,
      sent (message Wire.served Sample.peerA "presence")
        = sent Wire.served ++ delivered
      ∧ NoDup delivered.*1.
Proof.
  pose proof (serving_registry_ok (Wire.served, []) served_serving) as Hregistry.
  split; [exact Hregistry |].
  destruct (message_stays_in_community Wire.served Sample.peerA "presence" Hregistry)
    as (Hsame & delivered & Hsent & Hdistinct & _).
  split; [exact Hsame |]. exists delivered. split; [exact Hsent | exact Hdistinct].
Defined.

(** X24: a third peer connects to "garden" and leaves, after the
    continuation of its [open] and before it. *)
Lemma open_then_close_witness :
  registry_ok Wire.served
  ∧ getClient Wire.served "garden" "peer-c" = None
  ∧ communityClients
      (close (opened (open Wire.served Sample.peerC) Sample.peerC) Sample.peerC)
    = communityClients Wire.served
  ∧ peerEntry
      (world (close (opened (open Wire.served Sample.peerC) Sample.peerC) Sample.peerC))
      "garden" "peer-c" = None
  ∧ communityClients Wire.hasty = communityClients Wire.served
  ∧ getClient Wire.hasty "garden" "peer-c" = None
  ∧ peerEntry (world Wire.hasty) "garden" "peer-c"
    = Some {| syncState := 1; lastActivity := 1000 |}.
Proof.
  pose proof (serving_registry_ok (Wire.served, []) served_serving) as Hregistry.
  assert (getClient Wire.served "garden" "peer-c" = None) as Hnew
    by (vm_compute; reflexivity).
  split; [exact Hregistry |]. split; [exact Hnew |].
  destruct (open_then_close Wire.served Sample.peerC Hregistry Hnew)
    as (Hafter & Hbefore & Hentries & _ & Hleft).
  split; [exact Hafter |].
  split; [rewrite Hentries; reflexivity |].
  split; [exact Hbefore |].
  destruct (Hleft Sample.gardenDoc) as (Hgone & Hentry & _);
    [vm_compute; reflexivity |].
  split; [exact Hgone |].
  refine (eq_trans Hentry _). vm_compute. reflexivity.
Defined.

End WireInstances.
